(** * The View Syncer service of zero-cache

    A shallow embedding of [ViewSyncerService]
    (zero-cache/src/services/view-syncer/view-syncer.ts) and the properties
    of its poke protocol, CVR pointer discipline and row staging.

    The service is a JavaScript object whose methods run under one lock,
    mutate private fields and call four collaborators: the pipeline driver,
    the CVR store, the CVR updaters and the client handlers.  The embedding
    is a state-and-exception monad over the record of the private fields in
    which a raised exception keeps the mutations made before it, as in
    JavaScript; every call on a client handler, an updater or the pipeline
    is recorded in an event log that the computation returns.

    JavaScript objects and [Map]s iterate in insertion order, and that
    order is visible in the order of the calls the service makes; they are
    modelled as association lists with the update-in-place semantics of
    [Map.set]. *)

From Stdlib Require Import String Ascii List ZArith NArith Bool Arith Lia Sorted.
Import ListNotations.
Local Open Scope string_scope.
Local Open Scope list_scope.

(** ** Insertion-ordered string-keyed maps (JS objects and [Map]s) *)

Section AList.
Context {V : Type}.

Fixpoint alookup (k : string) (m : list (string * V)) : option V :=
  match m with
  | [] => None
  | (k', v) :: m' => if String.eqb k k' then Some v else alookup k m'
  end.

(** [Map.prototype.set]: an existing key keeps its position. *)
Fixpoint aset (k : string) (v : V) (m : list (string * V)) : list (string * V) :=
  match m with
  | [] => [(k, v)]
  | (k', v') :: m' =>
      if String.eqb k k' then (k, v) :: m' else (k', v') :: aset k v m'
  end.

Definition adelete (k : string) (m : list (string * V)) : list (string * V) :=
  filter (fun kv => negb (String.eqb k (fst kv))) m.

Definition akeys (m : list (string * V)) : list string := map fst m.

Definition avalues (m : list (string * V)) : list V := map snd m.

End AList.

Definition mem (k : string) (l : list string) : bool :=
  existsb (String.eqb k) l.

(** [difference(a, b)] of shared/src/set-utils.js: the elements of [a], in
    their order, that are not in [b]. *)
Definition difference (a b : list string) : list string :=
  filter (fun k => negb (mem k b)) a.

(** ** Versions *)

Record CVRVersion := mkVersion {
  stateVersion : string;
  minorVersion : N   (* [minorVersion?: number], absent read as 0 *)
}.

(** A client that connected with a [null] base cookie has no version. *)
Definition NullableCVRVersion := option CVRVersion.

(** Modelled from the spec: [cmpVersions] of schema/types.ts is not part of
    the sources at hand.  "Total order: compare stateVersion, then
    minorVersion", and "Null base cookie equals the minimum version".
    State versions are compared as JavaScript compares strings. *)
Definition cmpVersions (a b : NullableCVRVersion) : comparison :=
  match a, b with
  | None, None => Eq
  | None, Some _ => Lt
  | Some _, None => Gt
  | Some x, Some y =>
      match String.compare (stateVersion x) (stateVersion y) with
      | Eq => N.compare (minorVersion x) (minorVersion y)
      | c => c
      end
  end.

Definition version_le (a b : CVRVersion) : Prop :=
  cmpVersions (Some a) (Some b) <> Gt.

Definition version_lt (a b : NullableCVRVersion) : Prop :=
  cmpVersions a b = Lt.

Definition version_eqb (a b : CVRVersion) : bool :=
  String.eqb (stateVersion a) (stateVersion b)
  && N.eqb (minorVersion a) (minorVersion b).

(** ** Rows, queries and the CVR snapshot *)

Inductive JSONValue :=
| JNull
| JBool (b : bool)
| JNum (n : Z)
| JStr (s : string).

(** A row is a JS object from column name to value. *)
Definition Row := list (string * JSONValue).
Definition RowKey := list (string * JSONValue).

Record RowID := mkRowID {
  schema : string;
  table : string;
  rowKey : RowKey
}.

(** The part of the zql AST the pipeline looks at. *)
Record AST := mkAST {
  astTable : string;
  astSelect : list string
}.

(** [RowChange] of pipeline-driver.ts; [rcRow = None] is a [null] row. *)
Record RowChange := mkRowChange {
  queryHash : string;
  rcTable : string;
  rcRowKey : RowKey;
  rcRow : option Row
}.

(** [refCounts] is a plain JS object ([{}]), so that a property that it
    does not own is looked up on [Object.prototype].  These members are
    functions; [__proto__] is an accessor whose setter ignores what is not
    an object. *)
Definition OBJECT_PROTOTYPE_FUNCTIONS : list string :=
  ["constructor"; "hasOwnProperty"; "isPrototypeOf"; "propertyIsEnumerable";
   "toLocaleString"; "toString"; "valueOf";
   "__defineGetter__"; "__defineSetter__"; "__lookupGetter__";
   "__lookupSetter__"].

Definition PROTO : string := "__proto__".

(** An own property of [refCounts]: a number, or the string that [+=] makes
    of an inherited function: the text of the function [member] followed by
    the decimal text of every delta added since.  The properties are kept
    in the order in which they were first written; the statements below
    only look them up by name. *)
Inductive RefCount :=
| Count (n : Z)
| Text (member : string) (deltas : list Z).

(** [RowUpdate] of cvr.ts: [{version?, contents?, refCounts}]. *)
Record RowUpdate := mkRowUpdate {
  ruVersion : option string;
  ruContents : option Row;
  refCounts : list (string * RefCount)
}.

(** [CustomKeyMap<RowID, RowUpdate>]: a [Map] from the key's hash to the
    pair of the key and the value. *)
Definition RowMap := list (string * (RowID * RowUpdate)).

Record QueryRecord := mkQuery {
  qid : string;
  qAst : AST;
  desiredBy : list (string * CVRVersion);
  internal : bool;
  transformationHash : option string;
  transformationVersion : option CVRVersion;
  qPatchVersion : option CVRVersion
}.

Record ClientRecord := mkClientRecord {
  crID : string;
  crPatchVersion : CVRVersion;
  desiredQueryIDs : list string
}.

Record CVRSnapshot := mkCVR {
  cvrID : string;
  version : CVRVersion;
  cvrClients : list (string * ClientRecord);
  queries : list (string * QueryRecord)
}.

(** ** Patches *)

Inductive Patch :=
| RowPut (id : RowID) (contents : Row)          (* {type:'row', op:'put'} *)
| RowDel (id : RowID)                           (* {type:'row', op:'del'} *)
| QueryPut (hash : string) (ast : AST) (clientID : option string)
| QueryDel (hash : string) (clientID : option string)
| ClientPut (clientID : string)
| ClientDel (clientID : string).

Record PatchToVersion := mkPatchToVersion {
  patch : Patch;
  toVersion : CVRVersion
}.

(** A record of the store's row-patch catch-up scan; [rpRefCounts = None]
    is the tombstone of an unreferenced row. *)
Record RowPatchRecord := mkRowPatchRecord {
  rpSchema : string;
  rpTable : string;
  rpRowKey : RowKey;
  rpPatchVersion : CVRVersion;
  rpRefCounts : option (list (string * Z))
}.

(** One entry of a [desiredQueriesPatch]. *)
Inductive QueriesPatchOp :=
| OpPut (hash : string) (ast : AST)
| OpDel (hash : string)
| OpClear.

(** ** Errors and results *)

(** What a collaborator raises (BadQuery, a storage error, ...). *)
Definition ExtError := string.

Inductive Error :=
| AssertionError (msg : string)                        (* assert(...) *)
| InvalidVersionError (row : Row)                       (* Invalid _0_version in row *)
| MissingRowError (tbl : string) (key : RowKey)         (* must(getRow(...)) *)
| TypeError (msg : string)                              (* property of undefined *)
| External (e : ExtError).

Inductive Result (A : Type) :=
| Ok (a : A)
| Err (e : Error).
Arguments Ok {A} a.
Arguments Err {A} e.

(** A collaborator's answer: [inl] is a raised exception. *)
Definition Ext (A : Type) := (ExtError + A)%type.

(** A lazy sequence (generator, async iterable): the items it yields and
    the exception, if any, that ends it. *)
Definition Stream (A : Type) := (list A * option ExtError)%type.

(** ** The interaction log *)

(** A poke handler returned by [ClientHandler.startPoke]. *)
Record PokeHandler := mkPoker {
  pkHandler : nat;         (* identity of the client handler it belongs to *)
  pkCookie : CVRVersion
}.

Inductive Event :=
| StartPoke (h : nat) (v : CVRVersion)              (* c.startPoke(v) *)
| AddPatch (h : nat) (p : PatchToVersion)           (* poker.addPatch(p) *)
| PokeEnd (h : nat)                                 (* poker.end() *)
| Closed (h : nat)                                  (* c.close() *)
| Failed (h : nat) (e : Error)                      (* c.fail(e) *)
| AddQuery (hash : string) (ast : AST)              (* pipelines.addQuery *)
| RemoveQuery (hash : string)                       (* pipelines.removeQuery *)
| TrackQueries (add remove : list string)           (* updater.trackQueries *)
| Received (rows : RowMap) (r : Ext (list PatchToVersion))   (* updater.received *)
| Flush (r : Ext CVRSnapshot)                       (* updater.flush *)
| Dropped (cmd : string)                            (* dropping cmd message *)
| IdleTimerArmed (token : nat).                     (* setTimeout(...) *)

(** ** Collaborators

    The pipeline driver, the CVR store with its two updaters, and the row
    key hashing are modules of the repository that the service only calls;
    they are taken as interfaces.  Every method that reads or writes state
    outside the service passes that state explicitly. *)

Class PipelineDriver := {
  Pipelines : Type;
  initialized : Pipelines -> bool;
  init : Pipelines -> Pipelines;
  currentVersion : Pipelines -> string;
  addedQueries : Pipelines -> list string;
  addQuery : string -> AST -> Pipelines -> Stream RowChange * Pipelines;
  removeQuery : string -> Pipelines -> Pipelines;
  advance : Pipelines -> Ext (string * nat * Stream RowChange) * Pipelines;
  getRow : string -> RowKey -> Pipelines -> option Row
}.

Class CVRStorage := {
  Store : Type;
  load : Store -> Ext CVRSnapshot * Store;
  catchupRowPatches :
    NullableCVRVersion -> CVRSnapshot -> list string -> Store ->
    Stream (list RowPatchRecord);
  catchupConfigPatches :
    NullableCVRVersion -> CVRSnapshot -> Store -> Ext (list PatchToVersion);
  (* CVRConfigDrivenUpdater *)
  ConfigUpdater : Type;
  newConfigUpdater : CVRSnapshot -> ConfigUpdater;
  putDesiredQueries :
    string -> list (string * AST) -> ConfigUpdater ->
    list (string * AST) * ConfigUpdater;
  deleteDesiredQueries : string -> list string -> ConfigUpdater -> ConfigUpdater;
  clearDesiredQueries : string -> ConfigUpdater -> ConfigUpdater;
  flushConfig : ConfigUpdater -> Store -> Ext CVRSnapshot * Store;
  (* CVRQueryDrivenUpdater *)
  QueryUpdater : Type;
  newQueryUpdater : CVRSnapshot -> string -> QueryUpdater;
  updatedVersion : QueryUpdater -> CVRVersion;
  trackQueries :
    list (string * string) -> list string -> QueryUpdater ->
    (CVRVersion * list PatchToVersion) * QueryUpdater;
  received :
    RowMap -> QueryUpdater -> Store -> Ext (list PatchToVersion) * QueryUpdater;
  deleteUnreferencedRows :
    QueryUpdater -> Store -> Ext (list PatchToVersion) * QueryUpdater;
  flushQuery : QueryUpdater -> Store -> Ext CVRSnapshot * Store
}.

(** [rowIDHash] of types/row-key.ts, the key function of the row map. *)
Class RowKeys := {
  rowIDHash : RowID -> string
}.

(** ** Client handlers

    Modelled from the spec: client-handler.ts is not part of the sources at
    hand.  A handler is an object with an identity; [version()] is "the
    latest version the client has acknowledged (initialized from base
    cookie)", and ending a poke moves it to the poke's cookie. *)

Record ClientHandler := mkHandler {
  hid : nat;                       (* object identity, compared by [===] *)
  hClientID : string;
  hWsID : string;
  hVersion : NullableCVRVersion
}.

Record SyncContext := mkContext {
  clientID : string;
  wsID : string;
  baseCookie : NullableCVRVersion
}.

Definition ZERO_VERSION_COLUMN_NAME : string := "_0_version".

Definition CURSOR_PAGE_SIZE : N := 10000.

Definition DEFAULT_KEEPALIVE_MS : N := 30000.

(** [!v] for [v : string | undefined]. *)
Definition falsy (v : option string) : bool :=
  match v with
  | None => true
  | Some s => String.eqb s ""
  end.

Definition size {A} (m : list A) : N := N.of_nat (length m).

Section Service.
Context {PD : PipelineDriver} {CS : CVRStorage} {RK : RowKeys}.

(** ** The service's private fields *)

Record ViewSyncerService := mkService {
  pipelines : Pipelines;
  versionChangesActive : bool;               (* #versionChanges.active *)
  clients : list (string * ClientHandler);   (* #clients *)
  cvrStore : Store;
  cvr : option CVRSnapshot;                  (* #cvr, undefined until loaded *)
  idleToken : option nat;                    (* identity of the IdleToken *)
  nextObject : nat                           (* allocator of identities *)
}.

Definition with_pipelines (p : Pipelines) (s : ViewSyncerService) :=
  mkService p (versionChangesActive s) (clients s) (cvrStore s) (cvr s)
            (idleToken s) (nextObject s).

Definition with_active (b : bool) (s : ViewSyncerService) :=
  mkService (pipelines s) b (clients s) (cvrStore s) (cvr s)
            (idleToken s) (nextObject s).

Definition with_clients (c : list (string * ClientHandler)) (s : ViewSyncerService) :=
  mkService (pipelines s) (versionChangesActive s) c (cvrStore s) (cvr s)
            (idleToken s) (nextObject s).

Definition with_store (st : Store) (s : ViewSyncerService) :=
  mkService (pipelines s) (versionChangesActive s) (clients s) st (cvr s)
            (idleToken s) (nextObject s).

Definition with_cvr (c : option CVRSnapshot) (s : ViewSyncerService) :=
  mkService (pipelines s) (versionChangesActive s) (clients s) (cvrStore s) c
            (idleToken s) (nextObject s).

Definition with_idleToken (t : option nat) (s : ViewSyncerService) :=
  mkService (pipelines s) (versionChangesActive s) (clients s) (cvrStore s)
            (cvr s) t (nextObject s).

Definition with_nextObject (n : nat) (s : ViewSyncerService) :=
  mkService (pipelines s) (versionChangesActive s) (clients s) (cvrStore s)
            (cvr s) (idleToken s) n.

(** ** The monad of the service's methods

    A computation returns its result, the fields as it left them, and the
    calls it made, in order.  An exception keeps both. *)

Definition M (A : Type) : Type :=
  ViewSyncerService -> Result A * ViewSyncerService * list Event.

Definition results {A} (x : Result A * ViewSyncerService * list Event)
  : Result A := fst (fst x).
Definition fields {A} (x : Result A * ViewSyncerService * list Event)
  : ViewSyncerService := snd (fst x).
Definition calls {A} (x : Result A * ViewSyncerService * list Event)
  : list Event := snd x.

Definition ret {A} (a : A) : M A := fun s => (Ok a, s, []).

Definition bind {A B} (m : M A) (f : A -> M B) : M B := fun s =>
  let x := m s in
  match results x with
  | Ok a =>
      let y := f a (fields x) in
      (results y, fields y, calls x ++ calls y)
  | Err e => (Err e, fields x, calls x)
  end.

Definition raise {A} (e : Error) : M A := fun s => (Err e, s, []).

Definition get : M ViewSyncerService := fun s => (Ok s, s, []).

Definition modify (f : ViewSyncerService -> ViewSyncerService) : M unit :=
  fun s => (Ok tt, f s, []).

Definition emit (ev : Event) : M unit := fun s => (Ok tt, s, [ev]).

(** [try { m } catch (e) { h(e) }] *)
Definition catch {A} (m : M A) (h : Error -> M A) : M A := fun s =>
  let x := m s in
  match results x with
  | Ok a => x
  | Err e =>
      let y := h e (fields x) in
      (results y, fields y, calls x ++ calls y)
  end.

Notation "x <- m ;; k" := (bind m (fun x => k))
  (at level 61, m at next level, right associativity).
Notation "' p <- m ;; k" := (bind m (fun p => k))
  (at level 61, p pattern, m at next level, right associativity).
Notation "m ;; k" := (bind m (fun _ => k))
  (at level 61, right associativity).

Definition assert (b : bool) (msg : string) : M unit :=
  if b then ret tt else raise (AssertionError msg).

Definition liftExt {A} (r : Ext A) : M A :=
  match r with
  | inl e => raise (External e)
  | inr a => ret a
  end.

Definition liftResult {A} (r : Result A) : M A :=
  match r with
  | Ok a => ret a
  | Err e => raise e
  end.

Fixpoint forEach {A} (f : A -> M unit) (l : list A) : M unit :=
  match l with
  | [] => ret tt
  | a :: l' => f a ;; forEach f l'
  end.

Fixpoint foldM {A B} (f : B -> A -> M B) (l : list A) (b : B) : M B :=
  match l with
  | [] => ret b
  | a :: l' => b' <- f b a ;; foldM f l' b'
  end.

(** The end of a consumed lazy sequence. *)
Definition endOfStream (e : option ExtError) : M unit :=
  match e with
  | Some x => raise (External x)
  | None => ret tt
  end.

(** [wp m s Q]: running [m] from the fields [s] ends in a result, fields and
    calls that satisfy [Q]. *)
Definition wp {A} (m : M A) (s : ViewSyncerService)
    (Q : Result A -> ViewSyncerService -> list Event -> Prop) : Prop :=
  Q (results (m s)) (fields (m s)) (calls (m s)).

(** ** Calls on client handlers and poke handlers *)

(** [[...this.#clients.values()].map(c => c.startPoke(v))] *)
Definition startPokes (v : CVRVersion) : M (list PokeHandler) :=
  s <- get ;;
  let pokers := map (fun c => mkPoker (hid c) v) (avalues (clients s)) in
  forEach (fun p => emit (StartPoke (pkHandler p) (pkCookie p))) pokers ;;
  ret pokers.

(** [pokers.forEach(poker => poker.addPatch(patch))] *)
Definition addPatchAll (pokers : list PokeHandler) (p : PatchToVersion) : M unit :=
  forEach (fun poker => emit (AddPatch (pkHandler poker) p)) pokers.

Definition acknowledge (p : PokeHandler) (c : ClientHandler) : ClientHandler :=
  if Nat.eqb (hid c) (pkHandler p)
  then mkHandler (hid c) (hClientID c) (hWsID c) (Some (pkCookie p))
  else c.

(** [poker.end()] *)
Definition endPoke (p : PokeHandler) : M unit :=
  emit (PokeEnd (pkHandler p)) ;;
  modify (fun s =>
    with_clients (map (fun kc => (fst kc, acknowledge p (snd kc))) (clients s)) s).

(** ** The idle timer *)

Definition startIdleTimer : M unit :=
  s <- get ;;
  let token := nextObject s in
  modify (fun s => with_nextObject (S token) (with_idleToken (Some token) s)) ;;
  emit (IdleTimerArmed token).

(** The [setTimeout] callback of [#startIdleTimer] for [token]. *)
Definition idleTimeout (token : nat) : M unit :=
  s <- get ;;
  match idleToken s with
  | Some t => if Nat.eqb t token then modify (with_active false) else ret tt
  | None => ret tt
  end.

Definition keepalive : M bool :=
  s <- get ;;
  if negb (versionChangesActive s) then ret false
  else
    (match idleToken s with
     | Some _ => startIdleTimer
     | None => ret tt
     end) ;;
    ret true.

Definition deleteClient (clientID : string) (client : ClientHandler) : M unit :=
  s <- get ;;
  match alookup clientID (clients s) with
  | Some c =>
      if Nat.eqb (hid c) (hid client) then
        modify (fun s => with_clients (adelete clientID (clients s)) s) ;;
        s' <- get ;;
        if N.eqb (size (clients s')) 0 then startIdleTimer else ret tt
      else ret tt
  | None => ret tt
  end.

(** ** Staging row changes *)

(** [refCounts[q] ??= 0; refCounts[q] += delta] on the value [current] that
    [refCounts] owns for [q], if any: the value it owns afterwards.  A
    number is added to; a string is appended to.  For a property that is
    not owned, [??=] stores [0] only when nothing is inherited for [q];
    an inherited function is not nullish, and [+=] stores the string made
    of it; for [__proto__] the string goes to the setter, which drops it. *)
Definition bumped (q : string) (current : option RefCount) (delta : Z)
  : option RefCount :=
  match current with
  | Some (Count n) => Some (Count (n + delta))
  | Some (Text member deltas) => Some (Text member (deltas ++ [delta]))
  | None =>
      if String.eqb q PROTO then None
      else if mem q OBJECT_PROTOTYPE_FUNCTIONS then Some (Text q [delta])
      else Some (Count (0 + delta))
  end.

Definition bumpRefCount (q : string) (delta : Z)
    (rc : list (string * RefCount)) : list (string * RefCount) :=
  match bumped q (alookup q rc) delta with
  | Some v => aset q v rc
  | None => rc
  end.

(** The body of the [for (const change of changes)] loop of
    [#processChanges], up to the page check. *)
Definition stageChange (rows : RowMap) (change : RowChange) : Result RowMap :=
  let rowID := mkRowID "" (rcTable change) (rcRowKey change) in
  let k := rowIDHash rowID in
  let '(storedID, parsedRow) :=
    match alookup k rows with
    | Some entry => entry
    | None => (rowID, mkRowUpdate None None [])
    end in
  let delta := match rcRow change with Some _ => 1%Z | None => (-1)%Z end in
  let rc := bumpRefCount (queryHash change) delta (refCounts parsedRow) in
  match rcRow change with
  | Some row =>
      if falsy (ruVersion parsedRow) then
        match alookup ZERO_VERSION_COLUMN_NAME row with
        | Some (JStr v) =>
            if Nat.eqb (String.length v) 0
            then Err (InvalidVersionError row)
            else Ok (aset k (storedID,
                             mkRowUpdate (Some v)
                               (Some (adelete ZERO_VERSION_COLUMN_NAME row)) rc)
                          rows)
        | _ => Err (InvalidVersionError row)
        end
      else Ok (aset k (storedID,
                       mkRowUpdate (ruVersion parsedRow) (ruContents parsedRow) rc)
                    rows)
  | None =>
      Ok (aset k (storedID,
                  mkRowUpdate (ruVersion parsedRow) (ruContents parsedRow) rc)
               rows)
  end.

(** [processBatch] of [#processChanges]; the cleared map is the caller's. *)
Definition processBatch (rows : RowMap) (updater : QueryUpdater)
    (pokers : list PokeHandler) : M QueryUpdater :=
  s <- get ;;
  let '(r, updater') := received rows updater (cvrStore s) in
  emit (Received rows r) ;;
  patches <- liftExt r ;;
  forEach (addPatchAll pokers) patches ;;
  ret updater'.

Fixpoint processLoop (changes : list RowChange) (rows : RowMap)
    (updater : QueryUpdater) (pokers : list PokeHandler)
  : M (RowMap * QueryUpdater) :=
  match changes with
  | [] => ret (rows, updater)
  | change :: rest =>
      rows1 <- liftResult (stageChange rows change) ;;
      ' (rows2, updater2) <-
        (if N.eqb (size rows1 mod CURSOR_PAGE_SIZE) 0
         then updater' <- processBatch rows1 updater pokers ;; ret ([], updater')
         else ret (rows1, updater)) ;;
      processLoop rest rows2 updater2 pokers
  end.

Definition processChanges (changes : Stream RowChange) (updater : QueryUpdater)
    (pokers : list PokeHandler) : M QueryUpdater :=
  ' (rows, updater1) <- processLoop (fst changes) [] updater pokers ;;
  endOfStream (snd changes) ;;
  if N.ltb 0 (size rows) then processBatch rows updater1 pokers
  else ret updater1.

(** ** Flushing an updater *)

Definition flushQueryUpdater (updater : QueryUpdater) : M CVRSnapshot :=
  s <- get ;;
  let '(r, store') := flushQuery updater (cvrStore s) in
  modify (with_store store') ;;
  emit (Flush r) ;;
  liftExt r.

Definition flushConfigUpdater (updater : ConfigUpdater) : M CVRSnapshot :=
  s <- get ;;
  let '(r, store') := flushConfig updater (cvrStore s) in
  modify (with_store store') ;;
  emit (Flush r) ;;
  liftExt r.

(** [assert(this.#cvr, msg)] *)
Definition loadedCVR (msg : string) : M CVRSnapshot :=
  s <- get ;;
  match cvr s with
  | Some c => ret c
  | None => raise (AssertionError msg)
  end.

(** Calling [this.#pipelines.addQuery(hash, ast)]. *)
Definition callAddQuery (hash : string) (ast : AST) : M (Stream RowChange) :=
  s <- get ;;
  let '(changes, p) := addQuery hash ast (pipelines s) in
  modify (with_pipelines p) ;;
  emit (AddQuery hash ast) ;;
  ret changes.

Definition callRemoveQuery (hash : string) : M unit :=
  modify (fun s => with_pipelines (removeQuery hash (pipelines s)) s) ;;
  emit (RemoveQuery hash).

(** ** Catching clients up *)

(** The row patch of [#catchupClients] for one record of the scan. *)
Definition rowPatch (p : Pipelines) (row : RowPatchRecord)
  : Result PatchToVersion :=
  let id := mkRowID (rpSchema row) (rpTable row) (rpRowKey row) in
  match rpRefCounts row with
  | None => Ok (mkPatchToVersion (RowDel id) (rpPatchVersion row))
  | Some _ =>
      match getRow (rpTable row) (rpRowKey row) p with
      | Some contents =>
          Ok (mkPatchToVersion (RowPut id contents) (rpPatchVersion row))
      | None => Err (MissingRowError (rpTable row) (rpRowKey row))
      end
  end.

Definition materialize (row : RowPatchRecord) : M PatchToVersion :=
  s <- get ;;
  liftResult (rowPatch (pipelines s) row).

(** [.map(c => c.version()).reduce((a, b) => cmpVersions(a, b) < 0 ? a : b,
    cvr.version)] *)
Definition catchupFrom (cs : list (string * ClientHandler)) (c : CVRSnapshot)
  : NullableCVRVersion :=
  fold_left
    (fun a b => match cmpVersions a b with Lt => a | _ => b end)
    (map hVersion (avalues cs))
    (Some (version c)).

(** The body of [for (const row of rows)] in [#catchupClients]. *)
Definition sendRowPatch (pokers : list PokeHandler) (row : RowPatchRecord)
  : M unit :=
  p <- materialize row ;;
  addPatchAll pokers p.

Definition catchupClients (c : CVRSnapshot) (excludeQueryHashes : list string)
    (usePokers : option (list PokeHandler)) : M unit :=
  pokers <-
    (match usePokers with
     | Some ps => ret ps
     | None => startPokes (version c)
     end) ;;
  s <- get ;;
  let from := catchupFrom (clients s) c in
  let rowPatches := catchupRowPatches from c excludeQueryHashes (cvrStore s) in
  let configPatches := catchupConfigPatches from c (cvrStore s) in
  patches <- liftExt configPatches ;;
  forEach (addPatchAll pokers) patches ;;
  forEach (forEach (sendRowPatch pokers)) (fst rowPatches) ;;
  endOfStream (snd rowPatches) ;;
  match usePokers with
  | Some _ => ret tt
  | None => forEach endPoke pokers
  end.

(** ** Reconciling the pipeline with the CVR *)

Definition isDesired (q : QueryRecord) : bool :=
  internal q || Nat.ltb 0 (length (desiredBy q)).

(** The body of [for (const hash of addQueries)] in [#addAndRemoveQueries]. *)
Definition hydrate (c : CVRSnapshot) (pokers : list PokeHandler)
    (updater : QueryUpdater) (hash : string) : M QueryUpdater :=
  match alookup hash (queries c) with
  | Some q =>
      changes <- callAddQuery hash (qAst q) ;;
      processChanges changes updater pokers
  | None => raise (TypeError "ast")
  end.

Definition addAndRemoveQueries (c : CVRSnapshot)
    (addQueries removeQueries : list string) : M unit :=
  assert (Nat.ltb 0 (length addQueries) || Nat.ltb 0 (length removeQueries)) "" ;;
  s <- get ;;
  let stateVersion := currentVersion (pipelines s) in
  let updater := newQueryUpdater c stateVersion in
  let '((newVersion, queryPatches), updater) :=
    trackQueries (map (fun hash => (hash, hash)) addQueries) removeQueries updater in
  emit (TrackQueries addQueries removeQueries) ;;
  pokers <- startPokes newVersion ;;
  forEach (addPatchAll pokers) queryPatches ;;
  forEach callRemoveQuery removeQueries ;;
  updater <- foldM (hydrate c pokers) addQueries updater ;;
  s <- get ;;
  let '(r, updater) := deleteUnreferencedRows updater (cvrStore s) in
  patches <- liftExt r ;;
  forEach (addPatchAll pokers) patches ;;
  c' <- flushQueryUpdater updater ;;
  modify (with_cvr (Some c')) ;;
  catchupClients c addQueries (Some pokers) ;;
  forEach endPoke pokers.

Definition desiredClientQueries (c : CVRSnapshot) : list string :=
  filter
    (fun id =>
       match alookup id (queries c) with
       | Some q => isDesired q
       | None => false
       end)
    (akeys (queries c)).

(** [assert(this.#cvr.version.stateVersion ===
    this.#pipelines.currentVersion())] *)
Definition assertSynced : M unit :=
  s <- get ;;
  match cvr s with
  | Some c' =>
      assert (String.eqb (stateVersion (version c'))
                         (currentVersion (pipelines s))) ""
  | None => raise (TypeError "version")
  end.

Definition syncQueryPipelineSet : M unit :=
  c <- loadedCVR "service must be running" ;;
  s <- get ;;
  assert (initialized (pipelines s)) "" ;;
  let hydratedQueries := addedQueries (pipelines s) in
  let allClientQueries := akeys (queries c) in
  let addQueries := difference (desiredClientQueries c) hydratedQueries in
  let removeQueries := difference allClientQueries (desiredClientQueries c) in
  (if Nat.ltb 0 (length addQueries) || Nat.ltb 0 (length removeQueries)
   then addAndRemoveQueries c addQueries removeQueries
   else catchupClients c [] None) ;;
  assertSynced.

(** ** Hydrating unchanged queries *)

(** The body of [for (const [hash, query] of gotQueries)]. *)
Definition rehydrate (e : string * QueryRecord) : M unit :=
  let '(hash, query) := e in
  if negb (internal query) && Nat.eqb (length (desiredBy query)) 0
  then ret tt                                   (* No longer desired. *)
  else
    match transformationHash query with
    | Some t =>
        if negb (String.eqb hash t) then ret tt (* results may have changed *)
        else
          changes <- callAddQuery hash (qAst query) ;;
          endOfStream (snd changes)
    | None => ret tt
    end.

Definition isGot (e : string * QueryRecord) : bool :=
  match transformationHash (snd e) with
  | Some _ => true
  | None => false
  end.

Definition hydrateUnchangedQueries : M unit :=
  c <- loadedCVR "service must be running" ;;
  s <- get ;;
  assert (initialized (pipelines s)) "" ;;
  let dbVersion := currentVersion (pipelines s) in
  if negb (String.eqb (stateVersion (version c)) dbVersion) then ret tt
  else forEach rehydrate (filter isGot (queries c)).

(** ** Applying a desired-queries patch *)

Definition applyPatch (clientID : string)
    (acc : ConfigUpdater * list (string * AST)) (p : QueriesPatchOp)
  : ConfigUpdater * list (string * AST) :=
  let '(updater, added) := acc in
  match p with
  | OpPut hash ast =>
      let '(a, updater') := putDesiredQueries clientID [(hash, ast)] updater in
      (updater', added ++ a)
  | OpDel hash => (deleteDesiredQueries clientID [hash] updater, added)
  | OpClear => (clearDesiredQueries clientID updater, added)
  end.

Definition patchQueries (clientID : string)
    (desiredQueriesPatch : list QueriesPatchOp) : M unit :=
  c <- loadedCVR "CVR must be loaded before patching queries" ;;
  (if Nat.ltb 0 (length desiredQueriesPatch) then
     let '(updater, _) :=
       fold_left (applyPatch clientID) desiredQueriesPatch
                 (newConfigUpdater c, []) in
     c' <- flushConfigUpdater updater ;;
     modify (with_cvr (Some c'))
   else ret tt) ;;
  s <- get ;;
  if initialized (pipelines s) then syncQueryPipelineSet else ret tt.

(** ** Advancing the pipelines *)

Definition advancePipelines : M unit :=
  c <- loadedCVR "service must be running" ;;
  s <- get ;;
  assert (initialized (pipelines s)) "" ;;
  let '(r, p) := advance (pipelines s) in
  modify (with_pipelines p) ;;
  ' (version, _, changes) <- liftExt r ;;
  let updater := newQueryUpdater c version in
  pokers <- startPokes (updatedVersion updater) ;;
  updater <- processChanges changes updater pokers ;;
  c' <- flushQueryUpdater updater ;;
  modify (with_cvr (Some c')) ;;
  forEach endPoke pokers.

(** ** Client messages *)

(** [#runInLockForClient]; the local [client] of the source is the handler
    that [fail] is called on when [fn] raises. *)
Definition runInLockForClient {B} (ctx : SyncContext) (cmd : string) (body : B)
    (fn : string -> B -> M unit) (newClient : option ClientHandler) : M unit :=
  s <- get ;;
  (match newClient with
   | Some nc =>
       assert (String.eqb (hWsID nc) (wsID ctx)) "" ;;
       (match alookup (clientID ctx) (clients s) with
        | Some old => emit (Closed (hid old))
        | None => ret tt
        end) ;;
       modify (fun s => with_clients (aset (clientID ctx) nc (clients s)) s) ;;
       catch (fn (clientID ctx) body)
             (fun e => emit (Failed (hid nc) e) ;; raise e)
   | None =>
       match alookup (clientID ctx) (clients s) with
       | Some client =>
           if negb (String.eqb (hWsID client) (wsID ctx))
           then emit (Dropped cmd)
           else catch (fn (clientID ctx) body)
                      (fun e => emit (Failed (hid client) e) ;; raise e)
       | None => emit (Dropped cmd)
       end
   end) ;;
  modify (with_idleToken None).

Definition initConnection (ctx : SyncContext)
    (desiredQueriesPatch : list QueriesPatchOp) : M ClientHandler :=
  s <- get ;;
  let newClient :=
    mkHandler (nextObject s) (clientID ctx) (wsID ctx) (baseCookie ctx) in
  modify (with_nextObject (S (nextObject s))) ;;
  runInLockForClient ctx "initConnection" desiredQueriesPatch patchQueries
                     (Some newClient) ;;
  ret newClient.

Definition changeDesiredQueries (ctx : SyncContext)
    (desiredQueriesPatch : list QueriesPatchOp) : M unit :=
  runInLockForClient ctx "changeDesiredQueries" desiredQueriesPatch patchQueries
                     None.

(** ** The run loop *)

(** [this.#cvr = await this.#cvrStore.load()] *)
Definition start : M unit :=
  s <- get ;;
  let '(r, store') := load (cvrStore s) in
  modify (with_store store') ;;
  c <- liftExt r ;;
  modify (with_cvr (Some c)).

(** The body of [for await (const _ of this.#versionChanges)]. *)
Definition onVersionReady : M unit :=
  s <- get ;;
  if negb (initialized (pipelines s)) then
    modify (fun s => with_pipelines (init (pipelines s)) s) ;;
    hydrateUnchangedQueries ;;
    syncQueryPipelineSet
  else advancePipelines.

(** What the service is asked to do, one lock holder at a time. *)
Inductive Op :=
| InitConnection (ctx : SyncContext) (patch : list QueriesPatchOp)
| ChangeDesiredQueries (ctx : SyncContext) (patch : list QueriesPatchOp)
| VersionReady
| DeleteClient (clientID : string) (client : ClientHandler)
| Keepalive
| IdleTimeout (token : nat).

Definition step (op : Op) : M unit :=
  match op with
  | InitConnection ctx patch => initConnection ctx patch ;; ret tt
  | ChangeDesiredQueries ctx patch => changeDesiredQueries ctx patch
  | VersionReady => onVersionReady
  | DeleteClient clientID client => deleteClient clientID client
  | Keepalive => keepalive ;; ret tt
  | IdleTimeout token => idleTimeout token
  end.

(** A run of operations, up to the first that raises. *)
Definition runOps (ops : list Op) : M unit := forEach step ops.

(** ** Vocabulary of the properties *)

(** Calls that neither start nor end a poke nor flush an updater. *)
Definition isQuiet (ev : Event) : bool :=
  match ev with
  | StartPoke _ _ | PokeEnd _ | Flush _ => false
  | _ => true
  end.

(** The snapshot returned by the last successful flush among [evs], or [c]
    when there is none. *)
Fixpoint lastFlushed (evs : list Event) (c : option CVRSnapshot)
  : option CVRSnapshot :=
  match evs with
  | [] => c
  | Flush (inr c') :: evs' => lastFlushed evs' (Some c')
  | _ :: evs' => lastFlushed evs' c
  end.

(** The versions passed to [startPoke] of the handler [h], in order. *)
Definition pokeVersions (h : nat) (evs : list Event) : list CVRVersion :=
  flat_map
    (fun ev =>
       match ev with
       | StartPoke h' v => if Nat.eqb h h' then [v] else []
       | _ => []
       end)
    evs.

(** The versions passed to [startPoke] of any handler, in order. *)
Definition pokedVersions (evs : list Event) : list CVRVersion :=
  flat_map
    (fun ev =>
       match ev with
       | StartPoke _ v => [v]
       | _ => []
       end)
    evs.

(** [addPatch(p)] on every poker. *)
Definition broadcast (pokers : list PokeHandler) (p : PatchToVersion)
  : list Event :=
  map (fun poker => AddPatch (pkHandler poker) p) pokers.

(** A got query that is still desired and whose transformation hash is
    its own hash. *)
Definition unchanged (e : string * QueryRecord) : bool :=
  isDesired (snd e)
  && match transformationHash (snd e) with
     | Some t => String.eqb (fst e) t
     | None => false
     end.

Definition rehydrations (qs : list (string * QueryRecord)) : list Event :=
  map (fun e => AddQuery (fst e) (qAst (snd e))) (filter unchanged qs).

Definition noFlush (ev : Event) : bool :=
  match ev with Flush _ => false | _ => true end.

Definition noFlushNoEnd (ev : Event) : bool :=
  match ev with Flush _ | PokeEnd _ => false | _ => true end.

(** A computation that leaves the CVR pointer alone and makes only calls
    accepted by [P]. *)
Definition keeps (P : Event -> bool) {A} (m : M A) : Prop :=
  forall s, wp m s (fun _ s' e => cvr s' = cvr s /\ forallb P e = true).

Definition silent (ev : Event) : bool := false.

(** The discipline of the CVR pointer, for a computation started with the
    pointer at [c0]: the pointer is the snapshot returned by the last
    successful flush, or [c0]; a failed flush is the last call made, it is
    the exception raised, the pointer is as it was before that flush, and
    no poke has been ended. *)
Definition pointerDiscipline {A} (single : bool) (c0 : option CVRSnapshot)
    (r : Result A) (s' : ViewSyncerService) (e : list Event) : Prop :=
  cvr s' = lastFlushed e c0 /\
  forall err, In (Flush (inl err)) e ->
    exists pre,
      e = pre ++ [Flush (inl err)] /\
      r = Err (External err) /\
      cvr s' = lastFlushed pre c0 /\
      (single = true -> cvr s' = c0) /\
      forall h, ~ In (PokeEnd h) e.

(** The row patches of a scan up to the first missing row, and the error
    that row raises. *)
Fixpoint materialized (p : Pipelines) (rows : list RowPatchRecord)
  : list PatchToVersion * option Error :=
  match rows with
  | [] => ([], None)
  | row :: rest =>
      match rowPatch p row with
      | Ok x => let '(xs, e) := materialized p rest in (x :: xs, e)
      | Err e => ([], Some e)
      end
  end.

Definition outcome (e : option Error) : Result unit :=
  match e with
  | Some x => Err x
  | None => Ok tt
  end.

(** [x] is the patch sent for the scanned record [r]: a delete for a
    tombstone, else a put of the row the pipeline holds. *)
Definition isPatchOf (p : Pipelines) (r : RowPatchRecord) (x : PatchToVersion)
  : Prop :=
  let id := mkRowID (rpSchema r) (rpTable r) (rpRowKey r) in
  match rpRefCounts r with
  | None => x = mkPatchToVersion (RowDel id) (rpPatchVersion r)
  | Some _ =>
      exists contents,
        getRow (rpTable r) (rpRowKey r) p = Some contents /\
        x = mkPatchToVersion (RowPut id contents) (rpPatchVersion r)
  end.

(** The record [r] is referenced and the pipeline has no row for it. *)
Definition isMissing (p : Pipelines) (r : RowPatchRecord) : Prop :=
  rpRefCounts r <> None /\ getRow (rpTable r) (rpRowKey r) p = None.

(** Calls on client handlers and pokers. *)
Definition isPoke (ev : Event) : bool :=
  match ev with
  | StartPoke _ _ | AddPatch _ _ | PokeEnd _ => true
  | _ => false
  end.

(** The queries of the CVR that some client desires or that are internal. *)
Definition desiredIn (c : CVRSnapshot) (q : string) : Prop :=
  exists r, alookup q (queries c) = Some r /\ isDesired r = true.

(** The key of the row map for a change. *)
Definition changeID (ch : RowChange) : RowID :=
  mkRowID "" (rcTable ch) (rcRowKey ch).

Definition changeKey (ch : RowChange) : string := rowIDHash (changeID ch).

(** [+1] for a change with a row, [-1] for one without. *)
Definition delta (ch : RowChange) : Z :=
  match rcRow ch with
  | Some _ => 1%Z
  | None => (-1)%Z
  end.

Definition concerns (k q : string) (ch : RowChange) : bool :=
  String.eqb (changeKey ch) k && String.eqb (queryHash ch) q.

(** The ref count of the query [q] for the row [k] after the changes
    [seg]: absent when no change is about them, else the sum of the
    changes' deltas.  For a hash that names a function of
    [Object.prototype] it is not a number but the text of the deltas, and
    for [__proto__] it is absent. *)
Definition netCount (k q : string) (seg : list RowChange) : option RefCount :=
  let deltas := map delta (filter (concerns k q) seg) in
  if String.eqb q PROTO then None
  else if existsb (concerns k q) seg
  then Some (if mem q OBJECT_PROTOTYPE_FUNCTIONS then Text q deltas
             else Count (fold_right Z.add 0%Z deltas))
  else None.

(** The first non-null row among the changes of the row [k]. *)
Fixpoint firstRow (k : string) (seg : list RowChange) : option Row :=
  match seg with
  | [] => None
  | ch :: rest =>
      if String.eqb (changeKey ch) k then
        match rcRow ch with
        | Some r => Some r
        | None => firstRow k rest
        end
      else firstRow k rest
  end.

(** The identifier of the first change of the row [k]. *)
Fixpoint firstID (k : string) (seg : list RowChange) : option RowID :=
  match seg with
  | [] => None
  | ch :: rest =>
      if String.eqb (changeKey ch) k then Some (changeID ch)
      else firstID k rest
  end.

(** The [_0_version] of a row when it is a string of length at least 1. *)
Definition rowVersion (row : Row) : option string :=
  match alookup ZERO_VERSION_COLUMN_NAME row with
  | Some (JStr v) => if Nat.eqb (String.length v) 0 then None else Some v
  | _ => None
  end.

(** What the row map holds for the row [k] after the changes [seg]. *)
Definition stagedEntry (k : string) (seg : list RowChange)
    (entry : option (RowID * RowUpdate)) : Prop :=
  match entry with
  | None => firstID k seg = None
  | Some (id, u) =>
      firstID k seg = Some id /\
      (forall q, alookup q (refCounts u) = netCount k q seg) /\
      match firstRow k seg with
      | Some row =>
          ruVersion u = rowVersion row /\ rowVersion row <> None /\
          ruContents u = Some (adelete ZERO_VERSION_COLUMN_NAME row)
      | None => ruVersion u = None /\ ruContents u = None
      end
  end.

(** [rows] is the row map staged from the changes [seg] of one batch. *)
Definition stagedFrom (seg : list RowChange) (rows : RowMap) : Prop :=
  NoDup (akeys rows) /\ forall k, stagedEntry k seg (alookup k rows).

(** The change [ch], coming after [seg] in its batch, carries the first
    row seen for its key, and that row has no valid version. *)
Definition firstSeenInvalid (seg : list RowChange) (ch : RowChange) (row : Row)
  : Prop :=
  rcRow ch = Some row /\ firstRow (changeKey ch) seg = None /\
  rowVersion row = None.

(** One batch handed to the updater: the changes it was staged from, the
    row map, and the updater's answer. *)
Definition Page : Type :=
  (list RowChange * RowMap * Ext (list PatchToVersion))%type.

Definition pageChanges (pg : Page) : list RowChange := fst (fst pg).
Definition pageRows (pg : Page) : RowMap := snd (fst pg).
Definition pageAnswer (pg : Page) : Ext (list PatchToVersion) := snd pg.

(** The calls of [processBatch]: [received], then every patch on every
    poker. *)
Definition pageCalls (pokers : list PokeHandler) (pg : Page) : list Event :=
  Received (pageRows pg) (pageAnswer pg)
  :: match pageAnswer pg with
     | inr patches => flat_map (broadcast pokers) patches
     | inl _ => []
     end.

Definition answered (pg : Page) : Prop :=
  exists patches, pageAnswer pg = inr patches.

Definition fullPage (pg : Page) : Prop :=
  stagedFrom (pageChanges pg) (pageRows pg) /\
  size (pageRows pg) = CURSOR_PAGE_SIZE.

(** The config updaters that [#patchQueries] builds from the snapshot [c]. *)
Inductive configuredFrom (c : CVRSnapshot) : ConfigUpdater -> Prop :=
| from_new : configuredFrom c (newConfigUpdater c)
| from_put clientID qs u :
    configuredFrom c u ->
    configuredFrom c (snd (putDesiredQueries clientID qs u))
| from_delete clientID hashes u :
    configuredFrom c u ->
    configuredFrom c (deleteDesiredQueries clientID hashes u)
| from_clear clientID u :
    configuredFrom c u -> configuredFrom c (clearDesiredQueries clientID u).

(** What the service relies on from the updaters of cvr.ts: an updater
    never stages a version below the snapshot it was created from, its
    version never goes back, [trackQueries] returns the version it moves
    to, and a flush returns a snapshot at the staged version or later. *)
Class VersionedUpdaters : Prop := {
  newQueryUpdater_version : forall c v,
    version_le (version c) (updatedVersion (newQueryUpdater c v));
  trackQueries_version : forall add remove u,
    version_le (updatedVersion u) (fst (fst (trackQueries add remove u))) /\
    version_le (fst (fst (trackQueries add remove u)))
               (updatedVersion (snd (trackQueries add remove u)));
  received_version : forall rows u st patches,
    fst (received rows u st) = inr patches ->
    version_le (updatedVersion u) (updatedVersion (snd (received rows u st)));
  deleteUnreferencedRows_version : forall u st patches,
    fst (deleteUnreferencedRows u st) = inr patches ->
    version_le (updatedVersion u)
               (updatedVersion (snd (deleteUnreferencedRows u st)));
  flushQuery_version : forall u st c',
    fst (flushQuery u st) = inr c' ->
    version_le (updatedVersion u) (version c');
  flushConfig_version : forall c u st c',
    configuredFrom c u ->
    fst (flushConfig u st) = inr c' ->
    version_le (version c) (version c')
}.

(** Strictly increasing versions. *)
Definition strictlyIncreasing (vs : list CVRVersion) : Prop :=
  StronglySorted (fun a b => version_lt (Some a) (Some b)) vs.

Definition noStart (ev : Event) : bool :=
  match ev with
  | StartPoke _ _ => false
  | _ => true
  end.

(** The pokes [vs] of a computation that moved the CVR pointer from [c0]
    to [c1]: the pointer did not go back, every poke carries a version
    between the two, and the pokes are in non-decreasing order. *)
Definition within (c0 c1 : option CVRSnapshot) (vs : list CVRVersion) : Prop :=
  (forall c, c0 = Some c ->
             exists c', c1 = Some c' /\ version_le (version c) (version c')) /\
  (forall v, In v vs ->
             (forall c, c0 = Some c -> version_le (version c) v) /\
             exists c', c1 = Some c' /\ version_le v (version c')) /\
  StronglySorted version_le vs.

(** A computation started with the pointer at [c0] that, when it returns,
    has poked within [c0] and the pointer it leaves. *)
Definition round {A} (c0 : option CVRSnapshot)
    (r : Result A) (s' : ViewSyncerService) (e : list Event) : Prop :=
  forall a, r = Ok a -> within c0 (cvr s') (pokedVersions e).

Definition advanced (u : QueryUpdater)
    (r : Result QueryUpdater) (s' : ViewSyncerService) (e : list Event) : Prop :=
  forall u', r = Ok u' -> version_le (updatedVersion u) (updatedVersion u').

(** The calls of one poke round stamped [v]: every [startPoke] is given
    [v], and when the round completes the pointer is at [v] or later. *)
Definition stamped {A} (v : CVRVersion)
    (r : Result A) (s' : ViewSyncerService) (e : list Event) : Prop :=
  forall a, r = Ok a ->
    (forall x, In x (pokedVersions e) -> x = v) /\
    exists c', cvr s' = Some c' /\ version_le v (version c').

(** ** What the methods touch, call and raise *)

(** A computation that relates the fields before and after by [R], whose
    calls are accepted by [T] and whose exceptions are accepted by [P]. *)
Definition behaves (R : ViewSyncerService -> ViewSyncerService -> Prop)
    (T : list Event -> Prop) (P : Error -> Prop) {A} (m : M A) : Prop :=
  forall s, wp m s (fun r s' e => R s s' /\ T e /\ forall x, r = Err x -> P x).

(** [R] is kept along a sequence of computations, and so is [T]. *)
Class Lawful (R : ViewSyncerService -> ViewSyncerService -> Prop)
    (T : list Event -> Prop) : Prop := {
  R_refl : forall s, R s s;
  R_trans : forall a b c, R a b -> R b c -> R a c;
  T_nil : T [];
  T_app : forall a b, T a -> T b -> T (a ++ b)
}.

Definition anyCalls (e : list Event) : Prop := True.

(** Calls on the pipelines, the updaters and the pokers: what the service
    does under its lock for a patch or a version change. *)
Definition isWork (ev : Event) : bool :=
  match ev with
  | Closed _ | Failed _ _ | Dropped _ | IdleTimerArmed _ => false
  | _ => true
  end.

Definition workCalls (e : list Event) : Prop := forallb isWork e = true.

Definition anyError (x : Error) : Prop := True.

Definition anyFields (s s' : ViewSyncerService) : Prop := True.

(** The connections of the service: in the order of [#clients], each client
    ID with the identity of its handler and the client and websocket IDs
    the handler was created with. *)
Definition connections (s : ViewSyncerService)
  : list (string * (nat * string * string)) :=
  map (fun kc => (fst kc, (hid (snd kc), hClientID (snd kc), hWsID (snd kc))))
      (clients s).

(** The fields that only connecting, disconnecting and the timers touch. *)
Definition sameService (s s' : ViewSyncerService) : Prop :=
  connections s' = connections s /\
  idleToken s' = idleToken s /\
  versionChangesActive s' = versionChangesActive s /\
  nextObject s' = nextObject s.

(** The connections, the version subscription and the allocator are as
    they were; the idle timer may have been cleared. *)
Definition sameConnections (s s' : ViewSyncerService) : Prop :=
  connections s' = connections s /\
  versionChangesActive s' = versionChangesActive s /\
  nextObject s' = nextObject s.

(** The timer callback of [op] finds its own token in [#idleToken]. *)
Definition fires (op : Op) (s : ViewSyncerService) : bool :=
  match op, idleToken s with
  | IdleTimeout token, Some t => Nat.eqb t token
  | _, _ => false
  end.

(** The version subscription is as it was. *)
Definition sameSubscription (s s' : ViewSyncerService) : Prop :=
  versionChangesActive s' = versionChangesActive s.

(** A cancelled version subscription has not become active again. *)
Definition notResumed (s s' : ViewSyncerService) : Prop :=
  versionChangesActive s = false -> versionChangesActive s' = false.

(** Every handler is registered under its own client ID, no client ID and
    no handler is registered twice, and the identities in use (of the
    handlers and of the idle token) are ones the allocator has handed
    out. *)
Definition wellRegistered (s : ViewSyncerService) : Prop :=
  NoDup (akeys (clients s)) /\
  NoDup (map hid (avalues (clients s))) /\
  (forall k h, In (k, h) (clients s) -> hClientID h = k /\ hid h < nextObject s) /\
  (forall t, idleToken s = Some t -> t < nextObject s).

Definition registrationKept (s s' : ViewSyncerService) : Prop :=
  wellRegistered s -> wellRegistered s'.

(** ** The shape of a poke *)

(** The calls on client handlers' pokes among [e], in order. *)
Definition pokeCalls (e : list Event) : list Event := filter isPoke e.

(** The identities of the registered handlers, in the order of
    [#clients.values()]. *)
Definition handlers (s : ViewSyncerService) : list nat :=
  map hid (avalues (clients s)).

(** One poke of the handlers [hs]: [startPoke(v)] on each, then each patch
    of [ps] added to each, then, when [ended], [end()] on each. *)
Definition pokeRound (hs : list nat) (v : CVRVersion)
    (ps : list PatchToVersion) (ended : bool) : list Event :=
  map (fun h => StartPoke h v) hs
  ++ flat_map (fun p => map (fun h => AddPatch h p) hs) ps
  ++ (if ended then map PokeEnd hs else []).

(** The calls [e] poke nobody, or they are one poke of [hs], which is ended
    when the computation returns. *)
Definition atMostOnePoke {A} (hs : list nat) (r : Result A) (e : list Event)
  : Prop :=
  pokeCalls e = [] \/
  exists v ps ended,
    pokeCalls e = pokeRound hs v ps ended /\
    (forall a, r = Ok a -> ended = true).

(** Calls that only add patches, each to every poker of [pokers]. *)
Definition patchesTo (pokers : list PokeHandler) (e : list Event) : Prop :=
  exists ps, pokeCalls e = flat_map (broadcast pokers) ps.

Definition noPokes (e : list Event) : Prop := pokeCalls e = [].

(** A computation that adds patches to every poker of [pokers] and then
    ends them all, or raises before it ends any. *)
Definition endsPoke (pokers : list PokeHandler) {A} (m : M A) : Prop :=
  forall s,
    wp m s (fun r _ e =>
      exists (mid : list Event) (ended : bool),
        patchesTo pokers mid /\
        e = mid ++ (if ended
                    then map (fun p => PokeEnd (pkHandler p)) pokers
                    else []) /\
        (forall a, r = Ok a -> ended = true)).

(** The handlers that [op] pokes: the registered ones, with the new one in
    its place when [op] connects a client. *)
Definition pokedBy (op : Op) (s : ViewSyncerService) : list nat :=
  match op with
  | InitConnection ctx _ =>
      handlers
        (with_clients
           (aset (clientID ctx)
                 (mkHandler (nextObject s) (clientID ctx) (wsID ctx)
                            (baseCookie ctx))
                 (clients s)) s)
  | _ => handlers s
  end.

(** ** What is raised *)

(** The CVR pointer, once set, stays set. *)
Definition staysLoaded (s s' : ViewSyncerService) : Prop :=
  cvr s <> None -> cvr s' <> None.

(** The exceptions the service raises itself or passes on; a [TypeError]
    would be a property read of [undefined]. *)
Definition expected (e : Error) : Prop :=
  match e with
  | TypeError _ => False
  | _ => True
  end.

(** The exceptions of a failed assertion, an invalid row version, the
    store or the pipelines. *)
Definition fromAdvance (e : Error) : Prop :=
  match e with
  | AssertionError _ | InvalidVersionError _ | External _ => True
  | _ => False
  end.

(** ** The life of the service *)

(** [this.#pipelines.destroy()] *)
Class PipelineTeardown := {
  destroy : Pipelines -> Pipelines
}.

Section Lifecycle.
Context {TD : PipelineTeardown}.

(** [#cleanup(err?)]; every exception of this embedding is a truthy
    value. *)
Definition cleanup (err : option Error) : M unit :=
  modify (fun s => with_pipelines (destroy (pipelines s)) s) ;;
  s <- get ;;
  forEach
    (fun c =>
       match err with
       | Some e => emit (Failed (hid c) e)
       | None => emit (Closed (hid c))
       end)
    (avalues (clients s)).

(** [stop()]: [this.#versionChanges.cancel()] *)
Definition stop : M unit := modify (with_active false).

(** What takes the lock while [run()] is in its loop. *)
Inductive Input :=
| Do (op : Op)
| Stop.

(** One holder of the lock: the loop's own turn for a version change, whose
    exception is the loop's; [stop()]; or another caller's operation,
    whose exception is that caller's. *)
Definition turn (i : Input) : M unit :=
  match i with
  | Do VersionReady => onVersionReady
  | Do op => catch (step op) (fun _ => ret tt)
  | Stop => stop
  end.

(** The [for await] loop of [run()] and what goes on beside it, until the
    version subscription is cancelled. *)
Fixpoint serve (inputs : list Input) : M unit :=
  match inputs with
  | [] => ret tt
  | i :: rest =>
      s <- get ;;
      if versionChangesActive s then turn i ;; serve rest else ret tt
  end.

(** [run()] *)
Definition run (inputs : list Input) : M unit :=
  catch (start ;; serve inputs ;; cleanup None)
        (fun e => cleanup (Some e)).

(** The calls of [#cleanup] on the handlers [hs]. *)
Definition releases (err : option Error) (hs : list nat) : list Event :=
  map (fun h => match err with
                | Some e => Failed h e
                | None => Closed h
                end) hs.

End Lifecycle.

(** ** The versions of ended pokes *)

(** The version of the poke of the handler [h] that is started and not
    ended after the calls [evs], [open] being the one before them. *)
Fixpoint openAfter (h : nat) (open : option CVRVersion) (evs : list Event)
  : option CVRVersion :=
  match evs with
  | [] => open
  | StartPoke h' v :: evs' =>
      openAfter h (if Nat.eqb h h' then Some v else open) evs'
  | PokeEnd h' :: evs' =>
      openAfter h (if Nat.eqb h h' then None else open) evs'
  | _ :: evs' => openAfter h open evs'
  end.

(** The versions that the pokes of the handler [h] are ended with, in
    order: every [end()] on a poke of [h] gives the version that the poke
    was started with. *)
Fixpoint endedFrom (h : nat) (open : option CVRVersion) (evs : list Event)
  : list CVRVersion :=
  match evs with
  | [] => []
  | StartPoke h' v :: evs' =>
      endedFrom h (if Nat.eqb h h' then Some v else open) evs'
  | PokeEnd h' :: evs' =>
      if Nat.eqb h h'
      then match open with
           | Some v => v :: endedFrom h None evs'
           | None => endedFrom h None evs'
           end
      else endedFrom h open evs'
  | _ :: evs' => endedFrom h open evs'
  end.

Definition endedVersions (h : nat) (evs : list Event) : list CVRVersion :=
  endedFrom h None evs.

(** What the spec says of the versions that the query-driven updater of
    cvr.ts moves to: the version that [trackQueries] returns has the minor
    version "bumped from the previous CVR", and an updater created at a
    state version newer than the snapshot's is at a newer version. *)
Class BumpingUpdaters : Prop := {
  trackQueries_bumps : forall c v add remove,
    version_lt (Some (version c))
               (Some (fst (fst (trackQueries add remove (newQueryUpdater c v)))));
  newQueryUpdater_newer : forall c v,
    String.compare (stateVersion (version c)) v = Lt ->
    version_lt (Some (version c)) (Some (updatedVersion (newQueryUpdater c v)))
}.

(** The CVR pointer did not go back from [c0] to [c1]. *)
Definition pointerAdvanced (c0 c1 : option CVRSnapshot) : Prop :=
  forall c, c0 = Some c ->
            exists c', c1 = Some c' /\ version_le (version c) (version c').

(** Calls that neither start nor end a poke nor track queries. *)
Definition calm (ev : Event) : bool :=
  match ev with
  | StartPoke _ _ | PokeEnd _ | TrackQueries _ _ => false
  | _ => true
  end.

(** [updater.trackQueries] is among the calls: they are those of
    [#addAndRemoveQueries]. *)
Definition tracked (e : list Event) : Prop :=
  exists add remove, In (TrackQueries add remove) e.

Definition noTrack (e : list Event) : Prop :=
  forall add remove, ~ In (TrackQueries add remove) e.

(** Calls that can come before the flush of a poke at the version [v]:
    the pokes started carry [v], and none is ended. *)
Definition leads (v : CVRVersion) (e : list Event) : Prop :=
  (forall h x, In (StartPoke h x) e -> x = v) /\
  (forall h, ~ In (PokeEnd h) e).

(** The calls [e] of a poke at the version [v], begun with the pointer at
    [c] and however it went: every poke started carries [v]; the pointer
    is still at [c] and no poke is ended, or the pointer is at a snapshot of
    the version [v] or later. *)
Definition roundAt (c : CVRSnapshot) (v : CVRVersion)
    (s' : ViewSyncerService) (e : list Event) : Prop :=
  (forall h x, In (StartPoke h x) e -> x = v) /\
  ((cvr s' = Some c /\ forall h, ~ In (PokeEnd h) e) \/
   exists c', cvr s' = Some c' /\ version_le v (version c')).

(** The calls [e] of a computation begun with the pointer at [c0], whether
    it returns or raises: the pointer did not go back; a poke started
    carries the version of [c0] or a later one, a strictly later one when
    queries were tracked; and when a poke is ended, the pointer is at the
    version of the pokes or later. *)
Definition paced (c0 : option CVRSnapshot)
    (s' : ViewSyncerService) (e : list Event) : Prop :=
  pointerAdvanced c0 (cvr s') /\
  forall h v, In (StartPoke h v) e ->
    (forall c, c0 = Some c ->
       version_le (version c) v /\
       (tracked e -> version_lt (Some (version c)) (Some v))) /\
    ((exists h', In (PokeEnd h') e) ->
     exists c', cvr s' = Some c' /\ version_le v (version c')).

(** The version that [#advancePipelines] pokes with. *)
Definition advanceVersion (c : CVRSnapshot) (s : ViewSyncerService)
  : CVRVersion :=
  match fst (advance (pipelines s)) with
  | inr (v, _, _) => updatedVersion (newQueryUpdater c v)
  | inl _ => version c
  end.
(** What one holder of the lock adds to the ended pokes of [h]. *)
Definition endsWithin (h : nat) (open : option CVRVersion)
    (s : ViewSyncerService) (x : Result unit * ViewSyncerService * list Event)
  : Prop :=
  pointerAdvanced (cvr s) (cvr (fields x)) /\
  (endedFrom h open (calls x) = [] \/
   exists v,
     endedFrom h open (calls x) = [v] /\
     (forall c, cvr s = Some c -> version_le (version c) v) /\
     exists c', cvr (fields x) = Some c' /\ version_le v (version c')).

(** The versions of the snapshots that the flushes among [evs] returned. *)
Definition flushedVersions (evs : list Event) : list CVRVersion :=
  flat_map
    (fun ev =>
       match ev with
       | Flush (inr c) => [version c]
       | _ => []
       end)
    evs.

End Service.

(** ** A concrete client group

    An instance of the collaborators on which the service can be run: an
    in-memory replica of two tables, and a CVR store that keeps the last
    flushed snapshot.  It follows the fixture of view-syncer.test.ts. *)

Module Scenario.

Definition bumpMinor (v : CVRVersion) : CVRVersion :=
  mkVersion (stateVersion v) (minorVersion v + 1).

Definition with_version (v : CVRVersion) (c : CVRSnapshot) : CVRSnapshot :=
  mkCVR (cvrID c) v (cvrClients c) (queries c).

Definition with_queries (q : list (string * QueryRecord)) (c : CVRSnapshot)
  : CVRSnapshot :=
  mkCVR (cvrID c) (version c) (cvrClients c) q.

Definition with_cvrClients (cl : list (string * ClientRecord)) (c : CVRSnapshot)
  : CVRSnapshot :=
  mkCVR (cvrID c) (version c) cl (queries c).

(** The first change made through an updater moves the CVR to a new
    version; later ones keep it. *)
Definition ensureNewVersion (orig work : CVRSnapshot) : CVRSnapshot :=
  if version_eqb (version orig) (version work)
  then with_version (bumpMinor (version work)) work
  else work.

(** *** The replica and its pipelines *)

Record Replica := mkReplica {
  rInitialized : bool;
  rVersion : string;
  rPending : list (string * list RowChange);       (* deltas not yet applied *)
  rAdded : list string;
  rTables : list (string * (list string * list Row))   (* columns and rows *)
}.

Definition keyOf (r : Row) : RowKey :=
  filter (fun kv => String.eqb (fst kv) "id") r.

Definition json_eqb (a b : JSONValue) : bool :=
  match a, b with
  | JNull, JNull => true
  | JBool x, JBool y => Bool.eqb x y
  | JNum x, JNum y => Z.eqb x y
  | JStr x, JStr y => String.eqb x y
  | _, _ => false
  end.

Fixpoint key_eqb (a b : RowKey) : bool :=
  match a, b with
  | [], [] => true
  | (k, v) :: a', (k', v') :: b' =>
      String.eqb k k' && json_eqb v v' && key_eqb a' b'
  | _, _ => false
  end.

Definition selected (ast : AST) (r : Row) : Row :=
  filter (fun kv => mem (fst kv) (astSelect ast)
                    || String.eqb (fst kv) ZERO_VERSION_COLUMN_NAME) r.

Definition replicaAddQuery (hash : string) (ast : AST) (p : Replica)
  : Stream RowChange * Replica :=
  match alookup (astTable ast) (rTables p) with
  | Some (columns, rows) =>
      if forallb (fun c => mem c columns) (astSelect ast) then
        ((map (fun r => mkRowChange hash (astTable ast) (keyOf r)
                          (Some (selected ast r))) rows, None),
         mkReplica (rInitialized p) (rVersion p) (rPending p)
                   (rAdded p ++ [hash]) (rTables p))
      else (([], Some "BadQuery"), p)
  | None => (([], Some "BadQuery"), p)
  end.

Definition replicaAdvance (p : Replica)
  : Ext (string * nat * Stream RowChange) * Replica :=
  match rPending p with
  | [] => (inl "no newer version", p)
  | (v, changes) :: rest =>
      (inr (v, length changes, (changes, None)),
       mkReplica (rInitialized p) v rest (rAdded p) (rTables p))
  end.

Definition replicaGetRow (tbl : string) (key : RowKey) (p : Replica)
  : option Row :=
  match alookup tbl (rTables p) with
  | Some (_, rows) => find (fun r => key_eqb (keyOf r) key) rows
  | None => None
  end.

#[export] Instance replica : PipelineDriver := {|
  Pipelines := Replica;
  initialized := rInitialized;
  init := fun p => mkReplica true (rVersion p) (rPending p) (rAdded p) (rTables p);
  currentVersion := rVersion;
  addedQueries := rAdded;
  addQuery := replicaAddQuery;
  removeQuery := fun hash p =>
    mkReplica (rInitialized p) (rVersion p) (rPending p)
              (filter (fun h => negb (String.eqb h hash)) (rAdded p)) (rTables p);
  advance := replicaAdvance;
  getRow := replicaGetRow
|}.

(** *** The CVR store and its updaters *)

Record Durable := mkDurable {
  dCVR : CVRSnapshot;                       (* the last flushed snapshot *)
  dConfigPatches : list PatchToVersion;
  dRowPatches : list RowPatchRecord;
  dUnavailable : bool                       (* the database is unreachable *)
}.

Definition newerThan (from : NullableCVRVersion) (v : CVRVersion) : bool :=
  match cmpVersions from (Some v) with
  | Lt => true
  | _ => false
  end.

Record Staged := mkStaged {
  orig : CVRSnapshot;
  work : CVRSnapshot
}.

Definition desire (clientID : string) (v : CVRVersion) (hash : string)
    (ast : AST) (qs : list (string * QueryRecord))
  : list (string * QueryRecord) :=
  match alookup hash qs with
  | Some q =>
      aset hash
        (mkQuery (qid q) (qAst q) (aset clientID v (desiredBy q)) (internal q)
                 (transformationHash q) (transformationVersion q)
                 (qPatchVersion q)) qs
  | None =>
      aset hash (mkQuery hash ast [(clientID, v)] false None None None) qs
  end.

Definition undesire (clientID : string) (hash : string)
    (qs : list (string * QueryRecord)) : list (string * QueryRecord) :=
  match alookup hash qs with
  | Some q =>
      aset hash
        (mkQuery (qid q) (qAst q) (adelete clientID (desiredBy q)) (internal q)
                 (transformationHash q) (transformationVersion q)
                 (qPatchVersion q)) qs
  | None => qs
  end.

Definition clientRecord (clientID : string) (c : CVRSnapshot) : ClientRecord :=
  match alookup clientID (cvrClients c) with
  | Some r => r
  | None => mkClientRecord clientID (version c) []
  end.

(** Modelled from the spec: the config-driven updater of cvr.ts is not part
    of the sources at hand.  "Adds the client if absent.  Marks each query
    as desired by that client at the new version.  Queries already present
    only have desiredBy updated"; the result lists the newly added ones. *)
Definition stagedPut (clientID : string) (qs : list (string * AST)) (u : Staged)
  : list (string * AST) * Staged :=
  let w := ensureNewVersion (orig u) (work u) in
  let r := clientRecord clientID w in
  let added := filter (fun q => negb (mem (fst q) (akeys (queries w)))) qs in
  let ids := desiredQueryIDs r ++ difference (map fst qs) (desiredQueryIDs r) in
  let w1 :=
    with_queries
      (fold_left (fun acc q => desire clientID (version w) (fst q) (snd q) acc)
                 qs (queries w)) w in
  (added,
   mkStaged (orig u)
     (with_cvrClients
        (aset clientID (mkClientRecord clientID (crPatchVersion r) ids)
              (cvrClients w1)) w1)).

(** Modelled from the spec: "Removes desiredBy[clientID] for each". *)
Definition stagedDelete (clientID : string) (hashes : list string) (u : Staged)
  : Staged :=
  let w := ensureNewVersion (orig u) (work u) in
  let r := clientRecord clientID w in
  let w1 :=
    with_queries
      (fold_left (fun acc h => undesire clientID h acc) hashes (queries w)) w in
  mkStaged (orig u)
    (with_cvrClients
       (aset clientID
          (mkClientRecord clientID (crPatchVersion r)
             (difference (desiredQueryIDs r) hashes))
          (cvrClients w1)) w1).

Definition stagedClear (clientID : string) (u : Staged) : Staged :=
  stagedDelete clientID
    (desiredQueryIDs (clientRecord clientID (work u))) u.

(** Modelled from the spec: a flush persists the staged snapshot, or fails
    as a whole. *)
Definition stagedFlush (u : Staged) (st : Durable) : Ext CVRSnapshot * Durable :=
  if dUnavailable st then (inl "Unavailable", st)
  else (inr (work u),
        mkDurable (work u) (dConfigPatches st) (dRowPatches st) false).

(** Modelled from the spec: the query-driven updater starts at the
    pipeline's state version when that is newer than the CVR's. *)
Definition stagedAt (c : CVRSnapshot) (stateVersion' : string) : Staged :=
  match String.compare (stateVersion (version c)) stateVersion' with
  | Lt => mkStaged c (with_version (mkVersion stateVersion' 0) c)
  | _ => mkStaged c c
  end.

Definition gotQuery (v : CVRVersion) (q : QueryRecord) (th : string)
  : QueryRecord :=
  mkQuery (qid q) (qAst q) (desiredBy q) (internal q) (Some th) (Some v) (Some v).

(** Modelled from the spec: "newVersion has stateVersion equal to the
    pipeline's current version and minorVersion bumped from the previous
    CVR.  Returns put/del query patches". *)
Definition stagedTrack (add : list (string * string)) (remove : list string)
    (u : Staged) : (CVRVersion * list PatchToVersion) * Staged :=
  let w := ensureNewVersion (orig u) (work u) in
  let v := version w in
  let qs1 :=
    fold_left
      (fun acc a =>
         match alookup (fst a) acc with
         | Some q => aset (fst a) (gotQuery v q (snd a)) acc
         | None => acc
         end)
      add (queries w) in
  let qs2 := fold_left (fun acc h => adelete h acc) remove qs1 in
  let puts :=
    flat_map
      (fun a =>
         match alookup (fst a) (queries w) with
         | Some q => [mkPatchToVersion (QueryPut (fst a) (qAst q) None) v]
         | None => []
         end)
      add in
  let dels := map (fun h => mkPatchToVersion (QueryDel h None) v) remove in
  ((v, puts ++ dels), mkStaged (orig u) (with_queries qs2 w)).

Definition stagedReceived (rows : RowMap) (u : Staged) (st : Durable)
  : Ext (list PatchToVersion) * Staged :=
  if dUnavailable st then (inl "Unavailable", u)
  else
    let w := ensureNewVersion (orig u) (work u) in
    (inr (map
            (fun e =>
               match ruContents (snd (snd e)) with
               | Some contents =>
                   mkPatchToVersion (RowPut (fst (snd e)) contents) (version w)
               | None => mkPatchToVersion (RowDel (fst (snd e))) (version w)
               end)
            rows),
     mkStaged (orig u) w).

#[export] Instance durable : CVRStorage := {|
  Store := Durable;
  load := fun st =>
    if dUnavailable st then (inl "Unavailable", st) else (inr (dCVR st), st);
  catchupRowPatches := fun from c exclude st =>
    ([filter (fun r => newerThan from (rpPatchVersion r)) (dRowPatches st)],
     None);
  catchupConfigPatches := fun from c st =>
    if dUnavailable st then inl "Unavailable"
    else inr (filter (fun p => newerThan from (toVersion p)) (dConfigPatches st));
  ConfigUpdater := Staged;
  newConfigUpdater := fun c => mkStaged c c;
  putDesiredQueries := stagedPut;
  deleteDesiredQueries := stagedDelete;
  clearDesiredQueries := stagedClear;
  flushConfig := stagedFlush;
  QueryUpdater := Staged;
  newQueryUpdater := stagedAt;
  updatedVersion := fun u => version (work u);
  trackQueries := stagedTrack;
  received := stagedReceived;
  deleteUnreferencedRows := fun u st => (inr [], u);
  flushQuery := stagedFlush
|}.

Definition showKey (k : RowKey) : string :=
  String.concat ","
    (map (fun kv => fst kv ++ "=" ++
                    match snd kv with
                    | JStr s => s
                    | _ => "?"
                    end)%string k).

#[export] Instance rowKeys : RowKeys := {|
  rowIDHash := fun id => (table id ++ ":" ++ showKey (rowKey id))%string
|}.

(** *** The fixture *)

Definition issue (id title v : string) : Row :=
  [("id", JStr id); ("title", JStr title); (ZERO_VERSION_COLUMN_NAME, JStr v)].

Definition user (id name v : string) : Row :=
  [("id", JStr id); ("name", JStr name); (ZERO_VERSION_COLUMN_NAME, JStr v)].

Definition tables : list (string * (list string * list Row)) :=
  [("issues", (["id"; "title"; ZERO_VERSION_COLUMN_NAME],
               [issue "1" "parent issue foo" "1a0";
                issue "2" "parent issue bar" "1ab"]));
   ("users", (["id"; "name"; ZERO_VERSION_COLUMN_NAME],
              [user "100" "Alice" "0a"]))].

Definition ISSUES_TITLE_QUERY : AST := mkAST "issues" ["id"; "title"].
Definition USERS_NAME_QUERY : AST := mkAST "users" ["id"; "name"].
Definition INVALID_QUERY : AST := mkAST "users" ["non_existent_column"].

Definition emptyCVR : CVRSnapshot := mkCVR "9876" (mkVersion "00" 0) [] [].

Definition SYNC_CONTEXT : SyncContext := mkContext "foo" "ws1" None.

(** The service after [run()] loaded an empty CVR, the replica at [1xz]. *)
Definition loaded : ViewSyncerService :=
  mkService (mkReplica false "1xz" [] [] tables) true []
            (mkDurable emptyCVR [] [] false) (Some emptyCVR) None 0.

(** *** Runs of the fixture *)

(** The client [foo] connects wanting [query-hash1], before the replica is
    ready. *)
Definition CONNECT : Op :=
  InitConnection SYNC_CONTEXT [OpPut "query-hash1" ISSUES_TITLE_QUERY].

(** ... and the service after it. *)
Definition connected : ViewSyncerService := fields (runOps [CONNECT] loaded).

(** The replica becomes ready: the pipelines are initialized, nothing is
    hydrated yet. *)
Definition ready : ViewSyncerService :=
  with_pipelines (init (pipelines connected)) connected.

(** The service once [query-hash1] is hydrated and acknowledged. *)
Definition synced : ViewSyncerService :=
  fields (runOps [CONNECT; VersionReady] loaded).

(** Two more messages from [foo] that change nothing. *)
Definition quietRun : list Op :=
  [CONNECT; VersionReady;
   ChangeDesiredQueries SYNC_CONTEXT []; ChangeDesiredQueries SYNC_CONTEXT []].

(** A message from a connection that [foo] has since replaced. *)
Definition STALE_CONTEXT : SyncContext := mkContext "foo" "ws0" None.

Definition BAD_PATCH : list QueriesPatchOp := [OpPut "query-hash3" INVALID_QUERY].

(** A CVR of an earlier run in which [foo] had got [query-hash1]. *)
Definition gotCVR : CVRSnapshot :=
  let v := mkVersion "1xz" 1 in
  mkCVR "9876" v
        [("foo", mkClientRecord "foo" v ["query-hash1"])]
        [("query-hash1",
          mkQuery "query-hash1" ISSUES_TITLE_QUERY [("foo", v)] false
                  (Some "query-hash1") (Some v) (Some v))].

Definition restored : ViewSyncerService :=
  mkService (mkReplica false "1xz" [] [] tables) true []
            (mkDurable gotCVR [] [] false) (Some gotCVR) None 0.

(** [foo] reconnects and gives [query-hash1] up before the replica is
    ready; then the pipelines are initialized. *)
Definition undesired : ViewSyncerService :=
  let s := fields (runOps [InitConnection SYNC_CONTEXT [OpDel "query-hash1"]]
                          restored) in
  with_pipelines (init (pipelines s)) s.

(** A client that is at the CVR's version next to one that has nothing. *)
Definition configPatch : PatchToVersion :=
  mkPatchToVersion (QueryPut "query-hash1" ISSUES_TITLE_QUERY (Some "foo"))
                   (mkVersion "1xz" 1).

Definition twoClients : ViewSyncerService :=
  mkService (mkReplica true "1xz" [] ["query-hash1"] tables) true
            [("foo", mkHandler 0 "foo" "ws1" (Some (version gotCVR)));
             ("bar", mkHandler 1 "bar" "ws2" None)]
            (mkDurable gotCVR [configPatch] [] false) (Some gotCVR) None 2.

(** Destroying the pipelines drops the queries added to them. *)
#[export] Instance teardown : PipelineTeardown := {|
  destroy := fun p =>
    mkReplica false (rVersion p) (rPending p) [] (rTables p)
|}.

(** A stream of changes that fails after its first row. *)
Definition FAILING_STREAM : Stream RowChange :=
  ([mkRowChange "query-hash1" "issues" (keyOf (issue "1" "parent issue foo" "1a0"))
                (Some (issue "1" "parent issue foo" "1a0"))],
   Some "stream closed").

(** The handler of [foo] once the fixture is in sync. *)
Definition FOO : ClientHandler :=
  mkHandler 0 "foo" "ws1" (Some (mkVersion "1xz" 0)).

(** A connection, a version change and a shutdown while [run()] loops. *)
Definition SESSION : list Input := [Do CONNECT; Do VersionReady; Stop].

(** A replica with a row whose [_0_version] is empty. *)
Definition label (id name v : string) : Row :=
  [("id", JStr id); ("name", JStr name); (ZERO_VERSION_COLUMN_NAME, JStr v)].

Definition LABELS_NAME_QUERY : AST := mkAST "labels" ["id"; "name"].

Definition labelled : ViewSyncerService :=
  mkService
    (mkReplica false "1xz" [] []
       (tables ++ [("labels", (["id"; "name"; ZERO_VERSION_COLUMN_NAME],
                               [label "7" "bug" ""]))]))
    true [] (mkDurable emptyCVR [] [] false) (Some emptyCVR) None 0.

Definition BAR_CONTEXT : SyncContext := mkContext "bar" "ws2" None.

(** [foo] connects and is hydrated, [bar] connects, [foo] asks for the
    labels, whose hydration fails, and [bar] sends an empty patch. *)
Definition FAILED_MESSAGE : list Input :=
  [Do CONNECT; Do VersionReady;
   Do (InitConnection BAR_CONTEXT [OpPut "query-hash1" ISSUES_TITLE_QUERY]);
   Do (ChangeDesiredQueries SYNC_CONTEXT [OpPut "query-hash9" LABELS_NAME_QUERY]);
   Do (ChangeDesiredQueries BAR_CONTEXT [])].

(** [foo] asks for the users once it is in sync. *)
Definition SECOND_QUERY : list Op :=
  [CONNECT; VersionReady;
   ChangeDesiredQueries SYNC_CONTEXT [OpPut "query-hash2" USERS_NAME_QUERY]].

End Scenario.

(** * Properties *)

(** ** Association lists *)

Section AListFacts.
Context {V : Type}.
Implicit Types (m : list (string * V)) (k : string) (v : V).

Lemma alookup_aset_eq k v m : alookup k (aset k v m) = Some v.
Proof.
  induction m as [|[k' v'] m IH]; simpl.
  - now rewrite String.eqb_refl.
  - destruct (String.eqb k k') eqn:E; simpl; rewrite ?String.eqb_refl, ?E; auto.
Qed.

Lemma alookup_aset_ne k k' v m :
  k <> k' -> alookup k (aset k' v m) = alookup k m.
Proof.
  intros Hne. apply String.eqb_neq in Hne.
  induction m as [|[k0 v0] m IH]; simpl.
  - now rewrite Hne.
  - destruct (String.eqb k' k0) eqn:E; simpl.
    + apply String.eqb_eq in E. subst k0. now rewrite Hne.
    + now rewrite IH.
Qed.

Lemma alookup_adelete_eq k m : alookup k (adelete k m) = None.
Proof.
  induction m as [|[k' v'] m IH]; simpl; auto.
  destruct (String.eqb k k') eqn:E; simpl; auto.
  now rewrite E.
Qed.

Lemma alookup_adelete_ne k k' m :
  k <> k' -> alookup k (adelete k' m) = alookup k m.
Proof.
  intros Hne.
  induction m as [|[k0 v0] m IH]; simpl; auto.
  destruct (String.eqb k' k0) eqn:E; simpl.
  - apply String.eqb_eq in E. subst k0.
    apply String.eqb_neq in Hne. now rewrite Hne.
  - now rewrite IH.
Qed.

Lemma alookup_None k m : alookup k m = None <-> ~ In k (akeys m).
Proof.
  induction m as [|[k' v'] m IH]; simpl.
  - tauto.
  - destruct (String.eqb k k') eqn:E.
    + apply String.eqb_eq in E. subst. split; [discriminate | tauto].
    + apply String.eqb_neq in E. rewrite IH. split.
      * intros H [E'|H']; [now apply E | now apply H].
      * intros H H'. apply H. now right.
Qed.

Lemma akeys_aset_present k v m :
  alookup k m <> None -> akeys (aset k v m) = akeys m.
Proof.
  induction m as [|[k' v'] m IH]; simpl.
  - congruence.
  - destruct (String.eqb k k') eqn:E; simpl.
    + apply String.eqb_eq in E. now subst.
    + intros H. now rewrite IH.
Qed.

Lemma akeys_aset_absent k v m :
  alookup k m = None -> akeys (aset k v m) = akeys m ++ [k].
Proof.
  induction m as [|[k' v'] m IH]; simpl; auto.
  destruct (String.eqb k k') eqn:E; simpl.
  - discriminate.
  - intros H. now rewrite IH.
Qed.

End AListFacts.

Lemma mem_In k l : mem k l = true <-> In k l.
Proof.
  unfold mem. rewrite existsb_exists. split.
  - intros (x & Hx & E). apply String.eqb_eq in E. now subst.
  - intros H. exists k. split; auto. apply String.eqb_refl.
Qed.

Lemma In_difference k a b : In k (difference a b) <-> In k a /\ ~ In k b.
Proof.
  unfold difference. rewrite filter_In, negb_true_iff.
  split; intros [H1 H2]; split; auto.
  - intros H. apply mem_In in H. congruence.
  - destruct (mem k b) eqn:E; auto. apply mem_In in E. contradiction.
Qed.

(** ** The order of versions *)

Lemma ascii_compare_lt_trans a b c :
  Ascii.compare a b = Lt -> Ascii.compare b c = Lt -> Ascii.compare a c = Lt.
Proof.
  unfold Ascii.compare. rewrite !N.compare_lt_iff. lia.
Qed.

Lemma ascii_compare_refl a : Ascii.compare a a = Eq.
Proof. unfold Ascii.compare. apply N.compare_refl. Qed.

Lemma string_compare_refl a : String.compare a a = Eq.
Proof. induction a; simpl; auto. now rewrite ascii_compare_refl. Qed.

Lemma string_compare_lt_trans a : forall b c,
  String.compare a b = Lt -> String.compare b c = Lt -> String.compare a c = Lt.
Proof.
  induction a as [|x a IH]; intros [|y b] [|z c]; simpl; try congruence.
  destruct (Ascii.compare x y) eqn:Exy; try discriminate;
    destruct (Ascii.compare y z) eqn:Eyz; try discriminate; intros H1 H2.
  - apply Ascii.compare_eq_iff in Exy, Eyz. subst.
    rewrite ascii_compare_refl. eauto.
  - apply Ascii.compare_eq_iff in Exy. subst. now rewrite Eyz.
  - apply Ascii.compare_eq_iff in Eyz. subst. now rewrite Exy.
  - now rewrite (ascii_compare_lt_trans _ _ _ Exy Eyz).
Qed.

Lemma cmpVersions_refl a : cmpVersions a a = Eq.
Proof.
  destruct a as [a|]; simpl; auto.
  rewrite string_compare_refl. apply N.compare_refl.
Qed.

Lemma cmpVersions_eq a b : cmpVersions a b = Eq -> a = b.
Proof.
  destruct a as [[sa ma]|], b as [[sb mb]|]; simpl; try congruence.
  destruct (String.compare sa sb) eqn:E; try discriminate.
  apply String.compare_eq_iff in E. intros H. apply N.compare_eq in H.
  now subst.
Qed.

Lemma cmpVersions_antisym a b : cmpVersions a b = CompOpp (cmpVersions b a).
Proof.
  destruct a as [[sa ma]|], b as [[sb mb]|]; simpl; auto.
  rewrite (String.compare_antisym sb sa).
  destruct (String.compare sa sb); simpl; auto.
  apply N.compare_antisym.
Qed.

Lemma cmpVersions_lt_trans a b c :
  cmpVersions a b = Lt -> cmpVersions b c = Lt -> cmpVersions a c = Lt.
Proof.
  destruct a as [[sa ma]|], b as [[sb mb]|], c as [[sc mc]|]; simpl;
    try congruence.
  destruct (String.compare sa sb) eqn:Eab; try discriminate;
    destruct (String.compare sb sc) eqn:Ebc; try discriminate; intros H1 H2.
  - apply String.compare_eq_iff in Eab, Ebc. subst.
    rewrite string_compare_refl. rewrite N.compare_lt_iff in *. lia.
  - apply String.compare_eq_iff in Eab. subst. now rewrite Ebc.
  - apply String.compare_eq_iff in Ebc. subst. now rewrite Eab.
  - now rewrite (string_compare_lt_trans _ _ _ Eab Ebc).
Qed.

Lemma cmpVersions_le_trans a b c :
  cmpVersions a b <> Gt -> cmpVersions b c <> Gt -> cmpVersions a c <> Gt.
Proof.
  intros H1 H2.
  destruct (cmpVersions a b) eqn:Eab; try congruence;
    destruct (cmpVersions b c) eqn:Ebc; try congruence.
  - apply cmpVersions_eq in Eab, Ebc. subst. now rewrite cmpVersions_refl.
  - apply cmpVersions_eq in Eab. subst. now rewrite Ebc.
  - apply cmpVersions_eq in Ebc. subst. now rewrite Eab.
  - now rewrite (cmpVersions_lt_trans _ _ _ Eab Ebc).
Qed.

Lemma version_le_refl v : version_le v v.
Proof. unfold version_le. now rewrite cmpVersions_refl. Qed.

Lemma version_le_trans a b c : version_le a b -> version_le b c -> version_le a c.
Proof. unfold version_le. apply cmpVersions_le_trans. Qed.

(** [catchupFrom] is the least of the CVR's version and the clients'. *)
Lemma fold_min_le (l : list NullableCVRVersion) : forall init,
  let m := fold_left
             (fun a b => match cmpVersions a b with Lt => a | _ => b end) l init in
  cmpVersions m init <> Gt /\
  (forall v, In v l -> cmpVersions m v <> Gt) /\
  (m = init \/ In m l).
Proof.
  induction l as [|b l IH]; intros init; cbn.
  - rewrite cmpVersions_refl. repeat split; auto. discriminate.
  - specialize (IH (match cmpVersions init b with Lt => init | _ => b end)).
    cbv zeta in IH. destruct IH as (I1 & I2 & I3).
    set (m := fold_left _ l _) in *.
    assert (Hib : cmpVersions (match cmpVersions init b with Lt => init | _ => b end) init <> Gt
                  /\ cmpVersions (match cmpVersions init b with Lt => init | _ => b end) b <> Gt).
    { destruct (cmpVersions init b) eqn:E.
      - apply cmpVersions_eq in E. subst. rewrite cmpVersions_refl. split; discriminate.
      - rewrite cmpVersions_refl. split; congruence.
      - rewrite cmpVersions_refl. rewrite cmpVersions_antisym, E. split; discriminate. }
    destruct Hib as [Hi Hb].
    split; [eapply cmpVersions_le_trans; eauto|]. split.
    + intros v [<-|Hv]; [eapply cmpVersions_le_trans; eauto | auto].
    + destruct I3 as [I3|I3]; [|auto].
      rewrite I3. destruct (cmpVersions init b); auto.
Qed.

Section Properties.
Context {PD : PipelineDriver} {CS : CVRStorage} {RK : RowKeys}.

Notation "x <- m ;; k" := (bind m (fun x => k))
  (at level 61, m at next level, right associativity).
Notation "m ;; k" := (bind m (fun _ => k))
  (at level 61, right associativity).

(** ** Rules of the monad *)

Lemma wp_ret {A} (a : A) s Q : Q (Ok a) s [] -> wp (ret a) s Q.
Proof. exact (fun H => H). Qed.

Lemma wp_raise {A} (e : Error) s (Q : Result A -> _) :
  Q (Err e) s [] -> wp (raise e) s Q.
Proof. exact (fun H => H). Qed.

Lemma wp_bind {A B} (m : M A) (f : A -> M B) s Q :
  wp m s (fun r s1 e1 =>
            match r with
            | Ok a => wp (f a) s1 (fun r2 s2 e2 => Q r2 s2 (e1 ++ e2))
            | Err e => Q (Err e) s1 e1
            end) ->
  wp (bind m f) s Q.
Proof.
  unfold wp, bind. cbv zeta. destruct (results (m s)); auto.
Qed.

Lemma wp_bind_inv {A B} (m : M A) (f : A -> M B) s Q :
  wp (bind m f) s Q ->
  wp m s (fun r s1 e1 =>
            match r with
            | Ok a => wp (f a) s1 (fun r2 s2 e2 => Q r2 s2 (e1 ++ e2))
            | Err e => Q (Err e) s1 e1
            end).
Proof.
  unfold wp, bind. cbv zeta. destruct (results (m s)); auto.
Qed.

Lemma wp_conseq {A} (m : M A) s (Q Q' : Result A -> _) :
  wp m s Q -> (forall r s' e, Q r s' e -> Q' r s' e) -> wp m s Q'.
Proof. unfold wp. auto. Qed.

Lemma wp_get {A} (f : ViewSyncerService -> M A) s Q :
  wp (f s) s Q -> wp (bind get f) s Q.
Proof. intros H. apply wp_bind. exact H. Qed.

Lemma wp_modify {A} g (k : M A) s Q :
  wp k (g s) Q -> wp (modify g ;; k) s Q.
Proof. intros H. apply wp_bind. exact H. Qed.

Lemma wp_emit {A} ev (k : M A) s Q :
  wp k s (fun r s' e => Q r s' (ev :: e)) -> wp (emit ev ;; k) s Q.
Proof. intros H. apply wp_bind. exact H. Qed.

Lemma wp_assert {A} b msg (k : M A) s Q :
  (b = true -> wp k s Q) ->
  (b = false -> Q (Err (AssertionError msg)) s []) ->
  wp (assert b msg ;; k) s Q.
Proof.
  intros H1 H2. apply wp_bind. destruct b; [apply H1 | apply H2]; reflexivity.
Qed.

Lemma wp_liftExt {A B} (r : Ext A) (k : A -> M B) s Q :
  (forall a, r = inr a -> wp (k a) s Q) ->
  (forall e, r = inl e -> Q (Err (External e)) s []) ->
  wp (bind (liftExt r) k) s Q.
Proof.
  intros H1 H2. apply wp_bind. destruct r; [apply H2 | apply H1]; reflexivity.
Qed.

Lemma wp_ret_bind {A B} (a : A) (k : A -> M B) s Q :
  wp (k a) s Q -> wp (bind (ret a) k) s Q.
Proof. intros H. apply wp_bind. exact H. Qed.

Lemma wp_raise_bind {A B} (e : Error) (k : A -> M B) s Q :
  Q (Err e) s [] -> wp (bind (raise e) k) s Q.
Proof. intros H. apply wp_bind. exact H. Qed.

Ltac wp_step :=
  lazymatch goal with
  | |- wp (bind get _) _ _ => apply wp_get
  | |- wp (bind (modify _) _) _ _ => apply wp_modify
  | |- wp (bind (emit _) _) _ _ => apply wp_emit
  | |- wp (bind (ret _) _) _ _ => apply wp_ret_bind
  | |- wp (bind (raise _) _) _ _ => apply wp_raise_bind
  | |- wp (bind (assert _ _) _) _ _ => apply wp_assert; intros ?
  | |- wp (bind (liftExt _) _) _ _ => apply wp_liftExt; intros ? ?
  | |- wp (bind (bind _ _) _) _ _ => apply wp_bind
  | |- wp (ret _) _ _ => apply wp_ret
  | |- wp (raise _) _ _ => apply wp_raise
  end.

Lemma wp_run {A} (m : M A) s Q :
  wp m s Q -> forall r s' e, m s = (r, s', e) -> Q r s' e.
Proof. unfold wp. intros H r s' e E. now rewrite E in H. Qed.


(** ** Disconnecting and stale connections *)

(** C10: [#deleteClient] run for a departing handler leaves the fields as
    they are, and arms no timer, when another handler object is registered
    for the client; the entry is removed, and the idle timer armed when
    that empties the map, only when the registered handler is the
    departing one. *)
Theorem deleteClient_keeps_newer_handler
    (cid : string) (departing : ClientHandler) (s : ViewSyncerService) :
  let x := deleteClient cid departing s in
  results x = Ok tt /\
  (forall registered,
      alookup cid (clients s) = Some registered ->
      hid registered <> hid departing ->
      fields x = s /\ calls x = []) /\
  (alookup cid (clients (fields x)) <> alookup cid (clients s)
   \/ idleToken (fields x) <> idleToken s
   \/ calls x <> [] ->
   exists registered,
     alookup cid (clients s) = Some registered /\ hid registered = hid departing) /\
  (forall registered,
      alookup cid (clients s) = Some registered ->
      hid registered = hid departing ->
      clients (fields x) = adelete cid (clients s) /\
      alookup cid (clients (fields x)) = None /\
      (clients (fields x) = [] ->
       idleToken (fields x) = Some (nextObject s) /\
       calls x = [IdleTimerArmed (nextObject s)]) /\
      (clients (fields x) <> [] ->
       idleToken (fields x) = idleToken s /\ calls x = [])).
Proof.
  cbv zeta. unfold deleteClient, bind, get. cbn [results fields calls fst snd].
  destruct (alookup cid (clients s)) as [c|] eqn:L.
  2:{ cbn. split; [reflexivity|]. split; [discriminate|]. split; [|discriminate].
      intros [H|[H|H]]; congruence. }
  destruct (Nat.eqb (hid c) (hid departing)) eqn:E.
  - apply Nat.eqb_eq in E.
    cbn [modify results fields calls fst snd clients with_clients].
    pose proof (alookup_adelete_eq cid (clients s)) as Hdel.
    destruct (adelete cid (clients s)) as [|e l] eqn:D.
    + cbn -[alookup]. split; [reflexivity|]. split.
      { intros r Hr Hne. congruence. }
      split.
      { intros _. exists c. split; auto. }
      intros r Hr He. repeat split; auto; congruence.
    + cbn -[alookup]. split; [reflexivity|]. split.
      { intros r Hr Hne. congruence. }
      split.
      { intros _. exists c. split; auto. }
      intros r Hr He. split; [reflexivity|]. split; [exact Hdel|].
      split; [discriminate | auto].
  - apply Nat.eqb_neq in E. cbn. split; [reflexivity|]. split.
    { intros r Hr Hne. destruct s; auto. }
    split.
    { intros [H|[H|H]]; congruence. }
    intros r Hr He. congruence.
Qed.

(** C9: a [changeDesiredQueries] message whose [wsID] is not that of the
    handler registered for the client, or whose client has no handler,
    returns normally; the only call made is the log line of the drop, and
    of the fields only the idle token changes (it is cleared): the CVR,
    the store, the pipelines and the clients are as before. *)
Theorem stale_changeDesiredQueries_is_dropped
    (ctx : SyncContext) (patch : list QueriesPatchOp) (s : ViewSyncerService) :
  (forall c, alookup (clientID ctx) (clients s) = Some c -> hWsID c <> wsID ctx) ->
  changeDesiredQueries ctx patch s
  = (Ok tt, with_idleToken None s, [Dropped "changeDesiredQueries"]).
Proof.
  intros H. unfold changeDesiredQueries, runInLockForClient, bind, get.
  cbn [results fields calls fst snd].
  destruct (alookup (clientID ctx) (clients s)) as [c|] eqn:L.
  - specialize (H c eq_refl). apply String.eqb_neq in H. rewrite H. reflexivity.
  - reflexivity.
Qed.

(** ** Hydrating unchanged queries *)

Lemma isDesired_skip q :
  negb (internal q) && Nat.eqb (length (desiredBy q)) 0 = negb (isDesired q).
Proof.
  unfold isDesired. destruct (internal q); simpl; auto.
  destruct (desiredBy q); reflexivity.
Qed.

Lemma rehydrate_loop (l : list (string * QueryRecord)) : forall s,
  wp (forEach rehydrate l) s (fun r s' e =>
    cvr s' = cvr s /\ clients s' = clients s /\ cvrStore s' = cvrStore s /\
    idleToken s' = idleToken s /\
    (exists n, e = firstn n (rehydrations l)) /\
    (r = Ok tt -> e = rehydrations l)).
Proof.
  induction l as [|[hash q] l IH]; intros s.
  - apply wp_ret. repeat split; auto. exists 0%nat. reflexivity.
  - cbn [forEach]. apply wp_bind.
    unfold rehydrations, unchanged. cbn [filter fst snd map].
    unfold rehydrate. rewrite isDesired_skip.
    destruct (isDesired q); cbn [negb andb].
    2:{ apply wp_ret. apply IH. }
    destruct (transformationHash q) as [t|].
    2:{ apply wp_ret. apply IH. }
    destruct (String.eqb hash t); cbn [negb].
    2:{ apply wp_ret. apply IH. }
    apply wp_bind. unfold callAddQuery. wp_step.
    destruct (addQuery hash (qAst q) (pipelines s)) as [[items err] p].
    do 3 wp_step. cbn [snd].
    destruct err as [x|]; cbn [endOfStream].
    + apply wp_raise. cbn. repeat split; auto.
      * exists 1%nat. reflexivity.
      * discriminate.
    + apply wp_ret. cbn [app].
      eapply wp_conseq; [apply IH|].
      cbn. intros r s' e (H1 & H2 & H3 & H4 & (n & H5) & H6).
      repeat split; auto.
      * exists (S n). cbn. now rewrite H5.
      * intros Hr. now rewrite H6.
Qed.

Lemma unchanged_isGot (l : list (string * QueryRecord)) :
  filter unchanged (filter isGot l) = filter unchanged l.
Proof.
  induction l as [|e l IH]; simpl; auto.
  unfold isGot at 1, unchanged at 2.
  destruct (transformationHash (snd e)) eqn:T; simpl.
  - unfold unchanged at 1. rewrite T. rewrite IH. reflexivity.
  - rewrite andb_false_r. exact IH.
Qed.

(** C6, as the service has it: [#hydrateUnchangedQueries] never touches
    the CVR snapshot, the store or the clients.  With the CVR loaded and the
    pipelines initialized: when the state versions differ it does nothing;
    when they are equal it calls [addQuery], in the order of the CVR's
    queries, for exactly the got queries that are still desired (internal
    or with a non-empty [desiredBy]) and whose transformation hash is their
    own hash, and makes no other call (the yielded changes go nowhere); if
    an [addQuery] raises, the calls made are a prefix of those. *)
Theorem hydrateUnchangedQueries_spec (s : ViewSyncerService) :
  let x := hydrateUnchangedQueries s in
  cvr (fields x) = cvr s /\
  cvrStore (fields x) = cvrStore s /\
  clients (fields x) = clients s /\
  forall c,
    cvr s = Some c ->
    initialized (pipelines s) = true ->
    (stateVersion (version c) <> currentVersion (pipelines s) ->
     x = (Ok tt, s, [])) /\
    (stateVersion (version c) = currentVersion (pipelines s) ->
     (exists n, calls x = firstn n (rehydrations (queries c))) /\
     (results x = Ok tt -> calls x = rehydrations (queries c))).
Proof.
  cbv zeta. unfold hydrateUnchangedQueries, loadedCVR.
  destruct (cvr s) as [c|] eqn:C.
  2:{ unfold bind, get, raise. cbn. rewrite C. cbn.
      split; [|split; [|split]]; try congruence; auto. }
  destruct (initialized (pipelines s)) eqn:I.
  2:{ unfold bind, get, raise, assert. cbn. rewrite C. cbn. rewrite I. cbn.
      split; [|split; [|split]]; try congruence; auto. }
  destruct (String.eqb (stateVersion (version c)) (currentVersion (pipelines s)))
    eqn:E.
  - pose proof (rehydrate_loop (filter isGot (queries c)) s) as L.
    unfold wp in L. destruct L as (L1 & L2 & L3 & L4 & L5 & L6).
    unfold rehydrations in L5, L6. rewrite unchanged_isGot in L5, L6.
    unfold bind, get, assert. cbn. rewrite C. cbn. rewrite I. cbn. rewrite E. cbn.
    split; [|split; [|split]]; try congruence; auto.
    intros c0 Hc _. injection Hc as <-. split.
    + intros Hne. apply String.eqb_eq in E. contradiction.
    + intros _. split; [exact L5 | exact L6].
  - unfold bind, get, assert. cbn. rewrite C. cbn. rewrite I. cbn. rewrite E. cbn.
    split; [|split; [|split]]; try congruence; auto.
    intros c0 Hc _. injection Hc as <-. split.
    + intros _. destruct s; reflexivity.
    + intros Heq. apply String.eqb_neq in E. contradiction.
Qed.

(** ** The CVR pointer *)

Lemma keeps_weaken (P P' : Event -> bool) {A} (m : M A) :
  (forall ev, P ev = true -> P' ev = true) -> keeps P m -> keeps P' m.
Proof.
  intros H K s. eapply wp_conseq; [apply K|]. cbn beta. intros _ s' e [H1 H2].
  split; auto. rewrite forallb_forall in *. auto.
Qed.

Section Keeps.
Variable P : Event -> bool.

Lemma keeps_ret {A} (a : A) : keeps P (ret a).
Proof. intros s. split; reflexivity. Qed.

Lemma keeps_raise {A} e : keeps P (@raise _ _ A e).
Proof. intros s. split; reflexivity. Qed.

Lemma keeps_get : keeps P get.
Proof. intros s. split; reflexivity. Qed.

Lemma keeps_emit ev : P ev = true -> keeps P (emit ev).
Proof. intros H s. split; [reflexivity|]. cbn. now rewrite H. Qed.

Lemma keeps_modify g : (forall s, cvr (g s) = cvr s) -> keeps P (modify g).
Proof. intros H s. split; [apply H | reflexivity]. Qed.

Lemma keeps_bind {A B} (m : M A) (f : A -> M B) :
  keeps P m -> (forall a, keeps P (f a)) -> keeps P (bind m f).
Proof.
  intros Hm Hf s. apply wp_bind. eapply wp_conseq; [apply Hm|].
  cbn beta. intros [a|e] s1 e1 [V1 Q1].
  - eapply wp_conseq; [apply Hf|]. cbn beta. intros _ s2 e2 [V2 Q2].
    split; [congruence | rewrite forallb_app; now rewrite Q1, Q2].
  - auto.
Qed.

Lemma keeps_forEach {A} (f : A -> M unit) l :
  (forall a, keeps P (f a)) -> keeps P (forEach f l).
Proof.
  intros Hf. induction l; cbn [forEach].
  - apply keeps_ret.
  - apply keeps_bind; auto.
Qed.

Lemma keeps_foldM {A B} (f : B -> A -> M B) l :
  (forall b a, keeps P (f b a)) -> forall b, keeps P (foldM f l b).
Proof.
  intros Hf. induction l; intros b; cbn [foldM].
  - apply keeps_ret.
  - apply keeps_bind; auto.
Qed.

Lemma keeps_assert b msg : keeps P (assert b msg).
Proof. destruct b; [apply keeps_ret | apply keeps_raise]. Qed.

Lemma keeps_liftExt {A} (r : Ext A) : keeps P (liftExt r).
Proof. destruct r; [apply keeps_raise | apply keeps_ret]. Qed.

Lemma keeps_liftResult {A} (r : Result A) : keeps P (liftResult r).
Proof. destruct r; [apply keeps_ret | apply keeps_raise]. Qed.

Lemma keeps_endOfStream e : keeps P (endOfStream e).
Proof. destruct e; [apply keeps_raise | apply keeps_ret]. Qed.

End Keeps.

Ltac keeps_step :=
  lazymatch goal with
  | |- keeps _ (bind _ _) => apply keeps_bind; [|intros ?]
  | |- keeps _ (ret _) => apply keeps_ret
  | |- keeps _ (raise _) => apply keeps_raise
  | |- keeps _ get => apply keeps_get
  | |- keeps _ (emit _) => apply keeps_emit; reflexivity
  | |- keeps _ (modify _) => apply keeps_modify; intros ?; reflexivity
  | |- keeps _ (assert _ _) => apply keeps_assert
  | |- keeps _ (liftExt _) => apply keeps_liftExt
  | |- keeps _ (liftResult _) => apply keeps_liftResult
  | |- keeps _ (endOfStream _) => apply keeps_endOfStream
  | |- keeps _ (forEach _ _) => apply keeps_forEach; intros ?
  | |- keeps _ (foldM _ _ _) => apply keeps_foldM; intros ? ?
  | |- keeps _ (let '(_, _) := ?x in _) => destruct x
  | |- keeps _ (match ?x with _ => _ end) => destruct x
  end.

Lemma quiet_addPatchAll pokers p : keeps isQuiet (addPatchAll pokers p).
Proof. unfold addPatchAll. repeat keeps_step. Qed.

Lemma quiet_processBatch rows u pokers : keeps isQuiet (processBatch rows u pokers).
Proof. unfold processBatch. repeat keeps_step. apply quiet_addPatchAll. Qed.

Lemma quiet_processLoop changes : forall rows u pokers,
  keeps isQuiet (processLoop changes rows u pokers).
Proof.
  induction changes; intros; cbn [processLoop].
  - apply keeps_ret.
  - repeat keeps_step; auto. apply quiet_processBatch.
Qed.

Lemma quiet_processChanges changes u pokers :
  keeps isQuiet (processChanges changes u pokers).
Proof.
  unfold processChanges. repeat keeps_step.
  - apply quiet_processLoop.
  - apply quiet_processBatch.
Qed.

Lemma quiet_callAddQuery hash ast : keeps isQuiet (callAddQuery hash ast).
Proof. unfold callAddQuery. repeat keeps_step. Qed.

Lemma quiet_callRemoveQuery hash : keeps isQuiet (callRemoveQuery hash).
Proof. unfold callRemoveQuery. repeat keeps_step. Qed.

Lemma quiet_hydrate c pokers u hash : keeps isQuiet (hydrate c pokers u hash).
Proof.
  unfold hydrate. repeat keeps_step.
  - apply quiet_callAddQuery.
  - apply quiet_processChanges.
Qed.

Lemma quiet_sendRowPatch pokers row : keeps isQuiet (sendRowPatch pokers row).
Proof.
  unfold sendRowPatch, materialize. repeat keeps_step. apply quiet_addPatchAll.
Qed.

Lemma quiet_catchupClients c exclude pokers :
  keeps isQuiet (catchupClients c exclude (Some pokers)).
Proof.
  unfold catchupClients. repeat keeps_step.
  - apply quiet_addPatchAll.
  - apply quiet_sendRowPatch.
Qed.

Lemma quiet_rehydrate e : keeps isQuiet (rehydrate e).
Proof.
  unfold rehydrate. repeat keeps_step. apply quiet_callAddQuery.
Qed.

Lemma quiet_hydrateUnchangedQueries : keeps isQuiet hydrateUnchangedQueries.
Proof.
  unfold hydrateUnchangedQueries, loadedCVR. repeat keeps_step.
  apply quiet_rehydrate.
Qed.

Lemma startPokes_keeps v : keeps noFlushNoEnd (startPokes v).
Proof. unfold startPokes. repeat keeps_step. Qed.

Lemma endPoke_keeps p : keeps noFlush (endPoke p).
Proof. unfold endPoke. repeat keeps_step. Qed.

Lemma isQuiet_noFlushNoEnd ev : isQuiet ev = true -> noFlushNoEnd ev = true.
Proof. destruct ev; auto. Qed.

Lemma noFlushNoEnd_noFlush ev : noFlushNoEnd ev = true -> noFlush ev = true.
Proof. destruct ev; auto. Qed.

Lemma catchupClients_keeps c exclude usePokers :
  keeps noFlush (catchupClients c exclude usePokers).
Proof.
  destruct usePokers.
  - eapply keeps_weaken; [|apply quiet_catchupClients].
    intros. now apply noFlushNoEnd_noFlush, isQuiet_noFlushNoEnd.
  - unfold catchupClients. repeat keeps_step.
    + eapply keeps_weaken; [apply noFlushNoEnd_noFlush | apply startPokes_keeps].
    + eapply keeps_weaken; [|apply quiet_addPatchAll].
      intros. now apply noFlushNoEnd_noFlush, isQuiet_noFlushNoEnd.
    + eapply keeps_weaken; [|apply quiet_sendRowPatch].
      intros. now apply noFlushNoEnd_noFlush, isQuiet_noFlushNoEnd.
    + apply endPoke_keeps.
Qed.

Lemma lastFlushed_noFlush e c : forallb noFlush e = true -> lastFlushed e c = c.
Proof.
  induction e as [|ev e IH]; cbn; auto.
  destruct ev; cbn; auto. discriminate.
Qed.

Lemma lastFlushed_app e1 e2 c :
  lastFlushed (e1 ++ e2) c = lastFlushed e2 (lastFlushed e1 c).
Proof.
  revert c. induction e1 as [|ev e1 IH]; intros c; cbn; auto.
  destruct ev; auto. destruct r; auto.
Qed.

Lemma noFlush_In e r : forallb noFlush e = true -> ~ In (Flush r) e.
Proof.
  rewrite forallb_forall. intros H Hin. apply H in Hin. discriminate.
Qed.

Lemma noFlushNoEnd_In e h : forallb noFlushNoEnd e = true -> ~ In (PokeEnd h) e.
Proof.
  rewrite forallb_forall. intros H Hin. apply H in Hin. discriminate.
Qed.

Lemma forallb_weaken (P P' : Event -> bool) e :
  (forall ev, P ev = true -> P' ev = true) ->
  forallb P e = true -> forallb P' e = true.
Proof. rewrite !forallb_forall. auto. Qed.

Lemma noFlushNoEnd_weaken e :
  forallb noFlushNoEnd e = true -> forallb noFlush e = true.
Proof. apply forallb_weaken. apply noFlushNoEnd_noFlush. Qed.

(** Calls that neither flush nor end a poke can precede a disciplined
    computation. *)
Lemma discipline_prepend {A} single c0 pre (r : Result A) s' e :
  forallb noFlushNoEnd pre = true ->
  pointerDiscipline single c0 r s' e -> pointerDiscipline single c0 r s' (pre ++ e).
Proof.
  intros Hpre [H1 H2].
  pose proof (noFlushNoEnd_weaken _ Hpre) as Hpre'.
  split.
  - rewrite lastFlushed_app, (lastFlushed_noFlush pre); auto.
  - intros err Hin. apply in_app_or in Hin. destruct Hin as [Hin|Hin].
    + exfalso. eapply noFlush_In; [|exact Hin]. auto.
    + destruct (H2 err Hin) as (p & E0 & E1 & E2 & E3).
      destruct E3 as [E3 E4].
      exists (pre ++ p). split; [now rewrite E0, app_assoc|].
      split; auto. split; [|split; auto].
      * rewrite lastFlushed_app, (lastFlushed_noFlush pre); auto.
      * intros h Hh. apply in_app_or in Hh. destruct Hh as [Hh|Hh].
        -- eapply noFlushNoEnd_In; eauto.
        -- eapply E4; eauto.
Qed.

Lemma discipline_noFlush {A} single (r : Result A) s' e c0 :
  cvr s' = c0 -> forallb noFlush e = true -> pointerDiscipline single c0 r s' e.
Proof.
  intros H1 H2. split.
  - now rewrite lastFlushed_noFlush.
  - intros err Hin. exfalso. eapply noFlush_In; eauto.
Qed.

(** Binding a computation that neither flushes nor ends a poke. *)
Lemma discipline_bind {A B} single (m : M A) (k : A -> M B) s :
  keeps noFlushNoEnd m ->
  (forall a s1, cvr s1 = cvr s -> wp (k a) s1 (pointerDiscipline single (cvr s))) ->
  wp (bind m k) s (pointerDiscipline single (cvr s)).
Proof.
  intros Hm Hk. apply wp_bind. eapply wp_conseq; [apply Hm|].
  cbn beta. intros [a|e] s1 e1 [V1 Q1].
  - eapply wp_conseq; [apply Hk; auto|]. cbn beta. intros r s2 e2 D.
    now apply discipline_prepend.
  - apply discipline_noFlush; auto. now apply noFlushNoEnd_weaken.
Qed.

(** Sequencing two disciplined computations, the first of which ends no
    poke when it returns. *)
Lemma discipline_seq {A B} (m : M A) (k : A -> M B) s :
  wp m s (fun r s1 e1 =>
            pointerDiscipline false (cvr s) r s1 e1 /\
            forall a, r = Ok a -> forall h, ~ In (PokeEnd h) e1) ->
  (forall a s1, wp (k a) s1 (pointerDiscipline false (cvr s1))) ->
  wp (bind m k) s (pointerDiscipline false (cvr s)).
Proof.
  intros Hm Hk. apply wp_bind. eapply wp_conseq; [apply Hm|].
  cbn beta. intros [a|e] s1 e1 [[D1 D2] D3].
  2:{ split; auto. intros err Hin. destruct (D2 err Hin) as (p & ? & Hr & ? & ? & ?).
      exists p. injection Hr as ->. repeat split; auto. }
  eapply wp_conseq; [apply Hk|]. cbn beta. intros r s2 e2 [E1 E2].
  split.
  - now rewrite lastFlushed_app, <- D1.
  - intros err Hin. apply in_app_or in Hin. destruct Hin as [Hin|Hin].
    + destruct (D2 err Hin) as (p & _ & Habs & _). discriminate.
    + destruct (E2 err Hin) as (p & F0 & F1 & F2 & _ & F3).
      exists (e1 ++ p). split; [now rewrite F0, app_assoc|].
      split; auto. split; [|split; [discriminate|]].
      * now rewrite lastFlushed_app, <- D1.
      * intros h Hh. apply in_app_or in Hh. destruct Hh as [Hh|Hh].
        -- eapply D3; eauto.
        -- eapply F3; eauto.
Qed.

(** A disciplined computation followed by one that makes no call. *)
Lemma discipline_then_silent {A B} single (m : M A) (k : A -> M B) s c0 :
  wp m s (pointerDiscipline single c0) ->
  (forall a, keeps silent (k a)) ->
  wp (bind m k) s (pointerDiscipline single c0).
Proof.
  intros Hm Hk. apply wp_bind. eapply wp_conseq; [apply Hm|].
  cbn beta. intros [a|e] s1 e1 [D1 D2].
  2:{ split; auto. intros err Hin. destruct (D2 err Hin) as (p & ? & Hr & ? & ? & ?).
      exists p. injection Hr as ->. repeat split; auto. }
  eapply wp_conseq; [apply Hk|]. cbn beta. intros r s2 e2 [V Q].
  destruct e2; [|discriminate]. rewrite app_nil_r. split; [congruence|].
  intros err Hin. destruct (D2 err Hin) as (p & _ & Habs & _). discriminate.
Qed.

(** The tail of the mutating operations: flush, move the pointer, then
    calls that do not flush. *)
Lemma discipline_flush single (u : QueryUpdater) (k : M unit) s :
  keeps noFlush k ->
  wp (bind (flushQueryUpdater u)
           (fun c' => bind (modify (with_cvr (Some c'))) (fun _ => k)))
     s (pointerDiscipline single (cvr s)).
Proof.
  intros Hk. apply wp_bind. unfold flushQueryUpdater. wp_step.
  destruct (flushQuery u (cvrStore s)) as [r st'].
  do 2 wp_step. destruct r as [err|c']; cbn [liftExt].
  - apply wp_raise. split; [reflexivity|].
    intros err' [Hin|[]]. injection Hin as <-. exists [].
    split; [reflexivity|]. split; [reflexivity|]. split; [reflexivity|].
    split; [reflexivity|]. intros h [Hh|[]]. discriminate.
  - apply wp_ret. wp_step.
    eapply wp_conseq; [apply Hk|]. cbn beta. intros r s2 e2 [V Q].
    split.
    + cbn. rewrite lastFlushed_noFlush; auto.
    + intros err [Hin|Hin]; [discriminate|].
      exfalso. eapply noFlush_In; eauto.
Qed.

Ltac keeps_known :=
  eapply keeps_weaken;
  [ | first [ apply quiet_addPatchAll | apply quiet_processBatch
            | apply quiet_processLoop | apply quiet_processChanges
            | apply quiet_callAddQuery | apply quiet_callRemoveQuery
            | apply quiet_hydrate | apply quiet_sendRowPatch
            | apply quiet_catchupClients | apply quiet_rehydrate
            | apply quiet_hydrateUnchangedQueries | apply startPokes_keeps
            | apply endPoke_keeps | apply catchupClients_keeps ] ];
  [ let ev := fresh "ev" in let H := fresh "H" in
    intros ev H; destruct ev; first [reflexivity | discriminate H] ].

Ltac keeps_auto := repeat first [ keeps_known | keeps_step ].

Ltac disc_step :=
  apply discipline_bind;
  [ solve [keeps_auto]
  | let a := fresh "a" in let s1 := fresh "s" in let H := fresh "H" in
    intros a s1 H; rewrite <- H; clear H ].

Lemma advancePipelines_discipline single s :
  wp advancePipelines s (pointerDiscipline single (cvr s)).
Proof.
  unfold advancePipelines, loadedCVR.
  repeat disc_step.
  destruct (advance _) as [r p].
  repeat disc_step.
  match goal with a : (string * nat * Stream RowChange)%type |- _ =>
    destruct a as [[v n] changes] end.
  repeat disc_step.
  apply discipline_flush. keeps_auto.
Qed.

Lemma addAndRemoveQueries_discipline single c add rem s :
  wp (addAndRemoveQueries c add rem) s (pointerDiscipline single (cvr s)).
Proof.
  unfold addAndRemoveQueries.
  repeat disc_step.
  destruct (trackQueries _ _ _) as [[nv qp] u].
  repeat disc_step.
  destruct (deleteUnreferencedRows _ _) as [r u'].
  repeat disc_step.
  apply discipline_flush. keeps_auto.
Qed.

Lemma assertSynced_silent : keeps silent assertSynced.
Proof. unfold assertSynced. keeps_auto. Qed.

Lemma syncQueryPipelineSet_discipline single s :
  wp syncQueryPipelineSet s (pointerDiscipline single (cvr s)).
Proof.
  unfold syncQueryPipelineSet, loadedCVR.
  repeat disc_step.
  apply discipline_then_silent; [|intros; apply assertSynced_silent].
  match goal with |- context [if ?b then _ else _] => destruct b end.
  - apply addAndRemoveQueries_discipline.
  - eapply wp_conseq; [apply catchupClients_keeps|].
    cbn beta. intros r s' e [V Q]. apply discipline_noFlush; auto.
Qed.

Lemma patchQueries_discipline cid patch s :
  wp (patchQueries cid patch) s (pointerDiscipline false (cvr s)).
Proof.
  unfold patchQueries, loadedCVR.
  disc_step.
  apply discipline_seq.
  - destruct (Nat.ltb 0 (length patch)).
    + destruct (fold_left _ _ _) as [u added].
      apply wp_bind. unfold flushConfigUpdater. wp_step.
      destruct (flushConfig u (cvrStore s0)) as [r st'].
      do 2 wp_step. destruct r as [err|c']; cbn [liftExt].
      * apply wp_raise. split; [|discriminate]. split; [reflexivity|].
        intros err' [Hin|[]]. injection Hin as <-. exists [].
        split; [reflexivity|]. split; [reflexivity|]. split; [reflexivity|].
        split; [discriminate|]. intros h [Hh|[]]. discriminate.
      * apply wp_ret. cbn. split; [split|].
        -- reflexivity.
        -- intros err [Hin|[]]. discriminate.
        -- intros _ _ h [Hh|[]]. discriminate.
    + apply wp_ret. split; [apply discipline_noFlush; auto|]. intros _ _ h [].
  - intros _ s1. wp_step. destruct (initialized (pipelines s1)).
    + apply syncQueryPipelineSet_discipline.
    + apply wp_ret. apply discipline_noFlush; auto.
Qed.

(** C2: in [#advancePipelines], [#addAndRemoveQueries] and [#patchQueries]
    the CVR pointer is, at the end, the snapshot returned by the last
    successful flush of the operation, or the one it started with; when a
    flush raises, that flush is the last call made, its exception is the
    operation's, the pointer holds what it held before that flush (for the
    first two operations, which flush once, what it held at the start), and
    no poke has been ended.  [start] sets the pointer to the loaded
    snapshot, or leaves it when the load raises. *)
Theorem cvr_pointer_moves_only_on_flush :
  (forall s,
      let x := advancePipelines s in
      pointerDiscipline true (cvr s) (results x) (fields x) (calls x)) /\
  (forall c addQueries removeQueries s,
      let x := addAndRemoveQueries c addQueries removeQueries s in
      pointerDiscipline true (cvr s) (results x) (fields x) (calls x)) /\
  (forall clientID desiredQueriesPatch s,
      let x := patchQueries clientID desiredQueriesPatch s in
      pointerDiscipline false (cvr s) (results x) (fields x) (calls x)) /\
  (forall s,
      let x := start s in
      calls x = [] /\
      match fst (load (cvrStore s)) with
      | inr c => results x = Ok tt /\ cvr (fields x) = Some c
      | inl err => results x = Err (External err) /\ cvr (fields x) = cvr s
      end).
Proof.
  split; [|split; [|split]].
  - intros s. apply advancePipelines_discipline.
  - intros. apply addAndRemoveQueries_discipline.
  - intros. apply patchQueries_discipline.
  - intros s. cbv zeta. unfold start, bind, get. cbn [results fields calls fst snd].
    destruct (load (cvrStore s)) as [[err|c] st']; cbn; auto.
Qed.

(** ** Catching clients up *)

Lemma bind_run {A B} (m : M A) (f : A -> M B) s a s1 e1 :
  m s = (Ok a, s1, e1) ->
  bind m f s = (results (f a s1), fields (f a s1), e1 ++ calls (f a s1)).
Proof. intros H. unfold bind. now rewrite H. Qed.

Lemma bind_run_err {A B} (m : M A) (f : A -> M B) s x s1 e1 :
  m s = (Err x, s1, e1) -> bind m f s = (Err x, s1, e1).
Proof. intros H. unfold bind. now rewrite H. Qed.

Lemma run_eta {A} (x : Result A * ViewSyncerService * list Event) :
  (results x, fields x, calls x) = x.
Proof. now destruct x as [[? ?] ?]. Qed.

Lemma forEach_run {A} (f : A -> M unit) (g : A -> list Event) l s :
  (forall a, f a s = (Ok tt, s, g a)) ->
  forEach f l s = (Ok tt, s, flat_map g l).
Proof.
  intros H. induction l as [|a l IH]; cbn [forEach flat_map]; auto.
  rewrite (bind_run _ _ _ _ _ _ (H a)). now rewrite IH.
Qed.

Lemma addPatchAll_run pokers p s :
  addPatchAll pokers p s = (Ok tt, s, broadcast pokers p).
Proof.
  unfold addPatchAll, broadcast.
  rewrite (forEach_run _ (fun poker => [AddPatch (pkHandler poker) p]))
    by reflexivity.
  f_equal; induction pokers; cbn; auto; now rewrite IHpokers.
Qed.

Lemma startPokes_run v s :
  let pokers := map (fun c => mkPoker (hid c) v) (avalues (clients s)) in
  startPokes v s
  = (Ok pokers, s, map (fun p => StartPoke (pkHandler p) v) pokers).
Proof.
  cbv zeta. unfold startPokes.
  unfold bind at 1. cbn [get results fields calls fst snd app].
  rewrite (bind_run _ _ _ tt s
             (map (fun p => StartPoke (pkHandler p) v)
                  (map (fun c => mkPoker (hid c) v) (avalues (clients s))))).
  - cbn. now rewrite app_nil_r.
  - rewrite (forEach_run _ (fun p => [StartPoke (pkHandler p) (pkCookie p)]))
      by reflexivity.
    f_equal; induction (avalues (clients s)); cbn; auto; now f_equal.
Qed.

Lemma endPokes_run pokers : forall s,
  wp (forEach endPoke pokers) s
     (fun r _ e => r = Ok tt /\ e = map (fun p => PokeEnd (pkHandler p)) pokers).
Proof.
  induction pokers as [|p l IH]; intros s; cbn [forEach map].
  - apply wp_ret. auto.
  - apply wp_bind. unfold endPoke at 1. apply wp_emit.
    unfold wp at 1. cbn [modify results fields calls fst snd].
    eapply wp_conseq; [apply IH|].
    cbn beta. intros r s' e [H1 H2]. subst. auto.
Qed.

Lemma bind_assoc {A B C} (m : M A) (f : A -> M B) (g : B -> M C) s :
  bind (bind m f) g s = bind m (fun a => bind (f a) g) s.
Proof.
  unfold bind. cbv zeta. destruct (m s) as [[[a|e] s1] e1]; cbn; auto.
  destruct (f a s1) as [[[b|e] s2] e2]; cbn; auto.
  destruct (g b s2) as [[r s3] e3]; cbn. now rewrite app_assoc.
Qed.

Lemma bind_get {A} (f : ViewSyncerService -> M A) s : bind get f s = f s s.
Proof. unfold bind. cbn. apply run_eta. Qed.

Lemma bind_ret {A B} (a : A) (f : A -> M B) s : bind (ret a) f s = f a s.
Proof. unfold bind. cbn. apply run_eta. Qed.

Lemma bind_raise {A B} e (f : A -> M B) s : bind (raise e) f s = (Err e, s, []).
Proof. reflexivity. Qed.

Lemma sendRows_run pokers rows s :
  forEach (sendRowPatch pokers) rows s
  = (outcome (snd (materialized (pipelines s) rows)), s,
     flat_map (broadcast pokers) (fst (materialized (pipelines s) rows))).
Proof.
  induction rows as [|row rows IH]; cbn [forEach materialized]; auto.
  unfold sendRowPatch at 1, materialize.
  rewrite !bind_assoc, bind_get.
  destruct (rowPatch (pipelines s) row) as [x|e] eqn:E; cbn [liftResult].
  - rewrite bind_ret. rewrite (bind_run _ _ _ _ _ _ (addPatchAll_run pokers x s)).
    rewrite IH. destruct (materialized (pipelines s) rows) as [xs m]. reflexivity.
  - now rewrite bind_raise.
Qed.

Lemma materialized_app p l1 l2 :
  materialized p (l1 ++ l2)
  = match snd (materialized p l1) with
    | Some e => materialized p l1
    | None => (fst (materialized p l1) ++ fst (materialized p l2),
               snd (materialized p l2))
    end.
Proof.
  induction l1 as [|row l1 IH]; cbn [app materialized].
  - now destruct (materialized p l2).
  - destruct (rowPatch p row); cbn; auto.
    rewrite IH. destruct (materialized p l1) as [xs [e|]]; cbn; auto.
Qed.

Lemma sendBatches_run pokers batches s :
  forEach (forEach (sendRowPatch pokers)) batches s
  = (outcome (snd (materialized (pipelines s) (concat batches))), s,
     flat_map (broadcast pokers)
              (fst (materialized (pipelines s) (concat batches)))).
Proof.
  induction batches as [|rows batches IH]; cbn [forEach concat]; auto.
  rewrite materialized_app.
  pose proof (sendRows_run pokers rows s) as R.
  destruct (materialized (pipelines s) rows) as [xs [e|]]; cbn [fst snd outcome] in *.
  - now rewrite (bind_run_err _ _ _ _ _ _ R).
  - rewrite (bind_run _ _ _ _ _ _ R). rewrite IH. cbn [results fields calls fst snd].
    now rewrite flat_map_app.
Qed.

Lemma rowPatch_spec p r :
  match rowPatch p r with
  | Ok x => isPatchOf p r x
  | Err e => isMissing p r /\ e = MissingRowError (rpTable r) (rpRowKey r)
  end.
Proof.
  unfold rowPatch, isPatchOf, isMissing.
  destruct (rpRefCounts r); auto.
  destruct (getRow _ _ p) eqn:G; [eauto|].
  split; auto. split; [discriminate | auto].
Qed.

Lemma materialized_spec p rows :
  exists pre,
    Forall2 (isPatchOf p) pre (fst (materialized p rows)) /\
    match snd (materialized p rows) with
    | None => rows = pre
    | Some e =>
        exists r post,
          rows = pre ++ r :: post /\ isMissing p r /\
          e = MissingRowError (rpTable r) (rpRowKey r)
    end.
Proof.
  induction rows as [|r rows (pre & F & T)]; cbn [materialized].
  - exists []. split; [constructor | reflexivity].
  - pose proof (rowPatch_spec p r) as R.
    destruct (rowPatch p r) as [x|e].
    + destruct (materialized p rows) as [xs m]. cbn [fst snd] in *.
      exists (r :: pre). split; [now constructor|].
      destruct m as [e|].
      * destruct T as (r' & post & -> & T). exists r', post. auto.
      * now subst.
    + exists []. split; [constructor|]. cbn [snd].
      destruct R as [R1 R2]. exists r, rows. auto.
Qed.

(** C7, as the service has it: [#catchupClients] reads one catch-up scan
    from the store, from the least of the CVR's version and the versions of all
    connected clients, and passes every patch of it to [addPatch] of every
    poker, those of clients already at the CVR's version included: after
    the [startPoke] calls (made only without [usePokers]) come the config
    patches, each on every poker, then the row patches in scan order, then
    (only without [usePokers]) the [end] calls.  A scanned record without
    ref counts is sent as a delete, one with ref counts as a put of the row
    [getRow] returns; the first referenced record with no row raises the
    missing-row error after the patches before it were sent. *)
Theorem catchupClients_broadcasts
    (c : CVRSnapshot) (exclude : list string)
    (usePokers : option (list PokeHandler)) (s : ViewSyncerService) :
  let from := catchupFrom (clients s) c in
  let handlers := avalues (clients s) in
  let fresh := map (fun h => mkPoker (hid h) (version c)) handlers in
  let pokers := match usePokers with Some ps => ps | None => fresh end in
  let starts :=
    match usePokers with
    | Some _ => []
    | None => map (fun p => StartPoke (pkHandler p) (version c)) fresh
    end in
  let ends :=
    match usePokers with
    | Some _ => []
    | None => map (fun p => PokeEnd (pkHandler p)) fresh
    end in
  let stream := catchupRowPatches from c exclude (cvrStore s) in
  let scanned := concat (fst stream) in
  let sentRows := materialized (pipelines s) scanned in
  let x := catchupClients c exclude usePokers s in
  (cmpVersions from (Some (version c)) <> Gt /\
   (forall h, In h handlers -> cmpVersions from (hVersion h) <> Gt) /\
   (from = Some (version c) \/ exists h, In h handlers /\ from = hVersion h)) /\
  (exists pre,
      Forall2 (isPatchOf (pipelines s)) pre (fst sentRows) /\
      match snd sentRows with
      | None => scanned = pre
      | Some e =>
          exists r post,
            scanned = pre ++ r :: post /\ isMissing (pipelines s) r /\
            e = MissingRowError (rpTable r) (rpRowKey r)
      end) /\
  match catchupConfigPatches from c (cvrStore s) with
  | inl err => x = (Err (External err), s, starts)
  | inr configPatches =>
      let sent :=
        starts ++ flat_map (broadcast pokers) (configPatches ++ fst sentRows) in
      match snd sentRows, snd stream with
      | Some e, _ => x = (Err e, s, sent)
      | None, Some err => x = (Err (External err), s, sent)
      | None, None => results x = Ok tt /\ calls x = sent ++ ends
      end
  end.
Proof.
  cbv zeta. split; [|split; [apply materialized_spec|]].
  - unfold catchupFrom.
    pose proof (fold_min_le (map hVersion (avalues (clients s)))
                            (Some (version c))) as H.
    cbv zeta in H. destruct H as (H1 & H2 & H3).
    split; [exact H1|]. split.
    + intros h Hh. apply H2. now apply in_map.
    + destruct H3 as [H3|H3]; [now left | right].
      apply in_map_iff in H3. destruct H3 as (h & E & Hh). eauto.
  - unfold catchupClients.
    assert (P : (match usePokers with
                 | Some ps => ret ps
                 | None => startPokes (version c)
                 end) s
                = (Ok (match usePokers with
                       | Some ps => ps
                       | None => map (fun h => mkPoker (hid h) (version c))
                                     (avalues (clients s))
                       end), s,
                   match usePokers with
                   | Some _ => []
                   | None => map (fun p => StartPoke (pkHandler p) (version c))
                               (map (fun h => mkPoker (hid h) (version c))
                                    (avalues (clients s)))
                   end)).
    { destruct usePokers; [reflexivity | apply startPokes_run]. }
    rewrite (bind_run _ _ _ _ _ _ P). clear P.
    set (pokers := match usePokers with Some ps => ps | None => _ end).
    set (starts := match usePokers with Some _ => [] | None => _ end).
    rewrite bind_get.
    destruct (catchupConfigPatches (catchupFrom (clients s) c) c (cvrStore s))
      as [err|configPatches]; cbn [liftExt].
    + rewrite bind_raise. cbn [results fields calls fst snd].
      now rewrite app_nil_r.
    + rewrite bind_ret.
      rewrite (bind_run _ _ _ _ _ _
                 (forEach_run _ _ configPatches s
                    (fun p => addPatchAll_run pokers p s))).
      pose proof (sendBatches_run pokers
                    (fst (catchupRowPatches (catchupFrom (clients s) c) c
                                            exclude (cvrStore s))) s) as B.
      destruct (materialized (pipelines s) _) as [xs m]. cbn [fst snd] in *.
      destruct m as [e|]; cbn [outcome] in B.
      * rewrite (bind_run_err _ _ _ _ _ _ B). cbn [results fields calls fst snd].
        now rewrite flat_map_app.
      * rewrite (bind_run _ _ _ _ _ _ B).
        destruct (snd (catchupRowPatches _ _ _ _)) as [err|]; cbn [endOfStream].
        -- rewrite bind_raise. cbn [results fields calls fst snd].
           now rewrite app_nil_r, flat_map_app.
        -- rewrite bind_ret. cbn [results fields calls fst snd].
           rewrite flat_map_app, <- !app_assoc.
           subst pokers. destruct usePokers as [ps|].
           ++ cbn. now rewrite !app_nil_r.
           ++ pose proof (endPokes_run
                            (map (fun h => mkPoker (hid h) (version c))
                                 (avalues (clients s))) s) as [E1 E2].
              rewrite E1, E2. auto.
Qed.

(** ** Reconciling the pipeline with the CVR *)

Lemma catchupClients_pokes c exclude :
  keeps isPoke (catchupClients c exclude None).
Proof.
  unfold catchupClients, startPokes, addPatchAll, sendRowPatch, materialize,
    addPatchAll, endPoke.
  repeat keeps_step.
Qed.

Lemma In_desiredClientQueries c q :
  In q (desiredClientQueries c) <-> desiredIn c q.
Proof.
  unfold desiredClientQueries, desiredIn. rewrite filter_In. split.
  - intros [_ H]. destruct (alookup q (queries c)); [eauto | discriminate].
  - intros (r & L & D). rewrite L. split; auto.
    destruct (in_dec string_dec q (akeys (queries c))) as [i|n]; auto.
    apply alookup_None in n. congruence.
Qed.

Lemma nonempty_ltb {A} (l : list A) : Nat.ltb 0 (length l) = true <-> l <> [].
Proof. destruct l; cbn; split; congruence. Qed.

Lemma wp_trivial {A} (m : M A) s : wp m s (fun _ _ _ => True).
Proof. exact I. Qed.

Lemma assertSynced_post {A} (m : M A) s :
  wp (m ;; assertSynced) s (fun r s' _ =>
    r = Ok tt ->
    exists c', cvr s' = Some c' /\
               stateVersion (version c') = currentVersion (pipelines s')).
Proof.
  apply wp_bind. eapply wp_conseq; [apply wp_trivial|].
  cbn beta. intros [a|e] s1 e1 _; [|discriminate].
  unfold assertSynced. wp_step. destruct (cvr s1) as [c'|] eqn:C.
  - unfold wp, assert.
    destruct (String.eqb _ _) eqn:E; cbn; [|discriminate].
    intros _. exists c'. split; auto. now apply String.eqb_eq.
  - apply wp_raise. discriminate.
Qed.

(** C3: with the CVR loaded and the pipelines initialized,
    [#syncQueryPipelineSet] adds the desired queries (internal, or with a
    non-empty [desiredBy]) that the pipeline has not hydrated and removes
    the CVR's queries that are not desired; it runs [#addAndRemoveQueries]
    on those two lists when one of them is non-empty (and then calls
    [trackQueries] with them), and [#catchupClients] otherwise (and then
    never calls [trackQueries]); when it returns, the CVR's state version
    is the pipeline's current version. *)
Theorem syncQueryPipelineSet_reconciles (s : ViewSyncerService) (c : CVRSnapshot) :
  cvr s = Some c ->
  initialized (pipelines s) = true ->
  let hydrated := addedQueries (pipelines s) in
  let toAdd := difference (desiredClientQueries c) hydrated in
  let toRemove := difference (akeys (queries c)) (desiredClientQueries c) in
  let x := syncQueryPipelineSet s in
  (forall q, In q toAdd <-> desiredIn c q /\ ~ In q hydrated) /\
  (forall q, In q toRemove <-> In q (akeys (queries c)) /\ ~ desiredIn c q) /\
  (toAdd <> [] \/ toRemove <> [] ->
   x = (addAndRemoveQueries c toAdd toRemove ;; assertSynced) s /\
   In (TrackQueries toAdd toRemove) (calls x)) /\
  (toAdd = [] /\ toRemove = [] ->
   x = (catchupClients c [] None ;; assertSynced) s /\
   forall a r, ~ In (TrackQueries a r) (calls x)) /\
  (results x = Ok tt ->
   exists c', cvr (fields x) = Some c' /\
              stateVersion (version c')
              = currentVersion (pipelines (fields x))).
Proof.
  intros C I. cbv zeta.
  set (toAdd := difference (desiredClientQueries c) (addedQueries (pipelines s))).
  set (toRemove := difference (akeys (queries c)) (desiredClientQueries c)).
  assert (E : syncQueryPipelineSet s
              = ((if Nat.ltb 0 (length toAdd) || Nat.ltb 0 (length toRemove)
                  then addAndRemoveQueries c toAdd toRemove
                  else catchupClients c [] None) ;; assertSynced) s).
  { unfold syncQueryPipelineSet, loadedCVR.
    rewrite bind_assoc, bind_get, C, bind_ret, bind_get, I.
    unfold assert. rewrite bind_ret. reflexivity. }
  split; [|split; [|split; [|split]]].
  - intros q. unfold toAdd. rewrite In_difference, In_desiredClientQueries. tauto.
  - intros q. unfold toRemove. rewrite In_difference, In_desiredClientQueries. tauto.
  - intros H.
    assert (B : Nat.ltb 0 (length toAdd) || Nat.ltb 0 (length toRemove) = true).
    { apply orb_true_iff. rewrite !nonempty_ltb. exact H. }
    rewrite E, B. split; [reflexivity|].
    change (wp (addAndRemoveQueries c toAdd toRemove ;; assertSynced) s
               (fun _ _ e => In (TrackQueries toAdd toRemove) e)).
    apply wp_bind.
    eapply wp_conseq with
      (Q := fun (_ : Result unit) (_ : ViewSyncerService) e =>
              In (TrackQueries toAdd toRemove) e).
    + unfold addAndRemoveQueries. rewrite B.
      apply wp_bind. apply wp_ret. wp_step.
      destruct (trackQueries _ _ _) as [[nv qp] u].
      wp_step. eapply wp_conseq; [apply wp_trivial|].
      cbn beta. intros. now left.
    + cbn beta. intros [a|e] s1 e1 Hin; [|exact Hin].
      eapply wp_conseq; [apply wp_trivial|]. cbn beta. intros.
      apply in_or_app. now left.
  - intros [Ha Hr].
    assert (B : Nat.ltb 0 (length toAdd) || Nat.ltb 0 (length toRemove) = false).
    { rewrite Ha, Hr. reflexivity. }
    rewrite E, B. split; [reflexivity|].
    intros a r.
    change (wp (catchupClients c [] None ;; assertSynced) s
               (fun _ _ e => ~ In (TrackQueries a r) e)).
    assert (K : keeps isPoke (catchupClients c [] None ;; assertSynced)).
    { apply keeps_bind; [apply catchupClients_pokes|].
      intros _. unfold assertSynced. repeat keeps_step. }
    eapply wp_conseq; [apply K|]. cbn beta. intros _ s' e [_ F] Hin.
    rewrite forallb_forall in F. apply F in Hin. discriminate.
  - rewrite E. apply assertSynced_post.
Qed.

(** ** Staging row changes *)

Lemma firstRow_app k seg ch :
  firstRow k (seg ++ [ch])
  = match firstRow k seg with
    | Some r => Some r
    | None => if String.eqb (changeKey ch) k then rcRow ch else None
    end.
Proof.
  induction seg as [|c seg IH]; cbn.
  - destruct (String.eqb (changeKey ch) k); auto. now destruct (rcRow ch).
  - destruct (String.eqb (changeKey c) k); auto. now destruct (rcRow c).
Qed.

Lemma firstID_app k seg ch :
  firstID k (seg ++ [ch])
  = match firstID k seg with
    | Some i => Some i
    | None => if String.eqb (changeKey ch) k then Some (changeID ch) else None
    end.
Proof.
  induction seg as [|c seg IH]; cbn; auto.
  destruct (String.eqb (changeKey c) k); auto.
Qed.

Lemma firstID_None_concerns k q seg :
  firstID k seg = None -> existsb (concerns k q) seg = false.
Proof.
  induction seg as [|c seg IH]; cbn; auto. unfold concerns at 1.
  destruct (String.eqb (changeKey c) k); [discriminate|]. auto.
Qed.

Lemma firstID_None_firstRow k seg : firstID k seg = None -> firstRow k seg = None.
Proof.
  induction seg as [|c seg IH]; cbn; auto.
  destruct (String.eqb (changeKey c) k); [discriminate|]. auto.
Qed.

Lemma netCount_app k q seg ch :
  netCount k q (seg ++ [ch])
  = if concerns k q ch
    then bumped q (netCount k q seg) (delta ch)
    else netCount k q seg.
Proof.
  unfold netCount, bumped. cbv zeta.
  rewrite existsb_app, filter_app, map_app. cbn [existsb filter].
  rewrite orb_false_r.
  assert (S : forall l1 l2, fold_right Z.add 0%Z (l1 ++ l2)
                            = (fold_right Z.add 0 l1 + fold_right Z.add 0 l2)%Z).
  { induction l1; intros; cbn; auto. rewrite IHl1. lia. }
  rewrite S.
  destruct (concerns k q ch); cbn [map fold_right app].
  - rewrite orb_true_r.
    destruct (String.eqb q PROTO); [reflexivity|].
    destruct (existsb (concerns k q) seg) eqn:E.
    + destruct (mem q OBJECT_PROTOTYPE_FUNCTIONS); do 2 f_equal. lia.
    + assert (F : filter (concerns k q) seg = []).
      { clear -E. induction seg as [|c seg IH]; cbn in *; auto.
        apply orb_false_iff in E. destruct E as [E1 E2]. rewrite E1. auto. }
      rewrite F. cbn [map app fold_right].
      destruct (mem q OBJECT_PROTOTYPE_FUNCTIONS); do 2 f_equal. lia.
  - rewrite orb_false_r, app_nil_r.
    destruct (String.eqb q PROTO); [reflexivity|].
    destruct (existsb _ seg); auto. do 2 f_equal.
    destruct (mem q OBJECT_PROTOTYPE_FUNCTIONS); f_equal. cbn. lia.
Qed.

Lemma alookup_bumpRefCount q q' d rc :
  alookup q' (bumpRefCount q d rc)
  = if String.eqb q q'
    then bumped q (alookup q rc) d
    else alookup q' rc.
Proof.
  unfold bumpRefCount. destruct (String.eqb q q') eqn:E.
  - apply String.eqb_eq in E. subst q'.
    destruct (bumped q (alookup q rc) d) as [v|] eqn:B.
    + apply alookup_aset_eq.
    + unfold bumped in B.
      destruct (alookup q rc) as [[n|m ds]|]; [discriminate..|reflexivity].
  - apply String.eqb_neq in E.
    destruct (bumped q (alookup q rc) d); [|reflexivity].
    apply alookup_aset_ne. congruence.
Qed.

(** For a query hash that names nothing of [Object.prototype] the count is
    a number: the sum of [+1] for each change with a row and [-1] for each
    without. *)
Lemma netCount_of_a_plain_hash k q seg :
  String.eqb q PROTO = false -> mem q OBJECT_PROTOTYPE_FUNCTIONS = false ->
  netCount k q seg
  = if existsb (concerns k q) seg
    then Some (Count (fold_right Z.add 0%Z
                        (map delta (filter (concerns k q) seg))))
    else None.
Proof. intros P F. unfold netCount. cbv zeta. now rewrite P, F. Qed.

Lemma NoDup_akeys_aset {V} k (v : V) m :
  NoDup (akeys m) -> NoDup (akeys (aset k v m)).
Proof.
  intros H. destruct (alookup k m) eqn:L.
  - rewrite akeys_aset_present; congruence.
  - rewrite akeys_aset_absent; auto.
    apply alookup_None in L.
    apply NoDup_app; auto; [repeat constructor; auto | ].
    intros x Hx [<-|[]]. contradiction.
Qed.

Lemma length_aset {V} k (v : V) m :
  length (aset k v m)
  = match alookup k m with Some _ => length m | None => S (length m) end.
Proof.
  induction m as [|[k' v'] m IH]; cbn; auto.
  destruct (String.eqb k k'); cbn; auto. rewrite IH.
  destruct (alookup k m); auto.
Qed.

Lemma stagedEntry_other k seg ch entry :
  changeKey ch <> k -> stagedEntry k seg entry -> stagedEntry k (seg ++ [ch]) entry.
Proof.
  intros Hne. apply String.eqb_neq in Hne.
  unfold stagedEntry. rewrite firstID_app, firstRow_app, Hne.
  destruct entry as [[id u]|].
  - intros (H1 & H2 & H3). rewrite H1. split; auto. split.
    + intros q. rewrite netCount_app. unfold concerns. rewrite Hne. cbn. auto.
    + destruct (firstRow k seg); auto.
  - intros ->. reflexivity.
Qed.

(** The entry that [#processChanges] works on for a change: the one of the
    map, or a fresh one. *)
Lemma stagedEntry_current seg rows ch :
  stagedFrom seg rows ->
  let entry := match alookup (changeKey ch) rows with
               | Some e => e
               | None => (changeID ch, mkRowUpdate None None [])
               end in
  firstID (changeKey ch) (seg ++ [ch]) = Some (fst entry) /\
  (forall q, alookup q (refCounts (snd entry)) = netCount (changeKey ch) q seg) /\
  match firstRow (changeKey ch) seg with
  | Some row =>
      ruVersion (snd entry) = rowVersion row /\ rowVersion row <> None /\
      ruContents (snd entry) = Some (adelete ZERO_VERSION_COLUMN_NAME row)
  | None => ruVersion (snd entry) = None /\ ruContents (snd entry) = None
  end.
Proof.
  intros [_ H]. specialize (H (changeKey ch)). cbv zeta.
  rewrite firstID_app, String.eqb_refl. unfold stagedEntry in H.
  destruct (alookup (changeKey ch) rows) as [[id u]|]; cbn [fst snd].
  - destruct H as (H1 & H2 & H3). rewrite H1. auto.
  - rewrite H. split; auto. split.
    + intros q. cbn. unfold netCount. cbv zeta.
      rewrite (firstID_None_concerns _ q _ H). now destruct (String.eqb q PROTO).
    + rewrite (firstID_None_firstRow _ _ H). auto.
Qed.

Lemma rowVersion_falsy row v : rowVersion row = Some v -> falsy (Some v) = false.
Proof.
  unfold rowVersion, falsy.
  destruct (alookup _ row) as [[| | |w]|]; try discriminate.
  destruct (Nat.eqb (String.length w) 0) eqn:E; [discriminate|].
  intros [= <-]. destruct w; [discriminate | reflexivity].
Qed.

Lemma stageChange_spec seg rows ch :
  stagedFrom seg rows ->
  match stageChange rows ch with
  | Ok rows' =>
      stagedFrom (seg ++ [ch]) rows' /\
      length rows' = match alookup (changeKey ch) rows with
                     | Some _ => length rows
                     | None => S (length rows)
                     end /\
      (forall row, ~ firstSeenInvalid seg ch row)
  | Err e => exists row, e = InvalidVersionError row /\ firstSeenInvalid seg ch row
  end.
Proof.
  intros St. pose proof (stagedEntry_current seg rows ch St) as Cur.
  cbv zeta in Cur. unfold stageChange.
  change (rowIDHash (mkRowID "" (rcTable ch) (rcRowKey ch))) with (changeKey ch).
  change (mkRowID "" (rcTable ch) (rcRowKey ch)) with (changeID ch).
  set (entry := match alookup (changeKey ch) rows with
                | Some e => e
                | None => (changeID ch, mkRowUpdate None None [])
                end) in *.
  destruct entry as [id u] eqn:Eentry. cbn [fst snd] in Cur.
  destruct Cur as (C1 & C2 & C3).
  (* the map after the change, for any version and contents *)
  assert (Staged : forall v cts,
    match firstRow (changeKey ch) (seg ++ [ch]) with
    | Some row => v = rowVersion row /\ rowVersion row <> None /\
                  cts = Some (adelete ZERO_VERSION_COLUMN_NAME row)
    | None => v = None /\ cts = None
    end ->
    stagedFrom (seg ++ [ch])
      (aset (changeKey ch)
         (id, mkRowUpdate v cts
                (bumpRefCount (queryHash ch)
                   (match rcRow ch with Some _ => 1%Z | None => (-1)%Z end)
                   (refCounts u))) rows)).
  { intros v cts Hv. destruct St as [St1 St2]. split.
    - now apply NoDup_akeys_aset.
    - intros k. destruct (string_dec (changeKey ch) k) as [<-|Hne].
      + rewrite alookup_aset_eq. unfold stagedEntry. split; [exact C1|].
        split; [|exact Hv].
        intros q. cbn [refCounts]. rewrite alookup_bumpRefCount, netCount_app.
        unfold concerns. rewrite String.eqb_refl. cbn [andb].
        rewrite <- C2. fold (delta ch).
        destruct (String.eqb (queryHash ch) q) eqn:Eq; [|reflexivity].
        apply String.eqb_eq in Eq. now subst q.
      + rewrite alookup_aset_ne by congruence.
        apply stagedEntry_other; auto. }
  assert (Len : forall e', length (aset (changeKey ch) e' rows)
                = match alookup (changeKey ch) rows with
                  | Some _ => length rows
                  | None => S (length rows)
                  end).
  { intros. apply length_aset. }
  rewrite firstRow_app, String.eqb_refl in Staged.
  destruct (rcRow ch) as [row|] eqn:R.
  - destruct (firstRow (changeKey ch) seg) as [row0|] eqn:F.
    + (* contents already seen in this batch *)
      destruct C3 as (V1 & V2 & V3).
      destruct (rowVersion row0) as [v0|] eqn:RV; [|congruence].
      rewrite V1, (rowVersion_falsy _ _ RV).
      split; [apply Staged; auto|]. split; [apply Len|].
      intros r (_ & Habs & _). congruence.
    + (* first row seen for the key *)
      destruct C3 as [V1 V2]. rewrite V1. cbn [falsy].
      pose proof (Staged (rowVersion row)
                    (Some (adelete ZERO_VERSION_COLUMN_NAME row))) as S'.
      assert (Bad : rowVersion row = None ->
                    exists r, InvalidVersionError row = InvalidVersionError r /\
                              firstSeenInvalid seg ch r).
      { intros Hv. exists row. split; [reflexivity|]. repeat split; auto. }
      destruct (rowVersion row) as [v|] eqn:RV.
      * assert (Hgo : alookup ZERO_VERSION_COLUMN_NAME row = Some (JStr v) /\
                      Nat.eqb (String.length v) 0 = false).
        { unfold rowVersion in RV.
          destruct (alookup ZERO_VERSION_COLUMN_NAME row) as [[| | |w]|];
            try discriminate.
          destruct (Nat.eqb (String.length w) 0) eqn:B; [discriminate|].
          injection RV as ->. auto. }
        destruct Hgo as [A B]. rewrite A, B.
        split; [apply S'; split; [reflexivity|]; split; [discriminate|reflexivity]|].
        split; [apply Len|].
        intros r (Hr & _ & Hv). rewrite R in Hr. injection Hr as <-. congruence.
      * assert (Hgo : match alookup ZERO_VERSION_COLUMN_NAME row with
                      | Some (JStr w) => Nat.eqb (String.length w) 0 = true
                      | _ => True
                      end).
        { unfold rowVersion in RV.
          destruct (alookup ZERO_VERSION_COLUMN_NAME row) as [[| | |w]|]; auto.
          destruct (Nat.eqb (String.length w) 0); [reflexivity|discriminate]. }
        destruct (alookup ZERO_VERSION_COLUMN_NAME row) as [[| | |w]|];
          try (apply Bad; reflexivity).
        rewrite Hgo. apply Bad; reflexivity.
  - split; [apply Staged|]. 2: split; [apply Len|].
    + destruct (firstRow (changeKey ch) seg); auto.
    + intros r (Hr & _). congruence.
Qed.

(** ** Paging the staged rows *)

Lemma processBatch_run seg rows u pokers s :
  processBatch rows u pokers s
  = (match fst (received rows u (cvrStore s)) with
     | inr _ => Ok (snd (received rows u (cvrStore s)))
     | inl e => Err (External e)
     end, s,
     pageCalls pokers (seg, rows, fst (received rows u (cvrStore s)))).
Proof.
  unfold processBatch, pageCalls, pageRows, pageAnswer. rewrite bind_get.
  destruct (received rows u (cvrStore s)) as [r u']. cbn [fst snd].
  unfold bind at 1. cbn [emit results fields calls fst snd].
  destruct r as [e|patches]; cbn [liftExt].
  - rewrite bind_raise. reflexivity.
  - rewrite bind_ret.
    rewrite (bind_run _ _ _ _ _ _
               (forEach_run _ _ patches s (fun p => addPatchAll_run pokers p s))).
    cbn. now rewrite app_nil_r.
Qed.

Lemma mod_page (n : N) :
  (0 < n <= CURSOR_PAGE_SIZE)%N ->
  N.eqb (n mod CURSOR_PAGE_SIZE) 0 = N.eqb n CURSOR_PAGE_SIZE.
Proof.
  intros [H1 H2]. destruct (N.eq_dec n CURSOR_PAGE_SIZE) as [->|Hne].
  - reflexivity.
  - rewrite N.mod_small by lia.
    destruct (N.eqb_spec n 0), (N.eqb_spec n CURSOR_PAGE_SIZE); try lia; auto.
Qed.

Lemma stagedFrom_nil : stagedFrom [] [].
Proof. split; [constructor | intros k; reflexivity]. Qed.

Lemma stagedFrom_nonempty seg ch rows : stagedFrom (seg ++ [ch]) rows -> rows <> [].
Proof.
  intros [_ H] ->. specialize (H (changeKey ch)). cbn in H.
  rewrite firstID_app, String.eqb_refl in H. destruct (firstID _ seg); discriminate.
Qed.

Lemma bind_ext {A B} (m : M A) (f g : A -> M B) s :
  (forall a s1, f a s1 = g a s1) -> bind m f s = bind m g s.
Proof.
  intros H. unfold bind. cbv zeta. destruct (results (m s)); auto.
  now rewrite H.
Qed.

Lemma processLoop_app pokers pre : forall post rows u s,
  processLoop (pre ++ post) rows u pokers s
  = bind (processLoop pre rows u pokers)
         (fun ru => processLoop post (fst ru) (snd ru) pokers) s.
Proof.
  induction pre as [|ch pre IH]; intros; cbn [app processLoop].
  - rewrite bind_ret. reflexivity.
  - rewrite bind_assoc. apply bind_ext. intros rows1 s1.
    rewrite bind_assoc. apply bind_ext. intros [rows2 u2] s2. apply IH.
Qed.

Lemma processLoop_pages pokers changes : forall rows u s seg0,
  stagedFrom seg0 rows -> (size rows < CURSOR_PAGE_SIZE)%N ->
  let x := processLoop changes rows u pokers s in
  fields x = s /\
  exists pages : list Page,
    calls x = flat_map (pageCalls pokers) pages /\
    Forall fullPage pages /\
    match results x with
    | Ok ru =>
        Forall answered pages /\
        exists seg',
          seg0 ++ changes = concat (map pageChanges pages) ++ seg' /\
          stagedFrom seg' (fst ru) /\ (size (fst ru) < CURSOR_PAGE_SIZE)%N
    | Err e =>
        (exists row seg' ch post,
            e = InvalidVersionError row /\ Forall answered pages /\
            seg0 ++ changes = concat (map pageChanges pages) ++ seg' ++ ch :: post /\
            firstSeenInvalid seg' ch row)
        \/ (exists err init pg rest,
               e = External err /\ pages = init ++ [pg] /\
               pageAnswer pg = inl err /\ Forall answered init /\
               seg0 ++ changes = concat (map pageChanges pages) ++ rest)
    end.
Proof.
  induction changes as [|ch rest IH]; intros rows u s seg0 St Sz; cbv zeta;
    cbn [processLoop].
  - cbn. split; auto. exists []. cbn. split; auto. split; [constructor|].
    split; [constructor|]. exists seg0. now rewrite app_nil_r.
  - pose proof (stageChange_spec seg0 rows ch St) as SC.
    destruct (stageChange rows ch) as [rows1|e]; cbn [liftResult].
    + destruct SC as (S1 & S2 & S3). rewrite bind_ret.
      assert (Hsz : (0 < size rows1 <= CURSOR_PAGE_SIZE)%N).
      { pose proof (stagedFrom_nonempty _ _ _ S1) as Hne.
        unfold size in *. destruct rows1; [congruence|].
        destruct (alookup (changeKey ch) rows); cbn [length] in *; lia. }
      rewrite (mod_page _ Hsz).
      destruct (N.eqb_spec (size rows1) CURSOR_PAGE_SIZE) as [Full|NotFull].
      * rewrite bind_assoc.
        pose proof (processBatch_run (seg0 ++ [ch]) rows1 u pokers s) as B.
        destruct (received rows1 u (cvrStore s)) as [[err|patches] u'];
          cbn [fst snd] in B.
        -- rewrite (bind_run_err _ _ _ _ _ _ B). cbn [results fields calls fst snd].
           split; auto. exists [(seg0 ++ [ch], rows1, inl err)].
           cbn [flat_map]. rewrite app_nil_r. split; auto.
           split; [constructor; [split; [exact S1 | exact Full] | constructor]|].
           right. exists err, [], (seg0 ++ [ch], rows1, inl err), rest.
           split; auto. split; auto. split; auto. split; [constructor|].
           cbn. now rewrite app_nil_r, <- app_assoc.
        -- rewrite (bind_run _ _ _ _ _ _ B), bind_ret.
           specialize (IH [] u' s [] stagedFrom_nil ltac:(reflexivity)).
           cbv zeta in IH. destruct IH as (I0 & pages & I1 & I2 & I3).
           cbn [results fields calls fst snd]. split; auto.
           exists ((seg0 ++ [ch], rows1, inr patches) :: pages).
           cbn [flat_map]. rewrite I1. split; auto.
           split; [constructor; [split; [exact S1 | exact Full] | exact I2]|].
           assert (Ans : answered (seg0 ++ [ch], rows1, inr patches))
             by (eexists; reflexivity).
           destruct (results (processLoop rest [] u' pokers s)) as [ru|e].
           ++ destruct I3 as (A1 & seg' & A2 & A3 & A4).
              split; [constructor; auto|]. exists seg'. split; auto.
              cbn [map concat pageChanges fst].
              cbn [app] in A2. rewrite <- !app_assoc, <- A2. reflexivity.
           ++ destruct I3 as [(row & seg' & c & post & A1 & A2 & A3 & A4)
                             |(err & init & pg & rst & A1 & A2 & A3 & A4 & A5)].
              ** left. exists row, seg', c, post.
                 split; [exact A1|]. split; [constructor; auto|].
                 split; [|exact A4].
                 cbn [map concat pageChanges fst].
                 cbn [app] in A3. rewrite <- !app_assoc, <- A3. reflexivity.
              ** right.
                 exists err, ((seg0 ++ [ch], rows1, inr patches) :: init), pg, rst.
                 split; [exact A1|]. split; [now rewrite A2|].
                 split; [exact A3|]. split; [constructor; auto|].
                 cbn [map concat pageChanges fst].
                 cbn [app] in A5. rewrite <- !app_assoc, <- A5. reflexivity.
      * rewrite bind_ret.
        assert (Sz1 : (size rows1 < CURSOR_PAGE_SIZE)%N) by lia.
        specialize (IH rows1 u s (seg0 ++ [ch]) S1 Sz1).
        cbv zeta in IH. destruct IH as (I0 & pages & I1 & I2 & I3).
        split; auto. exists pages. split; auto. split; auto.
        rewrite <- app_assoc in I3. exact I3.
    + rewrite bind_raise. cbn [results fields calls fst snd].
      split; auto. exists []. cbn [flat_map map concat app].
      split; auto. split; [constructor|].
      destruct SC as (row & -> & Inv). left. exists row, seg0, ch, rest. auto.
Qed.

Lemma stagedFrom_empty seg : stagedFrom seg [] -> seg = [].
Proof.
  intros [_ H]. destruct seg as [|ch seg]; auto.
  specialize (H (changeKey ch)). cbn in H. rewrite String.eqb_refl in H.
  discriminate.
Qed.

Lemma processLoop_invalid pokers changes : forall rows u s row,
  results (processLoop changes rows u pokers s) = Err (InvalidVersionError row) ->
  exists pre ch post rows1 u1 e1,
    changes = pre ++ ch :: post /\
    processLoop pre rows u pokers s = (Ok (rows1, u1), s, e1) /\
    stageChange rows1 ch = Err (InvalidVersionError row).
Proof.
  induction changes as [|ch rest IH]; intros rows u s row; cbn [processLoop].
  - discriminate.
  - destruct (stageChange rows ch) as [rows1|e] eqn:E; cbn [liftResult].
    + rewrite bind_ret.
      destruct (N.eqb (size rows1 mod CURSOR_PAGE_SIZE) 0) eqn:Full.
      * rewrite bind_assoc.
        pose proof (processBatch_run [] rows1 u pokers s) as B.
        destruct (received rows1 u (cvrStore s)) as [[err|patches] u'];
          cbn [fst snd] in B.
        -- rewrite (bind_run_err _ _ _ _ _ _ B). discriminate.
        -- rewrite (bind_run _ _ _ _ _ _ B), bind_ret.
           cbn [results fst snd]. intros H.
           destruct (IH _ _ _ _ H) as (pre & c & post & rows2 & u2 & e2 & -> & P & S).
           exists (ch :: pre), c, post, rows2, u2, (pageCalls pokers ([], rows1, inr patches) ++ e2).
           split; [reflexivity|]. split; [|exact S].
           cbn [processLoop]. rewrite E. cbn [liftResult].
           rewrite bind_ret, Full, bind_assoc, (bind_run _ _ _ _ _ _ B), bind_ret.
           now rewrite P.
      * rewrite bind_ret. intros H.
        destruct (IH _ _ _ _ H) as (pre & c & post & rows2 & u2 & e2 & -> & P & S).
        exists (ch :: pre), c, post, rows2, u2, e2.
        split; [reflexivity|]. split; [|exact S].
        cbn [processLoop]. rewrite E. cbn [liftResult].
        now rewrite bind_ret, Full, bind_ret.
    + rewrite bind_raise. cbn [results fst]. intros [= ->].
      exists [], ch, rest, rows, u, []. auto.
Qed.

Lemma all_but_last {A} (P : A -> Prop) (init : list A) (a : A) :
  Forall P init ->
  forall init' x last, init ++ [a] = init' ++ x :: last -> last <> [] -> P x.
Proof.
  intros F init' x last E Hne.
  assert (Hin : In x init).
  { destruct (exists_last Hne) as (l' & z & ->).
    rewrite app_comm_cons, app_assoc in E.
    apply app_inj_tail in E. destruct E as [-> _].
    apply in_or_app. right. now left. }
  rewrite Forall_forall in F. auto.
Qed.

(** The calls of [#processChanges] page by page. *)
Lemma processChanges_run_pages (changes : Stream RowChange) u pokers s :
  let x := processChanges changes u pokers s in
  exists (pages : list Page) (rest : list RowChange),
    calls x = flat_map (pageCalls pokers) pages /\
    fst changes = concat (map pageChanges pages) ++ rest /\
    Forall (fun pg => stagedFrom (pageChanges pg) (pageRows pg) /\
                      (1 <= size (pageRows pg) <= CURSOR_PAGE_SIZE)%N) pages /\
    (forall init pg last,
        pages = init ++ pg :: last -> last <> [] ->
        size (pageRows pg) = CURSOR_PAGE_SIZE /\ answered pg) /\
    (forall u', results x = Ok u' ->
                rest = [] /\ Forall answered pages /\ snd changes = None).
Proof.
  cbv zeta. unfold processChanges.
  pose proof (processLoop_pages pokers (fst changes) [] u s []
                stagedFrom_nil ltac:(reflexivity)) as L.
  cbv zeta in L. destruct L as (L0 & pages & L1 & L2 & L3).
  assert (Sizes : Forall (fun pg => stagedFrom (pageChanges pg) (pageRows pg) /\
                      (1 <= size (pageRows pg) <= CURSOR_PAGE_SIZE)%N) pages).
  { eapply Forall_impl; [|exact L2]. intros pg [F1 F2]. split; auto.
    rewrite F2. unfold CURSOR_PAGE_SIZE. lia. }
  assert (FullOnes : forall init pg last,
             pages = init ++ pg :: last -> size (pageRows pg) = CURSOR_PAGE_SIZE).
  { intros init pg last ->. apply Forall_app in L2. destruct L2 as [_ L2].
    inversion L2 as [|? ? [_ F] _]. exact F. }
  destruct (processLoop (fst changes) [] u pokers s) as [[r s1] e1] eqn:ELP.
  cbn [results fields calls fst snd] in L0, L1, L3. subst s1 e1.
  destruct r as [[rows' u1]|e].
  - rewrite (bind_run _ _ _ _ _ _ ELP).
    destruct L3 as (A & seg' & E & St & Sz). cbn [app fst] in E, St, Sz.
    destruct (snd changes) as [err|] eqn:Eos; cbn [endOfStream].
    + rewrite bind_raise. cbn [results fields calls fst snd]. rewrite app_nil_r.
      exists pages, seg'. split; auto. split; auto. split; auto.
      split; [|discriminate].
      intros init pg last Hp Hne. split; [eauto|].
      rewrite Forall_forall in A. apply A. rewrite Hp.
      apply in_or_app. right. now left.
    + rewrite bind_ret. destruct (N.ltb 0 (size rows')) eqn:NE.
      * pose proof (processBatch_run seg' rows' u1 pokers s) as B.
        rewrite B. cbn [results fields calls fst snd].
        set (pgL := (seg', rows', fst (received rows' u1 (cvrStore s)))).
        exists (pages ++ [pgL]), []. rewrite flat_map_app.
        cbn [flat_map]. rewrite app_nil_r. split; auto.
        split; [now rewrite map_app, concat_app; cbn; rewrite !app_nil_r|].
        split.
        { apply Forall_app. split; auto. constructor; [|constructor].
          split; [exact St|]. cbn [pageRows pgL fst snd].
          apply N.ltb_lt in NE. lia. }
        split.
        { intros init pg last Hp Hne.
          pose proof (all_but_last
                        (fun pg => size (pageRows pg) = CURSOR_PAGE_SIZE /\
                                   answered pg) pages pgL) as ABL.
          eapply ABL; eauto.
          rewrite Forall_forall in *. intros y Hy. split; auto.
          destruct (in_split _ _ Hy) as (l1 & l2 & ->). eauto. }
        intros u' Hr. split; auto. split; auto.
        apply Forall_app. split; auto. constructor; [|constructor].
        unfold answered, pgL. cbn [pageAnswer snd].
        destruct (fst (received rows' u1 (cvrStore s))); [discriminate | eauto].
      * cbn [ret results fields calls fst snd]. rewrite app_nil_r.
        assert (rows' = []) as ->.
        { apply N.ltb_ge in NE. unfold size in NE. destruct rows'; auto.
          cbn in NE. lia. }
        apply stagedFrom_empty in St. subst seg'.
        exists pages, []. split; auto. split; auto. split; auto.
        split; [|auto].
        intros init pg last Hp Hne. split; [eauto|].
        rewrite Forall_forall in A. apply A. rewrite Hp.
        apply in_or_app. right. now left.
  - rewrite (bind_run_err _ _ _ _ _ _ ELP). cbn [results fields calls fst snd].
    destruct L3 as [(row & seg' & ch & post & A1 & A2 & A3 & A4)
                   |(err & init & pg & rst & A1 & A2 & A3 & A4 & A5)].
    + exists pages, (seg' ++ ch :: post). split; auto. split; auto. split; auto.
      split; [|discriminate].
      intros init pg last Hp Hne. split; [eauto|].
      rewrite Forall_forall in A2. apply A2. rewrite Hp.
      apply in_or_app. right. now left.
    + exists pages, rst. split; auto. split; auto. split; auto.
      split; [|discriminate].
      intros init' pg' last Hp Hne. split; [eauto|].
      rewrite A2 in Hp. eapply (all_but_last answered); eauto.
Qed.

Lemma processChanges_invalid (changes : Stream RowChange) u pokers s row :
  results (processChanges changes u pokers s) = Err (InvalidVersionError row) ->
  results (processLoop (fst changes) [] u pokers s) = Err (InvalidVersionError row).
Proof.
  unfold processChanges.
  destruct (processLoop (fst changes) [] u pokers s) as [[r s1] e1] eqn:ELP.
  destruct r as [[rows' u1]|e].
  - rewrite (bind_run _ _ _ _ _ _ ELP).
    destruct (snd changes) as [err|]; cbn [endOfStream].
    + rewrite bind_raise. discriminate.
    + rewrite bind_ret. destruct (N.ltb 0 (size rows')).
      * rewrite (processBatch_run [] rows' u1 pokers s1).
        cbn [results fst]. destruct (fst (received _ _ _)); discriminate.
      * discriminate.
  - rewrite (bind_run_err _ _ _ _ _ _ ELP). cbn. intros [= ->]. reflexivity.
Qed.



(** ** The versions of successive pokes *)

Lemma pokedVersions_app e1 e2 :
  pokedVersions (e1 ++ e2) = pokedVersions e1 ++ pokedVersions e2.
Proof. apply flat_map_app. Qed.

Lemma pokedVersions_noStart e : forallb noStart e = true -> pokedVersions e = [].
Proof.
  induction e as [|ev e IH]; cbn; auto.
  destruct ev; cbn; try discriminate; auto.
Qed.

Lemma pokedVersions_cons ev e :
  noStart ev = true -> pokedVersions (ev :: e) = pokedVersions e.
Proof. now destruct ev. Qed.

Lemma isQuiet_noStart ev : isQuiet ev = true -> noStart ev = true.
Proof. now destruct ev. Qed.

Lemma noStart_weaken e : forallb isQuiet e = true -> forallb noStart e = true.
Proof. apply forallb_weaken, isQuiet_noStart. Qed.

Lemma within_refl c : within c c [].
Proof.
  split; [|split].
  - intros c0 ->. exists c0. split; auto. apply version_le_refl.
  - intros v [].
  - constructor.
Qed.

Lemma StronglySorted_app (l1 l2 : list CVRVersion) :
  StronglySorted version_le l1 -> StronglySorted version_le l2 ->
  (forall x y, In x l1 -> In y l2 -> version_le x y) ->
  StronglySorted version_le (l1 ++ l2).
Proof.
  intros S1 S2 H. induction S1 as [|a l S IH F]; cbn; auto.
  constructor.
  - apply IH. intros x y Hx Hy. apply H; auto. now right.
  - apply Forall_app. split; auto.
    apply Forall_forall. intros y Hy. apply H; auto. now left.
Qed.

Lemma within_trans c0 c1 c2 vs1 vs2 :
  within c0 c1 vs1 -> within c1 c2 vs2 -> within c0 c2 (vs1 ++ vs2).
Proof.
  intros (A1 & A2 & A3) (B1 & B2 & B3). split; [|split].
  - intros c Hc. destruct (A1 c Hc) as (c' & Hc' & L1).
    destruct (B1 c' Hc') as (c'' & Hc'' & L2).
    exists c''. split; auto. eapply version_le_trans; eauto.
  - intros v Hv. apply in_app_or in Hv. destruct Hv as [Hv|Hv].
    + destruct (A2 v Hv) as (L1 & c' & E1 & L2).
      destruct (B1 c' E1) as (c'' & E2 & L3).
      split; auto. exists c''. split; auto. eapply version_le_trans; eauto.
    + destruct (B2 v Hv) as (L1 & c'' & E2 & L2).
      split; [|eauto].
      intros c Hc. destruct (A1 c Hc) as (c' & E1 & L0).
      eapply version_le_trans; eauto.
  - apply StronglySorted_app; auto.
    intros x y Hx Hy.
    destruct (A2 x Hx) as (_ & c' & E1 & L2).
    destruct (B2 y Hy) as (M1 & _).
    eapply version_le_trans; eauto.
Qed.

Lemma within_one_version c c' v vs :
  (forall x, In x vs -> x = v) ->
  version_le (version c) v -> version_le v (version c') ->
  within (Some c) (Some c') vs.
Proof.
  intros H L1 L2. split; [|split].
  - intros d [= <-]. exists c'. split; auto. eapply version_le_trans; eauto.
  - intros x Hx. rewrite (H x Hx). split.
    + now intros d [= <-].
    + eauto.
  - induction vs as [|x vs IH]; constructor.
    + apply IH. intros y Hy. apply H. now right.
    + apply Forall_forall. intros y Hy.
      rewrite (H x (or_introl eq_refl)), (H y (or_intror Hy)).
      apply version_le_refl.
Qed.

Lemma In_pokeVersions h e v : In v (pokeVersions h e) -> In v (pokedVersions e).
Proof.
  induction e as [|ev e IH]; cbn; auto.
  destruct ev; cbn; auto.
  destruct (Nat.eqb h _); cbn; intuition.
Qed.

Lemma pokeVersions_sorted h e :
  StronglySorted version_le (pokedVersions e) ->
  StronglySorted version_le (pokeVersions h e).
Proof.
  induction e as [|ev e IH]; cbn; auto.
  destruct ev; cbn; auto.
  intros S. inversion S as [|? ? S' F]; subst.
  destruct (Nat.eqb h _); cbn; auto.
  constructor; auto.
  rewrite Forall_forall in *. intros x Hx. apply F.
  eapply In_pokeVersions; eauto.
Qed.

Lemma wp_and {A} (m : M A) s (Q1 Q2 : Result A -> _) :
  wp m s Q1 -> wp m s Q2 -> wp m s (fun r s' e => Q1 r s' e /\ Q2 r s' e).
Proof. unfold wp. auto. Qed.

Lemma wp_bind_ok {A B} (m : M A) (k : A -> M B) s
    (F : Result A -> _) (Q : Result B -> _) :
  wp m s F ->
  (forall x s1 e1, Q (Err x) s1 e1) ->
  (forall a s1 e1, F (Ok a) s1 e1 ->
                   wp (k a) s1 (fun r s2 e2 => Q r s2 (e1 ++ e2))) ->
  wp (bind m k) s Q.
Proof.
  intros Hm He Hk. apply wp_bind. eapply wp_conseq; [apply Hm|].
  cbn beta. intros [a|x] s1 e1 HF; auto.
Qed.

Lemma round_err {A} c0 x s (e : list Event) : round c0 (Err x : Result A) s e.
Proof. intros a Hx; discriminate Hx. Qed.

Lemma round_noStart {A} (m : M A) s : keeps noStart m -> wp m s (round (cvr s)).
Proof.
  intros K. eapply wp_conseq; [apply K|]. cbn beta.
  intros r s' e [V Q] a _. rewrite V, (pokedVersions_noStart _ Q).
  apply within_refl.
Qed.

Lemma round_bind {A B} (m : M A) (k : A -> M B) s :
  wp m s (round (cvr s)) ->
  (forall a s1, wp (k a) s1 (round (cvr s1))) ->
  wp (bind m k) s (round (cvr s)).
Proof.
  intros Hm Hk. eapply wp_bind_ok; [apply Hm | intros; apply round_err |].
  intros a s1 e1 R1. eapply wp_conseq; [apply Hk|].
  cbn beta. intros r s2 e2 R2 b Hb.
  rewrite pokedVersions_app.
  eapply within_trans; [apply (R1 a eq_refl) | apply (R2 b Hb)].
Qed.

Section Monotone.
Context {VU : VersionedUpdaters}.

Lemma processBatch_advances rows u pokers s :
  wp (processBatch rows u pokers) s (advanced u).
Proof.
  unfold processBatch. wp_step.
  pose proof (received_version rows u (cvrStore s)) as L.
  destruct (received rows u (cvrStore s)) as [r u1].
  wp_step. wp_step.
  - apply wp_bind. eapply wp_conseq; [apply wp_trivial|].
    cbn beta. intros [[]|x] s1 e1 _.
    + apply wp_ret. intros u' [= <-]. subst r. eapply L. reflexivity.
    + intros u' Hx; discriminate Hx.
  - intros u' Hx; discriminate Hx.
Qed.

Lemma processLoop_advances pokers changes : forall rows u s,
  wp (processLoop changes rows u pokers) s
     (fun r _ _ => forall p, r = Ok p ->
                             version_le (updatedVersion u) (updatedVersion (snd p))).
Proof.
  induction changes as [|ch rest IH]; intros rows u s; cbn [processLoop].
  - apply wp_ret. intros p [= <-]. apply version_le_refl.
  - apply wp_bind. destruct (stageChange rows ch) as [rows1|x]; cbn [liftResult].
    + apply wp_ret. apply wp_bind.
      destruct (N.eqb (size rows1 mod CURSOR_PAGE_SIZE) 0).
      * apply wp_bind. eapply wp_conseq; [apply processBatch_advances|].
        cbn beta. intros [u1|x] s1 e1 H1.
        -- apply wp_ret. eapply wp_conseq; [apply IH|].
           cbn beta. intros r s2 e2 H2 p Hp.
           eapply version_le_trans; [apply (H1 u1 eq_refl) | apply (H2 p Hp)].
        -- intros p Hx; discriminate Hx.
      * apply wp_ret. apply IH.
    + apply wp_raise. intros p Hx; discriminate Hx.
Qed.

Lemma processChanges_advances changes u pokers s :
  wp (processChanges changes u pokers) s (advanced u).
Proof.
  unfold processChanges. apply wp_bind.
  eapply wp_conseq; [apply processLoop_advances|].
  cbn beta. intros [[rows u1]|x] s1 e1 H1.
  - specialize (H1 _ eq_refl). cbn [snd] in H1.
    apply wp_bind. destruct (snd changes); cbn [endOfStream].
    + apply wp_raise. intros u' Hx; discriminate Hx.
    + apply wp_ret. destruct (N.ltb 0 (size rows)).
      * eapply wp_conseq; [apply processBatch_advances|].
        cbn beta. intros r s2 e2 H2 u' Hu'.
        eapply version_le_trans; [apply H1 | apply (H2 u' Hu')].
      * apply wp_ret. intros u' [= <-]. exact H1.
  - intros u' Hx; discriminate Hx.
Qed.

Lemma hydrate_advances c pokers u hash s :
  wp (hydrate c pokers u hash) s (advanced u).
Proof.
  unfold hydrate. destruct (alookup hash (queries c)).
  - apply wp_bind. eapply wp_conseq; [apply wp_trivial|].
    cbn beta. intros [changes|x] s1 e1 _.
    + eapply wp_conseq; [apply processChanges_advances|].
      cbn beta. intros r s2 e2 H. exact H.
    + intros u' Hx; discriminate Hx.
  - apply wp_raise. intros u' Hx; discriminate Hx.
Qed.

Lemma hydrateAll_advances c pokers l : forall u s,
  wp (foldM (hydrate c pokers) l u) s (advanced u).
Proof.
  induction l as [|hash l IH]; intros u s; cbn [foldM].
  - apply wp_ret. intros u' [= <-]. apply version_le_refl.
  - apply wp_bind. eapply wp_conseq; [apply hydrate_advances|].
    cbn beta. intros [u1|x] s1 e1 H1.
    + eapply wp_conseq; [apply IH|].
      cbn beta. intros r s2 e2 H2 u' Hu'.
      eapply version_le_trans; [apply (H1 u1 eq_refl) | apply (H2 u' Hu')].
    + intros u' Hx; discriminate Hx.
Qed.

Lemma stamped_round {A} c v (r : Result A) s' e :
  version_le (version c) v -> stamped v r s' e -> round (Some c) r s' e.
Proof.
  intros L H a Ha. destruct (H a Ha) as (H1 & c' & E & L').
  rewrite E. eapply within_one_version; eauto.
Qed.

Lemma startPokes_stamped v s :
  wp (startPokes v) s
     (fun r s1 e1 => s1 = s /\ forall x, In x (pokedVersions e1) -> x = v).
Proof.
  unfold wp. rewrite startPokes_run. cbn [results fields calls fst snd].
  split; auto.
  induction (map _ (avalues (clients s))) as [|p l IH]; cbn; intuition.
Qed.

Lemma flush_stamped {A} v u (rest : M A) s :
  version_le v (updatedVersion u) ->
  keeps noStart rest ->
  wp (c' <- flushQueryUpdater u ;; modify (with_cvr (Some c')) ;; rest) s
     (fun r s' e => forall a, r = Ok a ->
        pokedVersions e = [] /\
        exists c', cvr s' = Some c' /\ version_le v (version c')).
Proof.
  intros L K. apply wp_bind. unfold flushQueryUpdater. wp_step.
  pose proof (flushQuery_version u (cvrStore s)) as F.
  destruct (flushQuery u (cvrStore s)) as [r st]. cbn [fst] in F.
  do 2 wp_step. destruct r as [x|c']; cbn [liftExt].
  - apply wp_raise. intros a Hx; discriminate Hx.
  - apply wp_ret. wp_step.
    eapply wp_conseq; [apply K|]. cbn beta.
    intros r s' e [V Q] a _. split.
    + cbn. apply (pokedVersions_noStart _ Q).
    + exists c'. split; [rewrite V; reflexivity|].
      eapply version_le_trans; [apply L | apply F; reflexivity].
Qed.

Lemma endPokes_noStart pokers : keeps noStart (forEach endPoke pokers).
Proof. unfold endPoke. keeps_auto. Qed.

Lemma catchup_noStart c exclude pokers :
  keeps noStart (catchupClients c exclude (Some pokers)).
Proof.
  eapply keeps_weaken; [apply isQuiet_noStart | apply quiet_catchupClients].
Qed.

Lemma advancePipelines_round s : wp advancePipelines s (round (cvr s)).
Proof.
  unfold advancePipelines, loadedCVR.
  apply wp_bind. wp_step. destruct (cvr s) as [c|] eqn:Hc;
    [apply wp_ret | apply wp_raise; apply round_err].
  wp_step. wp_step; [|apply round_err].
  destruct (advance (pipelines s)) as [r p].
  wp_step. wp_step; [|apply round_err].
  match goal with a : (string * nat * Stream RowChange)%type |- _ =>
    destruct a as [[v n] changes] end.
  eapply wp_conseq; [|intros r' s' e' H'; eapply (stamped_round c); [|exact H']].
  2: apply newQueryUpdater_version.
  eapply wp_bind_ok; [apply startPokes_stamped | intros x s1 e1 a Hx; discriminate Hx |].
  intros pokers s1 e1 [-> P1].
  eapply wp_bind_ok;
    [apply wp_and; [apply quiet_processChanges | apply processChanges_advances]
    | intros x s2 e2 a Hx; discriminate Hx |].
  intros u1 s2 e2 [[V2 Q2] A2]. specialize (A2 u1 eq_refl).
  eapply wp_conseq; [apply (flush_stamped _ u1 _ _ A2), endPokes_noStart|].
  cbn beta. intros r3 s3 e3 H3 a Ha. destruct (H3 a Ha) as (P3 & c' & E3 & L3).
  split; [|eauto].
  rewrite !pokedVersions_app, P3, (pokedVersions_noStart _ (noStart_weaken _ Q2)).
  rewrite !app_nil_r. exact P1.
Qed.

Lemma addAndRemoveQueries_round c add rem s :
  cvr s = Some c ->
  wp (addAndRemoveQueries c add rem) s (round (cvr s)).
Proof.
  intros Hc. rewrite Hc. unfold addAndRemoveQueries.
  wp_step; [|apply round_err]. wp_step.
  pose proof (newQueryUpdater_version c (currentVersion (pipelines s))) as L0.
  pose proof (trackQueries_version (map (fun hash => (hash, hash)) add) rem
                (newQueryUpdater c (currentVersion (pipelines s)))) as [L1 L2].
  destruct (trackQueries _ _ _) as [[nv qp] u0]. cbn [fst snd] in L1, L2.
  eapply wp_conseq; [|intros r' s' e' H'; eapply (stamped_round c nv); [|exact H']].
  2: eapply version_le_trans; eauto.
  wp_step.
  eapply wp_bind_ok; [apply startPokes_stamped | intros x s1 e1 a Hx; discriminate Hx |].
  intros pokers s1 e1 [-> P1].
  eapply wp_bind_ok;
    [apply (keeps_forEach isQuiet), quiet_addPatchAll
    | intros x s2 e2 a Hx; discriminate Hx |].
  intros [] s2 e2 [V2 Q2].
  eapply wp_bind_ok;
    [apply (keeps_forEach isQuiet), quiet_callRemoveQuery
    | intros x s3 e3 a Hx; discriminate Hx |].
  intros [] s3 e3 [V3 Q3].
  eapply wp_bind_ok;
    [apply wp_and;
       [apply (keeps_foldM isQuiet); intros; apply quiet_hydrate
       | apply hydrateAll_advances]
    | intros x s4 e4 a Hx; discriminate Hx |].
  intros u1 s4 e4 [[V4 Q4] A4]. specialize (A4 u1 eq_refl).
  wp_step.
  pose proof (deleteUnreferencedRows_version u1 (cvrStore s4)) as L5.
  destruct (deleteUnreferencedRows u1 (cvrStore s4)) as [r u2]. cbn [fst snd] in L5.
  wp_step; [|intros a' Hx; discriminate Hx].
  match goal with H : r = inr _ |- _ => specialize (L5 _ H) end.
  eapply wp_bind_ok;
    [apply (keeps_forEach isQuiet), quiet_addPatchAll
    | intros x s6 e6 a' Hx; discriminate Hx |].
  intros [] s6 e6 [V6 Q6].
  assert (L : version_le nv (updatedVersion u2)).
  { eapply version_le_trans; [apply L2|].
    eapply version_le_trans; [apply A4 | apply L5]. }
  eapply wp_conseq.
  { apply (flush_stamped _ u2 _ _ L).
    apply keeps_bind; [apply catchup_noStart | intros _; apply endPokes_noStart]. }
  cbn beta. intros r7 s7 e7 H7 a' Ha. destruct (H7 a' Ha) as (P7 & c' & E7 & L7).
  split; [|eauto].
  rewrite pokedVersions_cons by reflexivity.
  rewrite !pokedVersions_app, P7.
  rewrite (pokedVersions_noStart _ (noStart_weaken _ Q2)),
          (pokedVersions_noStart _ (noStart_weaken _ Q3)),
          (pokedVersions_noStart _ (noStart_weaken _ Q4)),
          (pokedVersions_noStart _ (noStart_weaken _ Q6)).
  cbn [app pokedVersions flat_map]. rewrite !app_nil_r. exact P1.
Qed.

Lemma catchupClients_round c exclude s :
  cvr s = Some c ->
  wp (catchupClients c exclude None) s (round (cvr s)).
Proof.
  intros Hc. rewrite Hc. unfold catchupClients.
  eapply wp_conseq;
    [|intros r' s' e' H'; eapply (stamped_round c (version c)); [|exact H']].
  2: apply version_le_refl.
  eapply wp_bind_ok; [apply startPokes_stamped | intros x s1 e1 a Hx; discriminate Hx |].
  intros pokers s1 e1 [-> P1].
  eapply wp_conseq.
  { assert (K : keeps noStart
      (s0 <- get ;;
       patches <- liftExt (catchupConfigPatches (catchupFrom (clients s0) c) c
                                                (cvrStore s0)) ;;
       forEach (addPatchAll pokers) patches ;;
       forEach (forEach (sendRowPatch pokers))
               (fst (catchupRowPatches (catchupFrom (clients s0) c) c exclude
                                       (cvrStore s0))) ;;
       endOfStream (snd (catchupRowPatches (catchupFrom (clients s0) c) c exclude
                                           (cvrStore s0))) ;;
       forEach endPoke pokers)).
    { unfold endPoke. repeat first [keeps_step | keeps_known]. }
    apply K. }
  cbn beta. intros r s' e [V Q] a _. split.
  - rewrite pokedVersions_app, (pokedVersions_noStart _ Q), app_nil_r. exact P1.
  - exists c. split; [congruence | apply version_le_refl].
Qed.

Lemma syncQueryPipelineSet_round s : wp syncQueryPipelineSet s (round (cvr s)).
Proof.
  unfold syncQueryPipelineSet, loadedCVR.
  apply wp_bind. wp_step. destruct (cvr s) as [c|] eqn:Hc;
    [apply wp_ret | apply wp_raise; apply round_err].
  wp_step. wp_step; [|apply round_err].
  rewrite <- Hc. apply round_bind.
  - match goal with |- context [if ?b then _ else _] => destruct b end.
    + now apply addAndRemoveQueries_round.
    + now apply catchupClients_round.
  - intros _ s1. apply round_noStart.
    eapply keeps_weaken; [|apply assertSynced_silent]. discriminate.
Qed.

Lemma configuredFrom_fold c cid patch : forall u added,
  configuredFrom c u ->
  configuredFrom c (fst (fold_left (applyPatch cid) patch (u, added))).
Proof.
  induction patch as [|p patch IH]; intros u added H; cbn [fold_left]; auto.
  destruct p as [hash ast| hash |]; cbn [applyPatch].
  - pose proof (from_put c cid [(hash, ast)] u H) as H'.
    destruct (putDesiredQueries cid [(hash, ast)] u) as [a u']. now apply IH.
  - apply IH. now constructor.
  - apply IH. now constructor.
Qed.

Lemma patchQueries_round cid patch s :
  wp (patchQueries cid patch) s (round (cvr s)).
Proof.
  unfold patchQueries, loadedCVR.
  apply wp_bind. wp_step. destruct (cvr s) as [c|] eqn:Hc;
    [apply wp_ret | apply wp_raise; apply round_err].
  rewrite <- Hc. apply round_bind.
  - destruct (Nat.ltb 0 (length patch)).
    + pose proof (configuredFrom_fold c cid patch _ [] (from_new c)) as CF.
      destruct (fold_left _ _ _) as [u added]. cbn [fst] in CF.
      apply wp_bind. unfold flushConfigUpdater. wp_step.
      pose proof (flushConfig_version c u (cvrStore s)) as F.
      destruct (flushConfig u (cvrStore s)) as [r st']. cbn [fst] in F.
      do 2 wp_step. destruct r as [err|c']; cbn [liftExt].
      * apply wp_raise. apply round_err.
      * apply wp_ret. intros a _. cbn. rewrite Hc.
        apply (within_one_version c c' (version c)).
        -- intros x [].
        -- apply version_le_refl.
        -- now apply F.
    + apply wp_ret. intros a _. apply within_refl.
  - intros _ s1. wp_step. destruct (initialized (pipelines s1)).
    + apply syncQueryPipelineSet_round.
    + apply wp_ret. intros a _. apply within_refl.
Qed.

Lemma round_catch {A} (m : M A) (ev : Error -> Event) s c0 :
  wp m s (round c0) ->
  wp (catch m (fun e => emit (ev e) ;; raise e)) s (round c0).
Proof.
  unfold wp, catch. cbv zeta. destruct (results (m s)) eqn:E.
  - rewrite E. auto.
  - intros _. apply round_err.
Qed.

Lemma runInLockForClient_round {B} ctx cmd (body : B) fn newClient s :
  (forall cid b s1, wp (fn cid b) s1 (round (cvr s1))) ->
  wp (runInLockForClient ctx cmd body fn newClient) s (round (cvr s)).
Proof.
  intros Hfn. unfold runInLockForClient. wp_step.
  apply round_bind.
  2: { intros _ s1. apply round_noStart. keeps_auto. }
  destruct newClient as [nc|].
  - apply round_bind; [apply round_noStart; keeps_auto | intros _ s1].
    apply round_bind; [apply round_noStart; keeps_auto | intros _ s2].
    apply round_bind; [apply round_noStart; keeps_auto | intros _ s3].
    apply round_catch, Hfn.
  - destruct (alookup (clientID ctx) (clients s)) as [client|].
    + destruct (negb _).
      * apply round_noStart. keeps_auto.
      * apply round_catch, Hfn.
    + apply round_noStart. keeps_auto.
Qed.

Lemma step_round op s : wp (step op) s (round (cvr s)).
Proof.
  destruct op as [ctx patch|ctx patch| |cid client| |token]; cbn [step].
  - apply round_bind; [|intros; apply round_noStart; keeps_auto].
    unfold initConnection. wp_step.
    apply round_bind; [apply round_noStart; keeps_auto | intros _ s1].
    apply round_bind; [|intros; apply round_noStart; keeps_auto].
    apply runInLockForClient_round. intros. apply patchQueries_round.
  - apply runInLockForClient_round. intros. apply patchQueries_round.
  - unfold onVersionReady. wp_step. destruct (negb _).
    + apply round_bind; [apply round_noStart; keeps_auto | intros _ s1].
      apply round_bind; [apply round_noStart; keeps_auto | intros _ s2].
      apply syncQueryPipelineSet_round.
    + apply advancePipelines_round.
  - apply round_noStart. unfold deleteClient, startIdleTimer. repeat keeps_step.
  - apply round_noStart. unfold keepalive, startIdleTimer. repeat keeps_step.
  - apply round_noStart. unfold idleTimeout. repeat keeps_step.
Qed.

Lemma runOps_round ops : forall s, wp (runOps ops) s (round (cvr s)).
Proof.
  unfold runOps. induction ops as [|op ops IH]; intros s; cbn [forEach].
  - apply wp_ret. intros a _. apply within_refl.
  - apply round_bind; [apply step_round | intros _ s1; apply IH].
Qed.

End Monotone.

(** In a run of operations that all return, the versions given to
    [startPoke] never go back, whether the poke is ended or not, and every
    one lies between the pointer's version before the run and after it. *)
Lemma returning_runs_poke_in_order
    (VU : VersionedUpdaters) (ops : list Op) (s : ViewSyncerService) :
  let x := runOps ops s in
  results x = Ok tt ->
  (forall h, StronglySorted version_le (pokeVersions h (calls x))) /\
  within (cvr s) (cvr (fields x)) (pokedVersions (calls x)).
Proof.
  cbv zeta. intros H.
  pose proof (runOps_round ops s tt H) as W.
  split; [|exact W].
  intros h. apply pokeVersions_sorted. apply W.
Qed.

(** ** Rejected queries *)

(** C8, as the service has it: [#patchQueries] flushes the patched
    configuration before the pipeline sees any of the patch's queries.
    With a non-empty patch whose flush returns [c'], the first call is that
    flush, and the reconciliation of the pipelines runs with the CVR pointer
    and the store already holding [c']: an exception it raises (as for a
    query the pipeline rejects) is the operation's, and nothing takes the
    patch back. *)
Theorem patchQueries_flushes_before_validating
    (cid : string) (patch : list QueriesPatchOp) (s : ViewSyncerService)
    (c c' : CVRSnapshot) (st' : Store) :
  cvr s = Some c ->
  patch <> [] ->
  flushConfig (fst (fold_left (applyPatch cid) patch (newConfigUpdater c, [])))
              (cvrStore s) = (inr c', st') ->
  let y := (if initialized (pipelines s) then syncQueryPipelineSet else ret tt)
             (with_cvr (Some c') (with_store st' s)) in
  patchQueries cid patch s = (results y, fields y, Flush (inr c') :: calls y).
Proof.
  intros C N F. cbv zeta.
  set (y := (if initialized (pipelines s) then syncQueryPipelineSet else ret tt)
              (with_cvr (Some c') (with_store st' s))).
  enough (W : wp (patchQueries cid patch) s
                 (fun r s' e => r = results y /\ s' = fields y /\
                                e = Flush (inr c') :: calls y)).
  { unfold wp in W. destruct (patchQueries cid patch s) as [[r s'] e].
    cbn in W. destruct W as (-> & -> & ->). reflexivity. }
  unfold patchQueries, loadedCVR.
  apply wp_bind. apply wp_get. rewrite C. apply wp_ret.
  apply nonempty_ltb in N. rewrite N.
  destruct (fold_left _ _ _) as [u added]. cbn [fst] in F.
  apply wp_bind. apply wp_bind. unfold flushConfigUpdater.
  apply wp_get. rewrite F. apply wp_modify. apply wp_emit.
  cbn [liftExt]. apply wp_ret.
  unfold wp at 1. cbn [modify results fields calls fst snd].
  apply wp_get. unfold wp. cbn [with_cvr with_store pipelines app].
  fold y. auto.
Qed.

(** ** What the methods touch, call and raise *)

Section Behaves.
Context {R : ViewSyncerService -> ViewSyncerService -> Prop}
        {T : list Event -> Prop} {L : Lawful R T}.
Variable P : Error -> Prop.

Lemma behaves_ret {A} (a : A) : behaves R T P (ret a).
Proof.
  intros s. split; [apply R_refl|]. split; [apply T_nil|]. discriminate.
Qed.

Lemma behaves_raise {A} e : P e -> behaves R T P (raise e : M A).
Proof.
  intros H s. split; [apply R_refl|]. split; [apply T_nil|].
  now intros x [= <-].
Qed.

Lemma behaves_get : behaves R T P get.
Proof.
  intros s. split; [apply R_refl|]. split; [apply T_nil|]. discriminate.
Qed.

Lemma behaves_emit ev : T [ev] -> behaves R T P (emit ev).
Proof. intros H s. split; [apply R_refl|]. split; [exact H|]. discriminate. Qed.

Lemma behaves_modify g : (forall s, R s (g s)) -> behaves R T P (modify g).
Proof. intros H s. split; [apply H|]. split; [apply T_nil|]. discriminate. Qed.

Lemma behaves_bind {A B} (m : M A) (f : A -> M B) :
  behaves R T P m -> (forall a, behaves R T P (f a)) -> behaves R T P (bind m f).
Proof.
  intros Hm Hf s. apply wp_bind. eapply wp_conseq; [apply Hm|].
  cbn beta. intros [a|x] s1 e1 (R1 & T1 & P1).
  - eapply wp_conseq; [apply Hf|]. cbn beta. intros r s2 e2 (R2 & T2 & P2).
    split; [eapply R_trans; eauto|]. split; [now apply T_app | exact P2].
  - split; [exact R1|]. split; [exact T1|].
    intros y [= <-]. now apply P1.
Qed.

Lemma behaves_forEach {A} (f : A -> M unit) l :
  (forall a, behaves R T P (f a)) -> behaves R T P (forEach f l).
Proof.
  intros Hf. induction l; cbn [forEach].
  - apply behaves_ret.
  - apply behaves_bind; auto.
Qed.

Lemma behaves_foldM {A B} (f : B -> A -> M B) l :
  (forall b a, behaves R T P (f b a)) -> forall b, behaves R T P (foldM f l b).
Proof.
  intros Hf. induction l; intros b; cbn [foldM].
  - apply behaves_ret.
  - apply behaves_bind; auto.
Qed.

Lemma behaves_assert b msg :
  P (AssertionError msg) -> behaves R T P (assert b msg).
Proof. intros H. destruct b; [apply behaves_ret | now apply behaves_raise]. Qed.

Lemma behaves_liftExt {A} (r : Ext A) :
  (forall x, r = inl x -> P (External x)) -> behaves R T P (liftExt r).
Proof.
  intros H. destruct r; [apply behaves_raise; auto | apply behaves_ret].
Qed.

Lemma behaves_liftResult {A} (r : Result A) :
  (forall x, r = Err x -> P x) -> behaves R T P (liftResult r).
Proof.
  intros H. destruct r; [apply behaves_ret | apply behaves_raise; auto].
Qed.

Lemma behaves_endOfStream o :
  (forall x, o = Some x -> P (External x)) -> behaves R T P (endOfStream o).
Proof.
  intros H. destruct o; [apply behaves_raise; auto | apply behaves_ret].
Qed.

Lemma behaves_catch {A} (P' : Error -> Prop) (m : M A) (h : Error -> M A) :
  behaves R T P' m -> (forall x, P' x -> behaves R T P (h x)) ->
  behaves R T P (catch m h).
Proof.
  intros Hm Hh s. specialize (Hm s). unfold wp, catch in *. cbv zeta.
  destruct Hm as (R1 & T1 & P1).
  destruct (results (m s)) as [a|x] eqn:E.
  - rewrite E. split; [exact R1|]. split; [exact T1|]. discriminate.
  - specialize (Hh x (P1 x eq_refl) (fields (m s))). unfold wp in Hh.
    destruct Hh as (R2 & T2 & P2). cbn.
    split; [eapply R_trans; eauto|]. split; [now apply T_app | exact P2].
Qed.

End Behaves.

Lemma behaves_weaken {A} (R R' : ViewSyncerService -> ViewSyncerService -> Prop)
    (T T' : list Event -> Prop) (P P' : Error -> Prop) (m : M A) :
  (forall s s', R s s' -> R' s s') -> (forall e, T e -> T' e) ->
  (forall x, P x -> P' x) ->
  behaves R T P m -> behaves R' T' P' m.
Proof.
  intros HR HT HP H s. eapply wp_conseq; [apply H|]. cbn beta.
  intros r s' e (H1 & H2 & H3). auto.
Qed.

(** One step through a method's body; [side] settles what the step asks
    of the relation, the calls and the exceptions. *)
Ltac behaves_step side :=
  lazymatch goal with
  | |- behaves _ _ _ (bind _ _) => apply behaves_bind; [|intros ?]
  | |- behaves _ _ _ (ret _) => apply behaves_ret
  | |- behaves _ _ _ (raise _) => apply behaves_raise; side
  | |- behaves _ _ _ get => apply behaves_get
  | |- behaves _ _ _ (emit _) => apply behaves_emit; side
  | |- behaves _ _ _ (modify _) => apply behaves_modify; side
  | |- behaves _ _ _ (assert _ _) => apply behaves_assert; side
  | |- behaves _ _ _ (liftExt _) => apply behaves_liftExt; side
  | |- behaves _ _ _ (liftResult _) => apply behaves_liftResult; side
  | |- behaves _ _ _ (endOfStream _) => apply behaves_endOfStream; side
  | |- behaves _ _ _ (forEach _ _) => apply behaves_forEach; intros ?
  | |- behaves _ _ _ (foldM _ _ _) => apply behaves_foldM; intros ? ?
  | |- behaves _ _ _ (let '(_, _) := ?x in _) => destruct x
  | |- behaves _ _ _ (match ?x with _ => _ end) => destruct x
  | |- behaves _ _ _ (if ?x then _ else _) => destruct x
  end.

#[local] Instance sameService_lawful : Lawful sameService workCalls.
Proof.
  split.
  - intros s. repeat split.
  - intros a b c (A1 & A2 & A3 & A4) (B1 & B2 & B3 & B4).
    repeat split; congruence.
  - reflexivity.
  - intros a b Ha Hb. unfold workCalls in *. rewrite forallb_app.
    now rewrite Ha, Hb.
Qed.

Lemma connections_acknowledge p s :
  connections
    (with_clients (map (fun kc => (fst kc, acknowledge p (snd kc))) (clients s)) s)
  = connections s.
Proof.
  unfold connections. cbn [clients with_clients]. rewrite map_map.
  apply map_ext. intros [k c]. cbn [fst snd]. unfold acknowledge.
  now destruct (Nat.eqb _ _).
Qed.

Ltac same_side :=
  first [ exact I
        | reflexivity
        | intros; exact I
        | intros ?; split; [first [apply connections_acknowledge | reflexivity]|];
          split; [reflexivity|]; split; reflexivity ].

Ltac same_auto := repeat behaves_step same_side.

Lemma same_processChanges changes u pokers :
  behaves sameService workCalls anyError (processChanges changes u pokers).
Proof.
  assert (B : forall rows u, behaves sameService workCalls anyError
                               (processBatch rows u pokers)).
  { intros. unfold processBatch, addPatchAll. same_auto. }
  assert (Lp : forall l rows u, behaves sameService workCalls anyError
                                 (processLoop l rows u pokers)).
  { induction l as [|ch l IH]; intros; cbn [processLoop]; same_auto; auto. }
  unfold processChanges. same_auto; auto.
Qed.

Lemma same_catchupClients c exclude usePokers :
  behaves sameService workCalls anyError (catchupClients c exclude usePokers).
Proof.
  unfold catchupClients, startPokes, sendRowPatch, materialize, addPatchAll,
    endPoke.
  same_auto.
Qed.

Lemma same_addAndRemoveQueries c add rem :
  behaves sameService workCalls anyError (addAndRemoveQueries c add rem).
Proof.
  unfold addAndRemoveQueries, startPokes, addPatchAll, callRemoveQuery,
    flushQueryUpdater, hydrate, callAddQuery, endPoke.
  repeat first [ apply same_processChanges | apply same_catchupClients
               | behaves_step same_side ].
Qed.

Lemma same_syncQueryPipelineSet :
  behaves sameService workCalls anyError syncQueryPipelineSet.
Proof.
  unfold syncQueryPipelineSet, loadedCVR, assertSynced.
  repeat first [ apply same_addAndRemoveQueries | apply same_catchupClients
               | behaves_step same_side ].
Qed.

Lemma same_hydrateUnchangedQueries :
  behaves sameService workCalls anyError hydrateUnchangedQueries.
Proof.
  unfold hydrateUnchangedQueries, loadedCVR, rehydrate, callAddQuery.
  same_auto.
Qed.

Lemma same_advancePipelines :
  behaves sameService workCalls anyError advancePipelines.
Proof.
  unfold advancePipelines, loadedCVR, startPokes, flushQueryUpdater, endPoke.
  repeat first [ apply same_processChanges | behaves_step same_side ].
Qed.

Lemma same_patchQueries cid patch :
  behaves sameService workCalls anyError (patchQueries cid patch).
Proof.
  unfold patchQueries, loadedCVR, flushConfigUpdater.
  repeat first [ apply same_syncQueryPipelineSet | behaves_step same_side ].
Qed.

Lemma same_onVersionReady :
  behaves sameService workCalls anyError onVersionReady.
Proof.
  unfold onVersionReady.
  repeat first [ apply same_syncQueryPipelineSet | apply same_advancePipelines
               | apply same_hydrateUnchangedQueries | behaves_step same_side ].
Qed.

(** ** Who touches the connections and the timers *)

Lemma behaves_fields {A} R T P (m : M A) s :
  behaves R T P m -> R s (fields (m s)).
Proof. intros H. apply (H s). Qed.

#[local] Instance sameConnections_lawful : Lawful sameConnections anyCalls.
Proof.
  split.
  - intros s. repeat split.
  - intros a b c (A1 & A2 & A3) (B1 & B2 & B3). repeat split; congruence.
  - exact I.
  - intros; exact I.
Qed.

Lemma sameService_sameConnections s s' : sameService s s' -> sameConnections s s'.
Proof. intros (H1 & H2 & H3 & H4). repeat split; assumption. Qed.

Ltac conn_side :=
  first [ exact I | intros; exact I | intros ?; repeat split ].

Lemma conn_patchQueries cid patch :
  behaves sameConnections anyCalls anyError (patchQueries cid patch).
Proof.
  eapply behaves_weaken; [apply sameService_sameConnections | | | apply same_patchQueries];
    intros; exact I.
Qed.

Lemma conn_changeDesiredQueries ctx patch :
  behaves sameConnections anyCalls anyError (changeDesiredQueries ctx patch).
Proof.
  unfold changeDesiredQueries, runInLockForClient.
  apply behaves_bind; [apply behaves_get | intros s0].
  apply behaves_bind; [|intros; behaves_step conn_side].
  destruct (alookup _ _) as [client|]; [destruct (negb _)|];
    try (behaves_step conn_side).
  eapply behaves_catch; [apply conn_patchQueries|].
  intros x _. repeat behaves_step conn_side.
Qed.


#[local] Instance sameSubscription_lawful : Lawful sameSubscription anyCalls.
Proof.
  split; unfold sameSubscription.
  - reflexivity.
  - intros; congruence.
  - exact I.
  - intros; exact I.
Qed.

#[local] Instance notResumed_lawful : Lawful notResumed anyCalls.
Proof.
  split; unfold notResumed.
  - auto.
  - auto.
  - exact I.
  - intros; exact I.
Qed.

Ltac sub_side :=
  first [ exact I | intros; exact I | intros ?; reflexivity ].

Lemma sub_patchQueries cid patch :
  behaves sameSubscription anyCalls anyError (patchQueries cid patch).
Proof.
  eapply behaves_weaken; [| | |apply same_patchQueries].
  - intros s s' (_ & _ & H & _). exact H.
  - intros; exact I.
  - intros; exact I.
Qed.

Lemma sub_runInLockForClient ctx cmd patch newClient :
  behaves sameSubscription anyCalls anyError
          (runInLockForClient ctx cmd patch patchQueries newClient).
Proof.
  unfold runInLockForClient.
  apply behaves_bind; [apply behaves_get | intros s0].
  apply behaves_bind; [|intros; behaves_step sub_side].
  assert (C : forall h,
    behaves sameSubscription anyCalls anyError
      (catch (patchQueries (clientID ctx) patch)
             (fun e => emit (Failed h e) ;; raise e))).
  { intros h. eapply behaves_catch; [apply sub_patchQueries|].
    intros x _. repeat behaves_step sub_side. }
  destruct newClient as [nc|].
  - repeat first [apply C | behaves_step sub_side].
  - destruct (alookup _ _) as [client|]; [destruct (negb _)|];
      first [apply C | behaves_step sub_side].
Qed.

Lemma sub_step op :
  match op with
  | IdleTimeout _ => True
  | _ => behaves sameSubscription anyCalls anyError (step op)
  end.
Proof.
  destruct op as [ctx patch|ctx patch| |cid client| |token]; cbn [step];
    auto.
  - unfold initConnection.
    repeat first [apply sub_runInLockForClient | behaves_step sub_side].
  - apply sub_runInLockForClient.
  - eapply behaves_weaken; [| | |apply same_onVersionReady].
    + intros s s' (_ & _ & H & _). exact H.
    + intros; exact I.
    + intros; exact I.
  - unfold deleteClient, startIdleTimer. repeat behaves_step sub_side.
  - unfold keepalive, startIdleTimer. repeat behaves_step sub_side.
Qed.

Lemma step_subscription op s :
  versionChangesActive (fields (step op s))
  = versionChangesActive s && negb (fires op s).
Proof.
  pose proof (sub_step op) as H.
  destruct op as [ctx patch|ctx patch| |cid client| |token];
    try (rewrite (behaves_fields _ _ _ _ s H); cbn; now rewrite andb_true_r).
  cbn [step fires]. unfold idleTimeout. rewrite bind_get.
  destruct (idleToken s) as [t|]; cbn.
  - destruct (Nat.eqb t token); cbn; [now rewrite andb_false_r | now rewrite andb_true_r].
  - now rewrite andb_true_r.
Qed.

Lemma notResumed_runOps ops : behaves notResumed anyCalls anyError (runOps ops).
Proof.
  unfold runOps. apply behaves_forEach. intros op s.
  unfold wp. split; [|split; [exact I | intros; exact I]].
  intros H. rewrite step_subscription, H. reflexivity.
Qed.

(** X2: among the operations, the version subscription is cancelled only
    by the callback of the idle timer whose token is still the current one,
    and none makes a cancelled subscription active again: after any run of
    operations, returning or raising, it is still cancelled. *)
Theorem cancellation_is_permanent :
  (forall op s,
      versionChangesActive (fields (step op s))
      = versionChangesActive s && negb (fires op s)) /\
  (forall ops s,
      versionChangesActive s = false ->
      versionChangesActive (fields (runOps ops s)) = false).
Proof.
  split; [apply step_subscription|].
  intros ops s. apply (behaves_fields _ _ _ _ s (notResumed_runOps ops)).
Qed.

(** X3: [keepalive] answers whether the version subscription is active.
    On a cancelled one it changes nothing; with no idle timer running it
    changes nothing either; with one running it arms a new timer, after
    which the callback of the old timer does nothing and the callback of
    the new one cancels the subscription. *)
Theorem keepalive_postpones_the_idle_shutdown (s : ViewSyncerService) :
  let x := keepalive s in
  (versionChangesActive s = false -> x = (Ok false, s, [])) /\
  (versionChangesActive s = true -> idleToken s = None -> x = (Ok true, s, [])) /\
  (forall t,
      versionChangesActive s = true -> idleToken s = Some t -> t < nextObject s ->
      let t' := nextObject s in
      x = (Ok true, with_nextObject (S t') (with_idleToken (Some t') s),
           [IdleTimerArmed t']) /\
      idleTimeout t (fields x) = (Ok tt, fields x, []) /\
      idleTimeout t' (fields x) = (Ok tt, with_active false (fields x), [])).
Proof.
  cbv zeta. unfold keepalive. rewrite bind_get.
  split; [|split].
  - intros ->. reflexivity.
  - intros -> ->. reflexivity.
  - intros t -> E Hlt. rewrite E. cbn [negb].
    split; [reflexivity|]. cbn [fields fst snd].
    unfold idleTimeout. rewrite !bind_get. cbn.
    rewrite Nat.eqb_refl.
    assert (N : Nat.eqb (nextObject s) t = false) by (apply Nat.eqb_neq; lia).
    rewrite N. split; reflexivity.
Qed.

Lemma deleteClient_lookup cid client s :
  alookup cid (clients (fields (deleteClient cid client s)))
  = match alookup cid (clients s) with
    | Some c => if Nat.eqb (hid c) (hid client) then None else Some c
    | None => None
    end.
Proof.
  unfold deleteClient. rewrite bind_get.
  destruct (alookup cid (clients s)) as [c|] eqn:E; [|cbn; exact E].
  destruct (Nat.eqb (hid c) (hid client)); [|cbn; exact E].
  apply (wp_modify _ _ s (fun _ s' _ => alookup cid (clients s') = None)).
  apply wp_get. cbn [clients with_clients].
  match goal with |- context [N.eqb ?a ?b] => destruct (N.eqb a b) end.
  - unfold wp, startIdleTimer. rewrite bind_get. cbn. apply alookup_adelete_eq.
  - unfold wp. cbn. apply alookup_adelete_eq.
Qed.

(** X4: the cleanup of a connection may run more than once: after
    [#deleteClient] for a handler, a second one for the same handler
    changes nothing and arms no timer. *)
Theorem deleteClient_twice (cid : string) (client : ClientHandler)
    (s : ViewSyncerService) :
  let x := deleteClient cid client s in
  deleteClient cid client (fields x) = (Ok tt, fields x, []).
Proof.
  cbv zeta. pose proof (deleteClient_lookup cid client s) as L.
  unfold deleteClient at 1. rewrite bind_get, L.
  destruct (alookup cid (clients s)) as [c|]; [|reflexivity].
  destruct (Nat.eqb (hid c) (hid client)) eqn:I; [reflexivity|].
  rewrite I. reflexivity.
Qed.

(** ** Connecting *)

Lemma runInLock_register {B} ctx cmd (body : B) fn nc s :
  hWsID nc = wsID ctx ->
  let closes := match alookup (clientID ctx) (clients s) with
                | Some old => [Closed (hid old)]
                | None => []
                end in
  let y := fn (clientID ctx) body
              (with_clients (aset (clientID ctx) nc (clients s)) s) in
  runInLockForClient ctx cmd body fn (Some nc) s
  = match results y with
    | Ok _ => (Ok tt, with_idleToken None (fields y), closes ++ calls y)
    | Err e => (Err e, fields y, closes ++ calls y ++ [Failed (hid nc) e])
    end.
Proof.
  intros W. cbv zeta. unfold runInLockForClient. rewrite bind_get.
  rewrite W, String.eqb_refl. unfold assert.
  set (s0 := with_clients (aset (clientID ctx) nc (clients s)) s).
  destruct (fn (clientID ctx) body s0) as [[r s1] e1] eqn:F.
  destruct (alookup (clientID ctx) (clients s)) as [old|];
    unfold bind, catch, emit, modify, ret, raise; cbv zeta;
    cbn [results fields calls fst snd app]; fold s0; rewrite F;
    destruct r as [[]|x]; cbn; rewrite ?app_nil_r; reflexivity.
Qed.

Lemma runInLock_current {B} ctx cmd (body : B) fn c s :
  alookup (clientID ctx) (clients s) = Some c ->
  hWsID c = wsID ctx ->
  let y := fn (clientID ctx) body s in
  runInLockForClient ctx cmd body fn None s
  = match results y with
    | Ok _ => (Ok tt, with_idleToken None (fields y), calls y)
    | Err e => (Err e, fields y, calls y ++ [Failed (hid c) e])
    end.
Proof.
  intros E W. cbv zeta. unfold runInLockForClient. rewrite bind_get.
  rewrite E, W, String.eqb_refl. cbn [negb].
  unfold bind, catch. cbv zeta.
  destruct (fn (clientID ctx) body s) as [[[[]|x] s1] e1]; cbn.
  - now rewrite app_nil_r.
  - reflexivity.
Qed.

Lemma alookup_connections k s :
  alookup k (connections s)
  = option_map (fun c => (hid c, hClientID c, hWsID c)) (alookup k (clients s)).
Proof.
  unfold connections. induction (clients s) as [|[k' c] l IH]; cbn; auto.
  destruct (String.eqb k k'); auto.
Qed.

(** X5: [initConnection] registers the new handler under the client's ID
    before it applies the patch, in the place of the handler registered
    there, which it closes first; the other connections stay as they are.
    It then runs [#patchQueries]: when that returns, the new handler is
    returned and the idle timer is cleared; when that raises, [fail] is
    called on the new handler with the exception, which is raised again,
    the handler stays registered and the idle timer is left as it was. *)
Theorem initConnection_registers
    (ctx : SyncContext) (patch : list QueriesPatchOp) (s : ViewSyncerService) :
  let new := mkHandler (nextObject s) (clientID ctx) (wsID ctx) (baseCookie ctx) in
  let closes := match alookup (clientID ctx) (clients s) with
                | Some old => [Closed (hid old)]
                | None => []
                end in
  let s0 := with_clients (aset (clientID ctx) new (clients s))
                         (with_nextObject (S (nextObject s)) s) in
  let y := patchQueries (clientID ctx) patch s0 in
  let x := initConnection ctx patch s in
  x = match results y with
      | Ok _ => (Ok new, with_idleToken None (fields y), closes ++ calls y)
      | Err e => (Err e, fields y, closes ++ calls y ++ [Failed (hid new) e])
      end /\
  connections (fields x) = connections s0 /\
  alookup (clientID ctx) (connections (fields x))
  = Some (nextObject s, clientID ctx, wsID ctx) /\
  (forall k, k <> clientID ctx ->
             alookup k (connections (fields x)) = alookup k (connections s)) /\
  workCalls (calls y) /\
  (forall e, results x = Err e -> idleToken (fields x) = idleToken s).
Proof.
  cbv zeta.
  set (new := mkHandler (nextObject s) (clientID ctx) (wsID ctx) (baseCookie ctx)).
  set (s0 := with_clients (aset (clientID ctx) new (clients s))
                          (with_nextObject (S (nextObject s)) s)).
  set (y := patchQueries (clientID ctx) patch s0).
  assert (E : initConnection ctx patch s
              = match results y with
                | Ok _ => (Ok new, with_idleToken None (fields y),
                           match alookup (clientID ctx) (clients s) with
                           | Some old => [Closed (hid old)]
                           | None => []
                           end ++ calls y)
                | Err e => (Err e, fields y,
                            match alookup (clientID ctx) (clients s) with
                            | Some old => [Closed (hid old)]
                            | None => []
                            end ++ calls y ++ [Failed (hid new) e])
                end).
  { unfold initConnection. rewrite bind_get.
    rewrite (bind_run _ _ s tt (with_nextObject (S (nextObject s)) s) [] eq_refl).
    pose proof (runInLock_register ctx "initConnection" patch patchQueries new
                  (with_nextObject (S (nextObject s)) s) eq_refl) as RL.
    cbv zeta in RL. cbn [clients with_nextObject] in RL.
    fold s0 in RL. fold y in RL. fold new.
    destruct (results y) as [[]|e].
    - rewrite (bind_run _ _ _ _ _ _ RL). cbn. now rewrite app_nil_r.
    - rewrite (bind_run_err _ _ _ _ _ _ RL). reflexivity. }
  pose proof (same_patchQueries (clientID ctx) patch s0) as H.
  destruct H as ((H1 & H2 & H3 & H4) & H5 & _). fold y in H1, H2, H3, H4, H5.
  assert (C : connections (fields (initConnection ctx patch s)) = connections s0).
  { rewrite E. destruct (results y); cbn; exact H1. }
  split; [exact E|]. split; [exact C|]. split; [|split; [|split]].
  - rewrite C, alookup_connections. unfold s0. cbn [clients with_clients].
    now rewrite alookup_aset_eq.
  - intros k Hk. rewrite C, !alookup_connections. unfold s0.
    cbn [clients with_clients with_nextObject].
    now rewrite alookup_aset_ne.
  - exact H5.
  - intros e. rewrite E. destruct (results y); cbn; [discriminate|].
    intros _. exact H2.
Qed.

(** X6: a [changeDesiredQueries] message of the connection that is
    registered for its client runs [#patchQueries] on the fields as they
    are: when that returns, the idle timer is cleared; when that raises,
    [fail] is called on the registered handler with the exception, which is
    raised again, and the idle timer is left as it was. *)
Theorem changeDesiredQueries_of_the_current_connection
    (ctx : SyncContext) (patch : list QueriesPatchOp) (s : ViewSyncerService)
    (c : ClientHandler) :
  alookup (clientID ctx) (clients s) = Some c ->
  hWsID c = wsID ctx ->
  let y := patchQueries (clientID ctx) patch s in
  let x := changeDesiredQueries ctx patch s in
  x = match results y with
      | Ok _ => (Ok tt, with_idleToken None (fields y), calls y)
      | Err e => (Err e, fields y, calls y ++ [Failed (hid c) e])
      end /\
  workCalls (calls y) /\
  (forall e, results x = Err e -> idleToken (fields x) = idleToken s).
Proof.
  intros E W. cbv zeta. unfold changeDesiredQueries.
  rewrite (runInLock_current ctx "changeDesiredQueries" patch patchQueries c s E W).
  pose proof (same_patchQueries (clientID ctx) patch s) as H.
  destruct H as ((H1 & H2 & H3 & H4) & H5 & _).
  split; [reflexivity|]. split; [exact H5|].
  intros e. destruct (results (patchQueries (clientID ctx) patch s));
    cbn; [discriminate|]. intros _. exact H2.
Qed.

(** ** The registry of connections *)

Lemma akeys_connections s : map fst (connections s) = akeys (clients s).
Proof. unfold connections, akeys. rewrite map_map. reflexivity. Qed.

Lemma hids_connections s :
  map (fun x => fst (fst (snd x))) (connections s) = map hid (avalues (clients s)).
Proof. unfold connections, avalues. rewrite !map_map. reflexivity. Qed.

Lemma wellRegistered_same s s' :
  wellRegistered s ->
  connections s' = connections s ->
  nextObject s <= nextObject s' ->
  (forall t, idleToken s' = Some t -> t < nextObject s') ->
  wellRegistered s'.
Proof.
  intros (K & I & O & _) C N T. split; [|split; [|split]].
  - rewrite <- akeys_connections, C, akeys_connections. exact K.
  - rewrite <- hids_connections, C, hids_connections. exact I.
  - intros k h Hin.
    assert (Hc : In (k, (hid h, hClientID h, hWsID h)) (connections s')).
    { unfold connections. apply in_map_iff. exists (k, h). split; auto. }
    rewrite C in Hc. unfold connections in Hc. apply in_map_iff in Hc.
    destruct Hc as ([k0 h0] & E & Hin0). cbn [fst snd] in E.
    injection E as -> Eh Ec _. destruct (O _ _ Hin0) as [O1 O2].
    split; [congruence | lia].
  - exact T.
Qed.

Lemma In_aset {V} k (v : V) m x : In x (aset k v m) -> x = (k, v) \/ In x m.
Proof.
  induction m as [|[k' v'] m IH]; cbn.
  - intros [<-|[]]. now left.
  - destruct (String.eqb k k'); cbn.
    + intros [<-|H]; auto.
    + intros [<-|H]; auto. destruct (IH H); auto.
Qed.

Lemma NoDup_hids_aset k v (m : list (string * ClientHandler)) :
  NoDup (map hid (avalues m)) ->
  ~ In (hid v) (map hid (avalues m)) ->
  NoDup (map hid (avalues (aset k v m))).
Proof.
  induction m as [|[k' v'] m IH]; cbn; intros N F.
  - constructor; auto.
  - inversion N as [|? ? N1 N2]; subst.
    destruct (String.eqb k k'); cbn.
    + constructor; auto.
    + constructor.
      * intros Hin. apply in_map_iff in Hin. destruct Hin as (h & E & Hin).
        apply in_map_iff in Hin. destruct Hin as (x & <- & Hin).
        destruct (In_aset _ _ _ _ Hin) as [->|Hm].
        -- cbn in E. apply F. now left.
        -- apply N1. rewrite <- E. apply in_map, in_map. exact Hm.
      * apply IH; auto.
Qed.

Lemma NoDup_map_filter {A B} (f : A -> B) p (l : list A) :
  NoDup (map f l) -> NoDup (map f (filter p l)).
Proof.
  induction l as [|a l IH]; cbn; auto.
  intros N. inversion N as [|? ? N1 N2]; subst.
  destruct (p a); cbn; auto.
  constructor; auto.
  intros Hin. apply N1. apply in_map_iff in Hin. destruct Hin as (x & E & Hin).
  apply filter_In in Hin. rewrite <- E. apply in_map. tauto.
Qed.

Lemma wellRegistered_register cid nc s :
  wellRegistered s ->
  hClientID nc = cid ->
  hid nc = nextObject s ->
  wellRegistered (with_clients (aset cid nc (clients s))
                               (with_nextObject (S (nextObject s)) s)).
Proof.
  intros (K & I & O & T) Hc Hi. split; [|split; [|split]];
    cbn [clients with_clients with_nextObject nextObject idleToken].
  - apply NoDup_akeys_aset. exact K.
  - apply NoDup_hids_aset; auto.
    intros Hin. apply in_map_iff in Hin. destruct Hin as (h & E & Hin).
    apply in_map_iff in Hin. destruct Hin as ([k h'] & <- & Hin).
    destruct (O _ _ Hin) as [_ L]. cbn [snd] in E. lia.
  - intros k h Hin. destruct (In_aset _ _ _ _ Hin) as [E|Hm].
    + injection E as -> ->. split; [exact Hc | lia].
    + destruct (O _ _ Hm). split; [assumption | lia].
  - intros t Ht. specialize (T t Ht). lia.
Qed.

Lemma initConnection_run ctx patch s :
  let new := mkHandler (nextObject s) (clientID ctx) (wsID ctx) (baseCookie ctx) in
  let s0 := with_clients (aset (clientID ctx) new (clients s))
                         (with_nextObject (S (nextObject s)) s) in
  let y := patchQueries (clientID ctx) patch s0 in
  initConnection ctx patch s
  = match results y with
    | Ok _ => (Ok new, with_idleToken None (fields y),
               match alookup (clientID ctx) (clients s) with
               | Some old => [Closed (hid old)]
               | None => []
               end ++ calls y)
    | Err e => (Err e, fields y,
                match alookup (clientID ctx) (clients s) with
                | Some old => [Closed (hid old)]
                | None => []
                end ++ calls y ++ [Failed (hid new) e])
    end.
Proof.
  cbv zeta.
  set (new := mkHandler (nextObject s) (clientID ctx) (wsID ctx) (baseCookie ctx)).
  set (s0 := with_clients (aset (clientID ctx) new (clients s))
                          (with_nextObject (S (nextObject s)) s)).
  set (y := patchQueries (clientID ctx) patch s0).
  unfold initConnection. rewrite bind_get.
  rewrite (bind_run _ _ s tt (with_nextObject (S (nextObject s)) s) [] eq_refl).
  pose proof (runInLock_register ctx "initConnection" patch patchQueries new
                (with_nextObject (S (nextObject s)) s) eq_refl) as RL.
  cbv zeta in RL. cbn [clients with_nextObject] in RL.
  fold s0 in RL. fold y in RL. fold new.
  destruct (results y) as [[]|e].
  - rewrite (bind_run _ _ _ _ _ _ RL). cbn. now rewrite app_nil_r.
  - rewrite (bind_run_err _ _ _ _ _ _ RL). reflexivity.
Qed.

#[local] Instance registrationKept_lawful : Lawful registrationKept anyCalls.
Proof.
  split; unfold registrationKept.
  - auto.
  - auto.
  - exact I.
  - intros; exact I.
Qed.

Lemma registered_sameService s s' :
  sameService s s' -> registrationKept s s'.
Proof.
  intros (C & T & _ & N) W. apply (wellRegistered_same s s' W C).
  - lia.
  - rewrite T, N. apply W.
Qed.

Lemma registered_initConnection ctx patch s :
  registrationKept s (fields (initConnection ctx patch s)).
Proof.
  intros W. rewrite initConnection_run.
  set (new := mkHandler (nextObject s) (clientID ctx) (wsID ctx) (baseCookie ctx)).
  set (s0 := with_clients (aset (clientID ctx) new (clients s))
                          (with_nextObject (S (nextObject s)) s)).
  assert (W0 : wellRegistered s0)
    by (apply wellRegistered_register; auto).
  pose proof (behaves_fields _ _ _ _ s0 (same_patchQueries (clientID ctx) patch))
    as S1.
  pose proof (registered_sameService _ _ S1 W0) as W1.
  destruct (results (patchQueries (clientID ctx) patch s0)); cbn [fields fst snd].
  - destruct W1 as (K & I & O & T). split; [|split; [|split]]; auto.
    cbn. discriminate.
  - exact W1.
Qed.

Lemma registered_changeDesiredQueries ctx patch s :
  registrationKept s (fields (changeDesiredQueries ctx patch s)).
Proof.
  intros W. unfold changeDesiredQueries.
  assert (D : forall s1, wellRegistered s1 ->
            wellRegistered (with_idleToken None s1)).
  { intros s1 (K & I & O & T). split; [|split; [|split]]; auto.
    cbn. discriminate. }
  destruct (alookup (clientID ctx) (clients s)) as [c|] eqn:E.
  - destruct (String.eqb (hWsID c) (wsID ctx)) eqn:Ws.
    + apply String.eqb_eq in Ws.
      rewrite (runInLock_current ctx _ patch patchQueries c s E Ws).
      pose proof (registered_sameService _ _
                    (behaves_fields _ _ _ _ s
                       (same_patchQueries (clientID ctx) patch)) W) as W1.
      destruct (results _); cbn [fields fst snd]; [apply D, W1 | exact W1].
    + unfold runInLockForClient. rewrite bind_get, E, Ws. cbn. apply D, W.
  - unfold runInLockForClient. rewrite bind_get, E. cbn. apply D, W.
Qed.

Lemma registered_startIdleTimer s :
  registrationKept s (fields (startIdleTimer s)).
Proof.
  intros (K & I & O & T). unfold startIdleTimer. rewrite bind_get. cbn.
  split; [|split; [|split]]; cbn; auto.
  - intros k h Hin. destruct (O _ _ Hin). split; [assumption | lia].
  - intros t [= <-]. lia.
Qed.

Lemma registered_deleteClient cid client s :
  registrationKept s (fields (deleteClient cid client s)).
Proof.
  intros W. unfold deleteClient. rewrite bind_get.
  destruct (alookup cid (clients s)) as [c|]; [|exact W].
  destruct (Nat.eqb (hid c) (hid client)); [|exact W].
  assert (W1 : wellRegistered (with_clients (adelete cid (clients s)) s)).
  { destruct W as (K & I & O & T). split; [|split; [|split]]; cbn; auto.
    - apply NoDup_map_filter. exact K.
    - unfold avalues, adelete. rewrite map_map.
      apply (NoDup_map_filter (fun x => hid (snd x))).
      unfold avalues in I. rewrite map_map in I. exact I.
    - intros k h Hin. apply filter_In in Hin. apply O. tauto. }
  apply (wp_modify _ _ s (fun _ s' _ => wellRegistered s')). apply wp_get.
  match goal with |- context [N.eqb ?a ?b] => destruct (N.eqb a b) end.
  - apply registered_startIdleTimer, W1.
  - exact W1.
Qed.

Lemma registered_step op s : registrationKept s (fields (step op s)).
Proof.
  destruct op as [ctx patch|ctx patch| |cid client| |token]; cbn [step].
  - intros W. pose proof (registered_initConnection ctx patch s W) as W1.
    unfold bind. cbv zeta. destruct (results (initConnection ctx patch s));
      cbn; exact W1.
  - apply registered_changeDesiredQueries.
  - apply registered_sameService.
    apply (behaves_fields _ _ _ _ s same_onVersionReady).
  - apply registered_deleteClient.
  - intros W.
    assert (Kp : wellRegistered (fields (keepalive s))).
    { unfold keepalive. rewrite bind_get.
      destruct (negb _); [exact W|].
      destruct (idleToken s) as [t|] eqn:T; [|exact W].
      pose proof (registered_startIdleTimer s W) as W1.
      unfold bind. cbv zeta. destruct (results (startIdleTimer s)); cbn; exact W1. }
    unfold bind. cbv zeta. destruct (results (keepalive s)); cbn; exact Kp.
  - intros W.
    assert (E : fields (idleTimeout token s) = s \/
                fields (idleTimeout token s) = with_active false s).
    { unfold idleTimeout. rewrite bind_get.
      destruct (idleToken s) as [t|]; [destruct (Nat.eqb t token)|]; cbn; auto. }
    destruct E as [-> | ->]; [exact W|].
    destruct W as (K & I & O & T). split; [|split; [|split]]; auto.
Qed.

Lemma registered_runOps ops :
  behaves registrationKept anyCalls anyError (runOps ops).
Proof.
  unfold runOps. apply behaves_forEach. intros op s.
  unfold wp. split; [apply registered_step|]. split; [exact I | intros; exact I].
Qed.

(** X7: the registry of connections stays well formed along any run of
    operations, returning or raising: every handler is registered under the
    client ID it was created for, no client ID and no handler is registered
    twice, and a handler or idle token allocated later is a new one. *)
Theorem connections_stay_well_registered
    (ops : list Op) (s : ViewSyncerService) :
  wellRegistered s -> wellRegistered (fields (runOps ops s)).
Proof. apply (behaves_fields _ _ _ _ s (registered_runOps ops)). Qed.

(** ** The shape of a poke *)

Lemma pokeCalls_app e1 e2 : pokeCalls (e1 ++ e2) = pokeCalls e1 ++ pokeCalls e2.
Proof. apply filter_app. Qed.

Lemma pokeCalls_broadcast pokers p : pokeCalls (broadcast pokers p) = broadcast pokers p.
Proof. unfold pokeCalls, broadcast. induction pokers; cbn; congruence. Qed.

Lemma pokeCalls_starts (pokers : list PokeHandler) v :
  pokeCalls (map (fun p => StartPoke (pkHandler p) v) pokers)
  = map (fun h => StartPoke h v) (map pkHandler pokers).
Proof. unfold pokeCalls. induction pokers; cbn; congruence. Qed.

Lemma pokeCalls_ends (pokers : list PokeHandler) :
  pokeCalls (map (fun p => PokeEnd (pkHandler p)) pokers)
  = map PokeEnd (map pkHandler pokers).
Proof. unfold pokeCalls. induction pokers; cbn; congruence. Qed.

Lemma broadcasts_handlers pokers ps :
  flat_map (broadcast pokers) ps
  = flat_map (fun p => map (fun h => AddPatch h p) (map pkHandler pokers)) ps.
Proof.
  induction ps as [|p ps IH]; cbn; auto.
  rewrite IH. unfold broadcast. now rewrite map_map.
Qed.

Lemma pokers_handlers v s :
  map pkHandler (map (fun c => mkPoker (hid c) v) (avalues (clients s)))
  = handlers s.
Proof. unfold handlers. rewrite map_map. reflexivity. Qed.

#[local] Instance patchesTo_lawful pokers : Lawful anyFields (patchesTo pokers).
Proof.
  split.
  - intros; exact I.
  - intros; exact I.
  - exists []. reflexivity.
  - intros a b [pa Ha] [pb Hb]. exists (pa ++ pb).
    now rewrite pokeCalls_app, Ha, Hb, flat_map_app.
Qed.

#[local] Instance noPokes_lawful : Lawful anyFields noPokes.
Proof.
  split.
  - intros; exact I.
  - intros; exact I.
  - reflexivity.
  - intros a b Ha Hb. unfold noPokes in *. now rewrite pokeCalls_app, Ha, Hb.
Qed.

Lemma noPokes_patchesTo pokers e : noPokes e -> patchesTo pokers e.
Proof. intros H. exists []. exact H. Qed.

Ltac patch_side :=
  first [ exact I | intros; exact I | exists []; reflexivity | reflexivity ].

Lemma patches_addPatchAll pokers p :
  behaves anyFields (patchesTo pokers) anyError (addPatchAll pokers p).
Proof.
  intros s. unfold wp. rewrite addPatchAll_run. cbn.
  split; [exact I|]. split; [|intros; exact I].
  exists [p]. cbn. now rewrite app_nil_r, pokeCalls_broadcast.
Qed.

Ltac patch_auto :=
  repeat first [ apply patches_addPatchAll | behaves_step patch_side ].

Lemma patches_processChanges changes u pokers :
  behaves anyFields (patchesTo pokers) anyError (processChanges changes u pokers).
Proof.
  assert (B : forall rows u, behaves anyFields (patchesTo pokers) anyError
                               (processBatch rows u pokers)).
  { intros. unfold processBatch. patch_auto. }
  assert (Lp : forall l rows u, behaves anyFields (patchesTo pokers) anyError
                                 (processLoop l rows u pokers)).
  { induction l as [|ch l IH]; intros; cbn [processLoop]; patch_auto; auto. }
  unfold processChanges. patch_auto; auto.
Qed.

Lemma behaves_ret_bind {A B} R T P (a : A) (f : A -> M B) :
  behaves R T P (f a) -> behaves R T P (bind (ret a) f).
Proof. intros H s. unfold wp. rewrite bind_ret. apply H. Qed.

Lemma patches_catchupClients c exclude pokers :
  behaves anyFields (patchesTo pokers) anyError
          (catchupClients c exclude (Some pokers)).
Proof.
  unfold catchupClients, sendRowPatch, materialize. cbv beta iota zeta.
  apply behaves_ret_bind. patch_auto.
Qed.

Lemma patches_hydrate c pokers u hash :
  behaves anyFields (patchesTo pokers) anyError (hydrate c pokers u hash).
Proof.
  unfold hydrate, callAddQuery.
  repeat first [ apply patches_processChanges | behaves_step patch_side ].
Qed.

Lemma noPokes_hydrateUnchangedQueries :
  behaves anyFields noPokes anyError hydrateUnchangedQueries.
Proof.
  unfold hydrateUnchangedQueries, loadedCVR, rehydrate, callAddQuery.
  repeat behaves_step patch_side.
Qed.

(** Assembling a poke from its three phases. *)
Lemma poke_assemble {A} (r : Result A) (pokers : list PokeHandler)
    (v : CVRVersion) (pre mid ends post : list Event) (ended : bool) :
  noPokes pre -> patchesTo pokers mid -> noPokes post ->
  ends = (if ended then map (fun p => PokeEnd (pkHandler p)) pokers else []) ->
  (forall a, r = Ok a -> ended = true) ->
  atMostOnePoke (map pkHandler pokers) r
    (pre ++ map (fun p => StartPoke (pkHandler p) v) pokers ++ mid ++ ends ++ post).
Proof.
  intros Hpre [ps Hmid] Hpost -> Hr. right. exists v, ps, ended. split; [|exact Hr].
  rewrite !pokeCalls_app, Hpre, Hmid, Hpost, pokeCalls_starts, broadcasts_handlers.
  unfold pokeRound. cbn [app]. rewrite app_nil_r.
  destruct ended; [now rewrite pokeCalls_ends | reflexivity].
Qed.

Lemma poke_none {A} hs (r : Result A) e : noPokes e -> atMostOnePoke hs r e.
Proof. intros H. now left. Qed.

Lemma poke_prefix {A} hs (r : Result A) pre e :
  noPokes pre -> atMostOnePoke hs r e -> atMostOnePoke hs r (pre ++ e).
Proof.
  intros Hp [H|(v & ps & ended & H & Hr)].
  - left. now rewrite pokeCalls_app, Hp, H.
  - right. exists v, ps, ended. split; [|exact Hr].
    now rewrite pokeCalls_app, Hp.
Qed.

Lemma poke_suffix {A B} hs (a : A) (r : Result B) e post :
  atMostOnePoke hs (Ok a) e -> noPokes post -> atMostOnePoke hs r (e ++ post).
Proof.
  intros [H|(v & ps & ended & H & Hr)] Hp.
  - left. now rewrite pokeCalls_app, Hp, H.
  - right. exists v, ps, ended. rewrite pokeCalls_app, Hp, app_nil_r.
    split; [exact H|]. intros _ _. exact (Hr a eq_refl).
Qed.

Lemma poke_err {A B} hs x (e : list Event) :
  atMostOnePoke hs (Err x : Result A) e -> atMostOnePoke hs (Err x : Result B) e.
Proof.
  intros [H|(v & ps & ended & H & Hr)]; [now left|].
  right. exists v, ps, ended. split; [exact H|]. intros a Ha. discriminate Ha.
Qed.

(** A poke followed by calls that poke nobody. *)
Lemma poke_then {A B} hs (m : M A) (k : A -> M B) s :
  wp m s (fun r _ e => atMostOnePoke hs r e) ->
  (forall a, behaves anyFields noPokes anyError (k a)) ->
  wp (bind m k) s (fun r _ e => atMostOnePoke hs r e).
Proof.
  intros Hm Hk. apply wp_bind. eapply wp_conseq; [apply Hm|].
  cbn beta. intros [a|x] s1 e1 H.
  - eapply wp_conseq; [apply Hk|]. cbn beta. intros r s2 e2 (_ & N & _).
    eapply poke_suffix; eauto.
  - exact (poke_err hs x e1 H).
Qed.

(** Calls that poke nobody, leaving the connections as they are, followed
    by a poke. *)
Lemma poke_after {A B} (m : M A) (k : A -> M B) s :
  behaves sameService workCalls anyError m ->
  behaves anyFields noPokes anyError m ->
  (forall a s1, wp (k a) s1 (fun r _ e => atMostOnePoke (handlers s1) r e)) ->
  wp (bind m k) s (fun r _ e => atMostOnePoke (handlers s) r e).
Proof.
  intros Hs Hn Hk. apply wp_bind.
  eapply wp_conseq; [apply (wp_and _ _ _ _ (Hs s) (Hn s))|].
  cbn beta. intros [a|x] s1 e1 (((C & _) & _) & (_ & N & _)).
  - eapply wp_conseq; [apply Hk|]. cbn beta. intros r s2 e2 H.
    apply poke_prefix; auto.
    assert (E : handlers s1 = handlers s)
      by (unfold handlers; now rewrite <- !hids_connections, C).
    rewrite <- E. exact H.
  - now left.
Qed.

Lemma endsPoke_bind {A B} pokers (m : M A) (f : A -> M B) :
  behaves anyFields (patchesTo pokers) anyError m ->
  (forall a, endsPoke pokers (f a)) ->
  endsPoke pokers (bind m f).
Proof.
  intros Hm Hf s. apply wp_bind. eapply wp_conseq; [apply Hm|].
  cbn beta. intros [a|x] s1 e1 (_ & T1 & _).
  - eapply wp_conseq; [apply Hf|]. cbn beta.
    intros r s2 e2 (mid & ended & T2 & -> & Hr).
    exists (e1 ++ mid), ended. split; [now apply T_app|].
    split; [now rewrite app_assoc | exact Hr].
  - exists e1, false. split; [exact T1|]. split; [now rewrite app_nil_r|].
    intros a Ha. discriminate Ha.
Qed.

Lemma endsPoke_ends pokers : endsPoke pokers (forEach endPoke pokers).
Proof.
  intros s. eapply wp_conseq; [apply endPokes_run|].
  cbn beta. intros r s' e [-> ->]. exists [], true.
  split; [exists []; reflexivity|]. split; reflexivity.
Qed.

Lemma poke_started {A} v (k : list PokeHandler -> M A) s :
  (forall pokers, endsPoke pokers (k pokers)) ->
  wp (pokers <- startPokes v ;; k pokers) s
     (fun r _ e => atMostOnePoke (handlers s) r e).
Proof.
  intros Hk. apply wp_bind. unfold wp at 1. rewrite startPokes_run.
  cbn [results fields calls fst snd].
  set (pokers := map (fun c => mkPoker (hid c) v) (avalues (clients s))).
  eapply wp_conseq; [apply Hk|]. cbn beta.
  intros r s' e (mid & ended & T & -> & Hr).
  rewrite <- (pokers_handlers v s). fold pokers.
  pose proof (poke_assemble r pokers v [] mid _ [] ended eq_refl T eq_refl
                eq_refl Hr) as H.
  cbn [app] in H. now rewrite app_nil_r in H.
Qed.

Ltac ends_auto :=
  repeat first
    [ apply endsPoke_ends
    | apply endsPoke_bind;
      [ first [ apply patches_addPatchAll | apply patches_processChanges
              | apply patches_catchupClients
              | repeat first [ apply patches_addPatchAll
                             | apply patches_processChanges
                             | apply patches_hydrate
                             | behaves_step patch_side ] ]
      | intros ? ] ].

Lemma catchupClients_poke c exclude s :
  wp (catchupClients c exclude None) s
     (fun r _ e => atMostOnePoke (handlers s) r e).
Proof.
  unfold catchupClients. apply poke_started. intros pokers.
  unfold sendRowPatch, materialize. ends_auto.
Qed.

Lemma addAndRemoveQueries_poke c add rem s :
  wp (addAndRemoveQueries c add rem) s
     (fun r _ e => atMostOnePoke (handlers s) r e).
Proof.
  unfold addAndRemoveQueries.
  wp_step; [|now left]. wp_step.
  destruct (trackQueries _ _ _) as [[nv qp] u0].
  wp_step.
  eapply wp_conseq; [apply poke_started|].
  - intros pokers. unfold callRemoveQuery, flushQueryUpdater.
    apply endsPoke_bind; [patch_auto | intros _].
    apply endsPoke_bind; [patch_auto | intros _].
    apply endsPoke_bind;
      [repeat first [apply patches_hydrate | behaves_step patch_side] | intros u1].
    apply endsPoke_bind; [apply behaves_get | intros s4].
    destruct (deleteUnreferencedRows u1 (cvrStore s4)) as [r u2].
    apply endsPoke_bind; [patch_auto | intros patches].
    apply endsPoke_bind; [patch_auto | intros _].
    apply endsPoke_bind; [patch_auto | intros c'].
    apply endsPoke_bind; [patch_auto | intros _].
    apply endsPoke_bind; [apply patches_catchupClients | intros _].
    apply endsPoke_ends.
  - cbn beta. intros r s' e Hp.
    apply (poke_prefix _ r [TrackQueries add rem] e); [reflexivity | exact Hp].
Qed.

Lemma advancePipelines_poke s :
  wp advancePipelines s (fun r _ e => atMostOnePoke (handlers s) r e).
Proof.
  unfold advancePipelines, loadedCVR.
  apply wp_bind. wp_step. destruct (cvr s) as [c|];
    [apply wp_ret | apply wp_raise; now left].
  wp_step. wp_step; [|now left].
  destruct (advance (pipelines s)) as [r p].
  wp_step. wp_step; [|now left].
  match goal with a : (string * nat * Stream RowChange)%type |- _ =>
    destruct a as [[v n] changes] end.
  change (handlers s) with (handlers (with_pipelines p s)).
  apply poke_started. intros pokers. unfold flushQueryUpdater.
  apply endsPoke_bind; [apply patches_processChanges | intros u1].
  apply endsPoke_bind; [patch_auto | intros c'].
  apply endsPoke_bind; [patch_auto | intros _].
  apply endsPoke_ends.
Qed.

Lemma noPokes_assertSynced : behaves anyFields noPokes anyError assertSynced.
Proof. unfold assertSynced. repeat behaves_step patch_side. Qed.

Lemma syncQueryPipelineSet_poke s :
  wp syncQueryPipelineSet s (fun r _ e => atMostOnePoke (handlers s) r e).
Proof.
  unfold syncQueryPipelineSet, loadedCVR.
  apply wp_bind. wp_step. destruct (cvr s) as [c|];
    [apply wp_ret | apply wp_raise; now left].
  wp_step. wp_step; [|now left].
  apply poke_then; [|intros; apply noPokes_assertSynced].
  match goal with |- context [if ?b then _ else _] => destruct b end.
  - apply addAndRemoveQueries_poke.
  - apply catchupClients_poke.
Qed.

Lemma patchQueries_poke cid patch s :
  wp (patchQueries cid patch) s (fun r _ e => atMostOnePoke (handlers s) r e).
Proof.
  unfold patchQueries.
  apply poke_after.
  { unfold loadedCVR. same_auto. }
  { unfold loadedCVR. repeat behaves_step patch_side. }
  intros c s1. apply poke_after.
  { unfold flushConfigUpdater. same_auto. }
  { unfold flushConfigUpdater. repeat behaves_step patch_side. }
  intros _ s2. wp_step. destruct (initialized (pipelines s2)).
  - apply syncQueryPipelineSet_poke.
  - apply wp_ret. now left.
Qed.

Lemma onVersionReady_poke s :
  wp onVersionReady s (fun r _ e => atMostOnePoke (handlers s) r e).
Proof.
  unfold onVersionReady. wp_step. destruct (negb _).
  - apply poke_after; [same_auto | repeat behaves_step patch_side|].
    intros _ s1. apply poke_after;
      [apply same_hydrateUnchangedQueries | apply noPokes_hydrateUnchangedQueries|].
    intros _ s2. apply syncQueryPipelineSet_poke.
  - apply advancePipelines_poke.
Qed.

Lemma poke_failed {A B} hs (r : Result A) x e post :
  atMostOnePoke hs r e -> noPokes post ->
  atMostOnePoke hs (Err x : Result B) (e ++ post).
Proof.
  intros [H|(v & ps & ended & H & Hr)] Hp.
  - left. now rewrite pokeCalls_app, Hp, H.
  - right. exists v, ps, ended. rewrite pokeCalls_app, Hp, app_nil_r.
    split; [exact H|]. intros a Ha. discriminate Ha.
Qed.

Lemma poke_returned {A B} hs (a : A) (b : B) e :
  atMostOnePoke hs (Ok a) e -> atMostOnePoke hs (Ok b) e.
Proof.
  intros [H|(v & ps & ended & H & Hr)]; [now left|].
  right. exists v, ps, ended. split; [exact H|]. intros _ _. exact (Hr a eq_refl).
Qed.

Lemma changeDesiredQueries_poke ctx patch s :
  let x := changeDesiredQueries ctx patch s in
  atMostOnePoke (handlers s) (results x) (calls x).
Proof.
  cbv zeta. unfold changeDesiredQueries.
  pose proof (patchQueries_poke (clientID ctx) patch s) as P. unfold wp in P.
  destruct (alookup (clientID ctx) (clients s)) as [c|] eqn:E.
  - destruct (String.eqb (hWsID c) (wsID ctx)) eqn:Ws.
    + apply String.eqb_eq in Ws.
      rewrite (runInLock_current ctx _ patch patchQueries c s E Ws).
      destruct (results (patchQueries (clientID ctx) patch s)) as [[]|x];
        cbn [results calls fst snd].
      * exact P.
      * apply (poke_failed _ _ x _ [Failed (hid c) x] P). reflexivity.
    + unfold runInLockForClient. rewrite bind_get, E, Ws. cbn. now left.
  - unfold runInLockForClient. rewrite bind_get, E. cbn. now left.
Qed.

Lemma initConnection_poke ctx patch s :
  let x := initConnection ctx patch s in
  atMostOnePoke (pokedBy (InitConnection ctx patch) s) (results x) (calls x).
Proof.
  cbv zeta. rewrite initConnection_run. cbn [pokedBy].
  set (new := mkHandler (nextObject s) (clientID ctx) (wsID ctx) (baseCookie ctx)).
  set (s0 := with_clients (aset (clientID ctx) new (clients s))
                          (with_nextObject (S (nextObject s)) s)).
  pose proof (patchQueries_poke (clientID ctx) patch s0) as P. unfold wp in P.
  change (handlers s0)
    with (handlers (with_clients (aset (clientID ctx) new (clients s)) s)) in P.
  assert (C : noPokes match alookup (clientID ctx) (clients s) with
                      | Some old => [Closed (hid old)]
                      | None => []
                      end) by (destruct (alookup _ _); reflexivity).
  destruct (results (patchQueries (clientID ctx) patch s0)) as [[]|x];
    cbn [results calls fst snd].
  - apply poke_prefix; [exact C|]. exact (poke_returned _ tt new _ P).
  - apply poke_prefix; [exact C|].
    apply (poke_failed _ _ x _ [Failed (hid new) x] P). reflexivity.
Qed.

(** X8: every operation pokes the clients at most once, and then by the
    book: [startPoke] is called once on every registered handler (with the
    connecting client's new handler in its place), all with the same
    version; every patch is added to every one of them, in the same order;
    [end] is called on all of them or on none, and on all of them when the
    operation returns.  Disconnecting, keepalives and the idle timer poke
    nobody. *)
Theorem every_operation_pokes_at_most_once (op : Op) (s : ViewSyncerService) :
  let x := step op s in
  atMostOnePoke (pokedBy op s) (results x) (calls x) /\
  match op with
  | DeleteClient _ _ | Keepalive | IdleTimeout _ => pokeCalls (calls x) = []
  | _ => True
  end.
Proof.
  cbv zeta.
  assert (Q : forall (m : M unit),
             behaves anyFields noPokes anyError m ->
             atMostOnePoke (handlers s) (results (m s)) (calls (m s)) /\
             pokeCalls (calls (m s)) = []).
  { intros m H. destruct (H s) as (_ & N & _). split; [now left | exact N]. }
  destruct op as [ctx patch|ctx patch| |cid client| |token]; cbn [step pokedBy].
  - split; [|exact I].
    pose proof (initConnection_poke ctx patch s) as P. cbv zeta in P.
    cbn [pokedBy] in P. unfold bind. cbv zeta.
    destruct (results (initConnection ctx patch s)) as [h|x]; cbn.
    + rewrite app_nil_r. exact (poke_returned _ h tt _ P).
    + exact (poke_err _ x _ P).
  - split; [apply changeDesiredQueries_poke | exact I].
  - split; [apply (onVersionReady_poke s) | exact I].
  - apply Q. unfold deleteClient, startIdleTimer. repeat behaves_step patch_side.
  - apply Q. unfold keepalive, startIdleTimer. repeat behaves_step patch_side.
  - apply Q. unfold idleTimeout. repeat behaves_step patch_side.
Qed.

(** ** What is raised *)

#[local] Instance staysLoaded_lawful : Lawful staysLoaded anyCalls.
Proof.
  split; unfold staysLoaded.
  - auto.
  - auto.
  - exact I.
  - intros; exact I.
Qed.

Lemma stageChange_raises rows ch x :
  stageChange rows ch = Err x -> exists row, x = InvalidVersionError row.
Proof.
  unfold stageChange.
  destruct (match alookup _ rows with Some entry => entry | None => _ end)
    as [storedID parsedRow].
  destruct (rcRow ch) as [row|]; [|discriminate].
  destruct (falsy _); [|discriminate].
  destruct (alookup ZERO_VERSION_COLUMN_NAME row) as [[| | |v]|];
    try (intros [= <-]; eauto).
  destruct (Nat.eqb _ _); [intros [= <-]; eauto | discriminate].
Qed.

Lemma rowPatch_raises p row x :
  rowPatch p row = Err x -> exists tbl key, x = MissingRowError tbl key.
Proof.
  unfold rowPatch. destruct (rpRefCounts row); [|discriminate].
  destruct (getRow _ _ _); [discriminate|]. intros [= <-]. eauto.
Qed.

Section Raises.
Variable P : Error -> Prop.
Hypothesis P_assert : forall msg, P (AssertionError msg).
Hypothesis P_version : forall row, P (InvalidVersionError row).
Hypothesis P_external : forall x, P (External x).

Ltac raise_side :=
  first [ exact I
        | apply P_assert | apply P_version | apply P_external
        | intros; exact I
        | intros; apply P_external
        | let H := fresh in intros ? H; exact H
        | intros ? ?; discriminate
        | let H := fresh in
          intros ? H;
          match type of H with
          | stageChange _ _ = Err _ =>
              destruct (stageChange_raises _ _ _ H) as [? ->]; apply P_version
          end ].

Lemma raises_processChanges changes u pokers :
  behaves staysLoaded anyCalls P (processChanges changes u pokers).
Proof.
  assert (B : forall rows u, behaves staysLoaded anyCalls P
                               (processBatch rows u pokers)).
  { intros. unfold processBatch, addPatchAll. repeat behaves_step raise_side. }
  assert (Lp : forall l rows u, behaves staysLoaded anyCalls P
                                 (processLoop l rows u pokers)).
  { induction l as [|ch l IH]; intros; cbn [processLoop];
      repeat behaves_step raise_side; auto. }
  unfold processChanges. repeat behaves_step raise_side; auto.
Qed.

Lemma raises_hydrateUnchangedQueries :
  behaves staysLoaded anyCalls P hydrateUnchangedQueries.
Proof.
  unfold hydrateUnchangedQueries, loadedCVR, rehydrate, callAddQuery.
  repeat behaves_step raise_side.
Qed.

Lemma raises_advancePipelines :
  behaves staysLoaded anyCalls P advancePipelines.
Proof.
  unfold advancePipelines, loadedCVR, startPokes, flushQueryUpdater, endPoke.
  repeat first [ apply raises_processChanges | behaves_step raise_side ].
Qed.

Hypothesis P_missing : forall tbl key, P (MissingRowError tbl key).

Lemma raises_catchupClients c exclude usePokers :
  behaves staysLoaded anyCalls P (catchupClients c exclude usePokers).
Proof.
  unfold catchupClients, startPokes, sendRowPatch, materialize, addPatchAll,
    endPoke.
  repeat first
    [ behaves_step raise_side
    | apply behaves_liftResult; intros x Hx;
      destruct (rowPatch_raises _ _ _ Hx) as (? & ? & ->); apply P_missing ].
Qed.

Lemma raises_hydrate c pokers u hash :
  alookup hash (queries c) <> None ->
  behaves staysLoaded anyCalls P (hydrate c pokers u hash).
Proof.
  intros H. unfold hydrate, callAddQuery.
  destruct (alookup hash (queries c)); [|congruence].
  repeat first [ apply raises_processChanges | behaves_step raise_side ].
Qed.

Lemma raises_hydrateAll c pokers add :
  (forall h, In h add -> alookup h (queries c) <> None) ->
  forall u, behaves staysLoaded anyCalls P (foldM (hydrate c pokers) add u).
Proof.
  induction add as [|h add IH]; intros H u; cbn [foldM].
  - apply behaves_ret.
  - apply behaves_bind.
    + apply raises_hydrate. apply H. now left.
    + intros u'. apply IH. intros h' Hin. apply H. now right.
Qed.

Lemma raises_addAndRemoveQueries c add rem :
  (forall h, In h add -> alookup h (queries c) <> None) ->
  behaves staysLoaded anyCalls P (addAndRemoveQueries c add rem).
Proof.
  intros H.
  unfold addAndRemoveQueries, startPokes, addPatchAll, callRemoveQuery,
    flushQueryUpdater, endPoke.
  repeat first [ apply raises_hydrateAll; exact H
               | apply raises_catchupClients
               | behaves_step raise_side ].
Qed.



Lemma desired_in_cvr c h :
  In h (desiredClientQueries c) -> alookup h (queries c) <> None.
Proof.
  unfold desiredClientQueries. intros H. apply filter_In in H.
  destruct H as [_ H]. destruct (alookup h (queries c)); [discriminate|].
  discriminate H.
Qed.

Lemma raises_syncQueryPipelineSet :
  behaves staysLoaded anyCalls P syncQueryPipelineSet.
Proof.
  intros s. unfold syncQueryPipelineSet, loadedCVR.
  apply wp_bind. apply wp_get. destruct (cvr s) as [c|] eqn:C.
  2: { apply wp_raise. split; [intros H; exact H|]. split; [exact I|].
       intros x [= <-]. apply P_assert. }
  apply wp_ret. apply wp_get. apply wp_assert.
  2: { intros _. split; [intros H; exact H|]. split; [exact I|].
       intros x [= <-]. apply P_assert. }
  intros _. apply wp_bind.
  set (add := difference (desiredClientQueries c) (addedQueries (pipelines s))).
  assert (Hadd : forall h, In h add -> alookup h (queries c) <> None).
  { intros h Hin. apply desired_in_cvr. unfold add, difference in Hin.
    apply filter_In in Hin. tauto. }
  assert (Br : behaves staysLoaded anyCalls P
    (if Nat.ltb 0 (length add)
        || Nat.ltb 0 (length (difference (akeys (queries c))
                                         (desiredClientQueries c)))
     then addAndRemoveQueries c add
            (difference (akeys (queries c)) (desiredClientQueries c))
     else catchupClients c [] None)).
  { destruct (_ || _);
      [apply raises_addAndRemoveQueries; exact Hadd | apply raises_catchupClients]. }
  eapply wp_conseq; [apply Br|]. cbn beta.
  intros [[]|x] s1 e1 (R1 & _ & P1).
  - assert (L : cvr s1 <> None) by (apply R1; congruence).
    unfold assertSynced. apply wp_get.
    destruct (cvr s1) as [c1|] eqn:C1; [|congruence].
    destruct (String.eqb _ _); cbn.
    + apply wp_ret. split; [exact R1|]. split; [exact I | discriminate].
    + apply wp_raise. split; [exact R1|]. split; [exact I|].
      intros x [= <-]. apply P_assert.
  - split; [exact R1|]. split; [exact I|]. intros y [= <-]. now apply P1.
Qed.

Lemma raises_patchQueries cid patch :
  behaves staysLoaded anyCalls P (patchQueries cid patch).
Proof.
  unfold patchQueries, loadedCVR, flushConfigUpdater.
  repeat first [ apply raises_syncQueryPipelineSet | behaves_step raise_side ].
Qed.

Lemma raises_onVersionReady : behaves staysLoaded anyCalls P onVersionReady.
Proof.
  unfold onVersionReady.
  repeat first [ apply raises_syncQueryPipelineSet | apply raises_advancePipelines
               | apply raises_hydrateUnchangedQueries
               | behaves_step raise_side ].
Qed.

Lemma raises_runInLockForClient ctx cmd patch newClient :
  behaves staysLoaded anyCalls P
          (runInLockForClient ctx cmd patch patchQueries newClient).
Proof.
  unfold runInLockForClient.
  apply behaves_bind; [apply behaves_get | intros s0].
  apply behaves_bind; [|intros; behaves_step raise_side].
  assert (C : forall h,
    behaves staysLoaded anyCalls P
      (catch (patchQueries (clientID ctx) patch)
             (fun e => emit (Failed h e) ;; raise e))).
  { intros h. eapply behaves_catch; [apply raises_patchQueries|].
    intros x Px. apply behaves_bind; [behaves_step raise_side | intros _].
    apply behaves_raise. exact Px. }
  destruct newClient as [nc|].
  - repeat first [apply C | behaves_step raise_side].
  - destruct (alookup _ _) as [client|]; [destruct (negb _)|];
      first [apply C | behaves_step raise_side].
Qed.

Lemma raises_step op : behaves staysLoaded anyCalls P (step op).
Proof.
  destruct op as [ctx patch|ctx patch| |cid client| |token]; cbn [step].
  - unfold initConnection.
    repeat first [apply raises_runInLockForClient | behaves_step raise_side].
  - apply raises_runInLockForClient.
  - apply raises_onVersionReady.
  - unfold deleteClient, startIdleTimer. repeat behaves_step raise_side.
  - unfold keepalive, startIdleTimer. repeat behaves_step raise_side.
  - unfold idleTimeout. repeat behaves_step raise_side.
Qed.

End Raises.

Lemma returns_quietly op s :
  match op with
  | DeleteClient _ _ | Keepalive | IdleTimeout _ => results (step op s) = Ok tt
  | _ => True
  end.
Proof.
  assert (Q : forall (m : M unit),
             behaves staysLoaded anyCalls (fun _ => False) m ->
             results (m s) = Ok tt).
  { intros m H. destruct (H s) as (_ & _ & N).
    destruct (results (m s)) as [[]|x]; [reflexivity|]. destruct (N x eq_refl). }
  destruct op as [ctx patch|ctx patch| |cid client| |token]; cbn [step]; auto;
    apply Q.
  - unfold deleteClient, startIdleTimer.
    repeat behaves_step ltac:(first [exact I | intros; exact I
                                    | let H := fresh in intros ? H; exact H]).
  - unfold keepalive, startIdleTimer.
    repeat behaves_step ltac:(first [exact I | intros; exact I
                                    | let H := fresh in intros ? H; exact H]).
  - unfold idleTimeout.
    repeat behaves_step ltac:(first [exact I | intros; exact I
                                    | let H := fresh in intros ? H; exact H]).
Qed.

(** X9: no operation raises a [TypeError]: the queries the service reads
    from the CVR by key ([cvr.queries[hash]] when it hydrates) are all
    there, and the pointer it dereferences after reconciling is set.  What
    an operation raises is a failed assertion, an invalid row version, a
    missing row of a catch-up, or what the store or the pipelines raised;
    advancing the pipelines never raises the missing-row error; and
    disconnecting, keepalives and the idle timer never raise. *)
Theorem operations_raise_no_type_error :
  (forall op s e, results (step op s) = Err e -> expected e) /\
  (forall s e, results (advancePipelines s) = Err e -> fromAdvance e) /\
  (forall op s,
      match op with
      | DeleteClient _ _ | Keepalive | IdleTimeout _ =>
          results (step op s) = Ok tt
      | _ => True
      end).
Proof.
  split; [|split].
  - intros op s e.
    assert (B : behaves staysLoaded anyCalls expected (step op))
      by (apply raises_step; intros; exact I).
    destruct (B s) as (_ & _ & H). apply H.
  - intros s e.
    assert (B : behaves staysLoaded anyCalls fromAdvance advancePipelines)
      by (apply raises_advancePipelines; intros; exact I).
    destruct (B s) as (_ & _ & H). apply H.
  - apply returns_quietly.
Qed.

(** ** Streams that fail *)

Lemma In_pageCalls pokers pages rows r :
  In (Received rows r) (flat_map (pageCalls pokers) pages) ->
  exists pg, In pg pages /\ pageRows pg = rows.
Proof.
  intros H. apply in_flat_map in H. destruct H as (pg & Hin & H).
  exists pg. split; [exact Hin|]. unfold pageCalls in H.
  destruct H as [H|H]; [now injection H|].
  destruct (pageAnswer pg) as [x|patches]; [destruct H|].
  apply in_flat_map in H. destruct H as (p & _ & H).
  unfold broadcast in H. apply in_map_iff in H. destruct H as (? & H & _).
  discriminate H.
Qed.

(** X10: when the stream of changes fails, [#processChanges] raises and the
    rows staged since the last full page are never handed to the updater:
    every batch it received has exactly [CURSOR_PAGE_SIZE] rows.  The
    exception is the stream's unless a row version was invalid or the
    updater failed before. *)
Theorem processChanges_drops_the_batch_of_a_failed_stream
    (changes : Stream RowChange) (err : ExtError) (u : QueryUpdater)
    (pokers : list PokeHandler) (s : ViewSyncerService) :
  snd changes = Some err ->
  let x := processChanges changes u pokers s in
  let y := processLoop (fst changes) [] u pokers s in
  (forall u', results x <> Ok u') /\
  calls x = calls y /\
  (forall rows r, In (Received rows r) (calls x) -> size rows = CURSOR_PAGE_SIZE) /\
  (forall ru, results y = Ok ru -> results x = Err (External err)).
Proof.
  intros E. cbv zeta.
  pose proof (processLoop_pages pokers (fst changes) [] u s [] stagedFrom_nil)
    as L.
  assert (Sz : (size (@nil (string * (RowID * RowUpdate))) < CURSOR_PAGE_SIZE)%N)
    by (vm_compute; reflexivity).
  specialize (L Sz). cbv zeta in L. destruct L as (F & pages & C & Full & _).
  assert (X : processChanges changes u pokers s
              = match results (processLoop (fst changes) [] u pokers s) with
                | Ok _ => (Err (External err), s,
                           calls (processLoop (fst changes) [] u pokers s))
                | Err e => (Err e, s,
                            calls (processLoop (fst changes) [] u pokers s))
                end).
  { unfold processChanges.
    destruct (processLoop (fst changes) [] u pokers s) as [[r s1] e1] eqn:LP.
    cbn [fields fst snd] in F. subst s1. cbn [results calls fst snd].
    destruct r as [[rows u1]|e].
    - rewrite (bind_run _ _ _ _ _ _ LP). rewrite E. cbn. now rewrite app_nil_r.
    - rewrite (bind_run_err _ _ _ _ _ _ LP). reflexivity. }
  rewrite X.
  split; [|split; [|split]].
  - intros u'. destruct (results _); discriminate.
  - destruct (results _); reflexivity.
  - intros rows r Hin.
    assert (Hin' : In (Received rows r)
                      (calls (processLoop (fst changes) [] u pokers s)))
      by (destruct (results _); exact Hin).
    rewrite C in Hin'. destruct (In_pageCalls _ _ _ _ Hin') as (pg & Hpg & <-).
    rewrite Forall_forall in Full. apply (Full pg Hpg).
  - intros ru ->. reflexivity.
Qed.

(** ** Patches without pokes *)

(** X11: an empty desired-queries patch creates no config updater and
    flushes none: it is the reconciliation of the pipelines alone, or
    nothing at all while the pipelines are not initialized.  A patch that
    arrives before the pipelines are initialized is only recorded: the
    flush of the config updater is the one call made, no poke is started
    and no pipeline is touched; when that flush fails, its error is raised
    and the CVR pointer is left alone. *)
Theorem patchQueries_before_the_pipelines_are_initialized
    (cid : string) (patch : list QueriesPatchOp) (s : ViewSyncerService)
    (c : CVRSnapshot) :
  cvr s = Some c ->
  (patch = [] ->
   patchQueries cid patch s
   = if initialized (pipelines s) then syncQueryPipelineSet s
     else (Ok tt, s, [])) /\
  (patch <> [] -> initialized (pipelines s) = false ->
   let u := fst (fold_left (applyPatch cid) patch (newConfigUpdater c, [])) in
   let f := flushConfig u (cvrStore s) in
   patchQueries cid patch s
   = match fst f with
     | inr c' => (Ok tt, with_cvr (Some c') (with_store (snd f) s),
                  [Flush (fst f)])
     | inl x => (Err (External x), with_store (snd f) s, [Flush (fst f)])
     end).
Proof.
  intros C. split.
  - intros ->. unfold patchQueries, loadedCVR.
    rewrite bind_assoc, bind_get, C, bind_ret. cbn [length Nat.ltb Nat.leb].
    rewrite bind_ret, bind_get.
    destruct (initialized (pipelines s)); reflexivity.
  - intros N I. cbv zeta. unfold patchQueries, loadedCVR.
    rewrite bind_assoc, bind_get, C, bind_ret.
    apply nonempty_ltb in N. rewrite N.
    destruct (fold_left _ _ _) as [u added]. cbn [fst].
    unfold flushConfigUpdater.
    destruct (flushConfig u (cvrStore s)) as [r st'] eqn:F.
    unfold bind. cbn. rewrite F. cbn.
    destruct r as [x|c']; cbn; [reflexivity|].
    now rewrite I.
Qed.

(** ** The life of the service *)

Section LifecycleFacts.
Context {TD : PipelineTeardown}.

Lemma cleanup_run err s :
  cleanup err s
  = (Ok tt, with_pipelines (destroy (pipelines s)) s,
     releases err (handlers s)).
Proof.
  unfold cleanup. rewrite (bind_run _ _ s tt _ [] eq_refl).
  cbn [fields fst snd results calls app]. rewrite bind_get.
  cbn [clients with_pipelines].
  rewrite (forEach_run _ (fun c => [match err with
                                    | Some e => Failed (hid c) e
                                    | None => Closed (hid c)
                                    end])).
  - cbn. f_equal. unfold releases, handlers. rewrite map_map.
    induction (avalues (clients s)); cbn; congruence.
  - intros a. destruct err; reflexivity.
Qed.

Lemma catch_ext {A} (m m' : M A) h s : m' s = m s -> catch m h s = catch m' h s.
Proof. intros E. unfold catch. now rewrite E. Qed.

Lemma cleanup_after (body : M unit) s :
  catch (body ;; cleanup None) (fun e => cleanup (Some e)) s
  = (Ok tt,
     with_pipelines (destroy (pipelines (fields (body s)))) (fields (body s)),
     calls (body s)
     ++ releases match results (body s) with Ok _ => None | Err e => Some e end
                 (handlers (fields (body s)))).
Proof.
  unfold catch, bind. cbv zeta.
  destruct (body s) as [[[[]|e] s1] e1]; cbn [results fields calls fst snd];
    rewrite cleanup_run; cbn [results fields calls fst snd]; reflexivity.
Qed.

Lemma registered_start s : registrationKept s (fields (start s)).
Proof.
  apply registered_sameService.
  assert (B : behaves sameService workCalls anyError start)
    by (unfold start; same_auto).
  apply (behaves_fields _ _ _ _ s B).
Qed.

Lemma registered_turn i s : registrationKept s (fields (turn i s)).
Proof.
  destruct i as [op|]; cbn [turn].
  - assert (C : registrationKept s
                  (fields (catch (step op) (fun _ => ret tt) s))).
    { intros W. pose proof (registered_step op s W) as W1.
      unfold catch. cbv zeta. destruct (results (step op s)); cbn; exact W1. }
    destruct op; try exact C. apply (registered_step VersionReady).
  - intros (K & I & O & T). split; [|split; [|split]]; auto.
Qed.

Lemma registered_serve inputs :
  behaves registrationKept anyCalls anyError (serve inputs).
Proof.
  induction inputs as [|i rest IH]; cbn [serve].
  - apply behaves_ret.
  - apply behaves_bind; [apply behaves_get | intros s0].
    destruct (versionChangesActive s0); [|apply behaves_ret].
    apply behaves_bind; [|intros; apply IH].
    intros s. unfold wp. split; [apply registered_turn|].
    split; [exact I | intros; exact I].
Qed.

Lemma handlers_NoDup s : wellRegistered s -> NoDup (handlers s).
Proof. intros (_ & I & _). exact I. Qed.

(** X12: [run()] never raises, and it ends with [#cleanup]: the pipelines
    are destroyed and every handler registered at that time is released,
    once each: closed when the loop ended because the version subscription
    was cancelled, failed with the exception when the load of the CVR or a
    version change raised.  When the CVR cannot be loaded nothing else is
    done before the cleanup. *)
Theorem run_releases_every_client
    (inputs : list Input) (s : ViewSyncerService) :
  wellRegistered s ->
  let b := (start ;; serve inputs) s in
  let x := run inputs s in
  let err := match results b with Ok _ => None | Err e => Some e end in
  x = (Ok tt, with_pipelines (destroy (pipelines (fields b))) (fields b),
       calls b ++ releases err (handlers (fields b))) /\
  NoDup (handlers (fields b)) /\
  (forall e st', load (cvrStore s) = (inl e, st') ->
                 b = (Err (External e), with_store st' s, [])).
Proof.
  intros W. cbv zeta.
  set (b := (start ;; serve inputs) s).
  split; [|split].
  - unfold b. unfold run. rewrite (catch_ext _ _ _ s (bind_assoc _ _ _ s)).
    apply cleanup_after.
  - apply handlers_NoDup.
    assert (B : behaves registrationKept anyCalls anyError
                        (start ;; serve inputs)).
    { apply behaves_bind; [|intros; apply registered_serve].
      intros s0. unfold wp. split; [apply registered_start|].
      split; [exact I | intros; exact I]. }
    apply (behaves_fields _ _ _ _ s B W).
  - intros e st' L. unfold b, start.
    rewrite bind_assoc, bind_get, L.
    unfold bind. cbn. reflexivity.
Qed.

End LifecycleFacts.

(** ** Invariants of a run *)

Lemma loaded_runOps ops : behaves staysLoaded anyCalls anyError (runOps ops).
Proof.
  unfold runOps. apply behaves_forEach. intros op.
  apply raises_step; intros; exact I.
Qed.

(** X13: once the CVR is loaded no operation unsets the pointer: after any
    run of operations, returning or raising, [#cvr] is still set. *)
Theorem the_cvr_stays_loaded (ops : list Op) (s : ViewSyncerService) :
  cvr s <> None -> cvr (fields (runOps ops s)) <> None.
Proof. apply (behaves_fields _ _ _ _ s (loaded_runOps ops)). Qed.

Lemma runInLock_clears {B} ctx cmd (body : B) fn newClient s :
  results (runInLockForClient ctx cmd body fn newClient s) = Ok tt ->
  idleToken (fields (runInLockForClient ctx cmd body fn newClient s)) = None.
Proof.
  unfold runInLockForClient. rewrite bind_get.
  match goal with |- context [bind ?m _ s] => generalize m end.
  intros m. unfold bind. cbv zeta.
  destruct (m s) as [[[[]|x] s1] e1]; cbn; [reflexivity | discriminate].
Qed.

(** X14: a client message that returns cancels the pending idle shutdown,
    a dropped message of a stale connection included: after an
    [initConnection] or a [changeDesiredQueries] that returned, no idle
    token is left and the callback of any timer armed before does
    nothing. *)
Theorem a_returned_message_cancels_the_idle_shutdown :
  (forall ctx patch s h token,
      let x := initConnection ctx patch s in
      results x = Ok h ->
      idleToken (fields x) = None /\
      idleTimeout token (fields x) = (Ok tt, fields x, [])) /\
  (forall ctx patch s token,
      let x := changeDesiredQueries ctx patch s in
      results x = Ok tt ->
      idleToken (fields x) = None /\
      idleTimeout token (fields x) = (Ok tt, fields x, [])).
Proof.
  assert (T : forall s token, idleToken s = None ->
                              idleTimeout token s = (Ok tt, s, [])).
  { intros s token E. unfold idleTimeout. rewrite bind_get, E. reflexivity. }
  split.
  - intros ctx patch s h token. cbv zeta. rewrite initConnection_run.
    destruct (results (patchQueries _ _ _)); cbn [results fields fst snd];
      [|discriminate].
    intros _. split; [reflexivity|]. apply T. reflexivity.
  - intros ctx patch s token. cbv zeta. intros R.
    pose proof (runInLock_clears ctx "changeDesiredQueries" patch patchQueries
                  None s R) as E.
    split; [exact E | apply T, E].
Qed.

(** ** Reconnecting *)

Lemma initConnection_lookup ctx patch s :
  exists h,
    alookup (clientID ctx) (clients (fields (initConnection ctx patch s))) = Some h /\
    hid h = nextObject s.
Proof.
  set (new := mkHandler (nextObject s) (clientID ctx) (wsID ctx) (baseCookie ctx)).
  set (s0 := with_clients (aset (clientID ctx) new (clients s))
                          (with_nextObject (S (nextObject s)) s)).
  assert (C : connections (fields (initConnection ctx patch s)) = connections s0).
  { rewrite initConnection_run. fold new. fold s0.
    pose proof (behaves_fields _ _ _ _ s0 (same_patchQueries (clientID ctx) patch))
      as (H & _).
    destruct (results (patchQueries (clientID ctx) patch s0));
      cbn [fields fst snd]; exact H. }
  assert (L : alookup (clientID ctx) (connections (fields (initConnection ctx patch s)))
              = Some (nextObject s, clientID ctx, wsID ctx)).
  { rewrite C, alookup_connections. unfold s0. cbn [clients with_clients].
    now rewrite alookup_aset_eq. }
  rewrite alookup_connections in L.
  destruct (alookup (clientID ctx) (clients (fields (initConnection ctx patch s))))
    as [h|]; [|discriminate].
  exists h. split; [reflexivity|]. cbn in L. now injection L.
Qed.

(** X15: a client reconnects before the cleanup of its earlier connection
    has run: whatever [initConnection] did, returning or raising, the
    [#deleteClient] of a handler created before it changes nothing: the new
    handler stays registered and no idle timer is armed. *)
Theorem a_late_cleanup_spares_the_new_connection
    (ctx : SyncContext) (patch : list QueriesPatchOp) (s : ViewSyncerService)
    (old : ClientHandler) :
  hid old < nextObject s ->
  let x := initConnection ctx patch s in
  deleteClient (clientID ctx) old (fields x) = (Ok tt, fields x, []) /\
  exists h,
    alookup (clientID ctx) (clients (fields x)) = Some h /\
    hid h = nextObject s.
Proof.
  intros O. cbv zeta.
  destruct (initConnection_lookup ctx patch s) as (h & L & I).
  split; [|eauto].
  unfold deleteClient. rewrite bind_get, L.
  assert (N : Nat.eqb (hid h) (hid old) = false) by (apply Nat.eqb_neq; lia).
  rewrite N. reflexivity.
Qed.

(** ** The idle shutdown *)

(** X16: when the only registered client disconnects, [#deleteClient]
    empties the map and arms the idle timer; if nothing clears or replaces
    the token before the timer fires, its callback cancels the version
    subscription, after which [keepalive] answers [false]. *)
Theorem the_last_client_leaves
    (cid : string) (h : ClientHandler) (s : ViewSyncerService) :
  clients s = [(cid, h)] ->
  let t := nextObject s in
  let x := deleteClient cid h s in
  let z := idleTimeout t (fields x) in
  x = (Ok tt,
       with_nextObject (S t) (with_idleToken (Some t) (with_clients [] s)),
       [IdleTimerArmed t]) /\
  z = (Ok tt, with_active false (fields x), []) /\
  keepalive (fields z) = (Ok false, fields z, []).
Proof.
  intros C. cbv zeta.
  assert (X : deleteClient cid h s
              = (Ok tt,
                 with_nextObject (S (nextObject s))
                   (with_idleToken (Some (nextObject s)) (with_clients [] s)),
                 [IdleTimerArmed (nextObject s)])).
  { assert (D : adelete cid [(cid, h)] = [])
      by (unfold adelete; cbn [filter fst]; now rewrite String.eqb_refl).
    unfold deleteClient. rewrite bind_get, C. cbn [alookup].
    rewrite String.eqb_refl, Nat.eqb_refl.
    rewrite (bind_run _ _ s tt (with_clients (adelete cid (clients s)) s) []
               eq_refl).
    rewrite C, D, bind_get. cbn [clients with_clients].
    change (N.eqb (size (@nil (string * ClientHandler))) 0) with true.
    cbv iota. unfold startIdleTimer. rewrite bind_get.
    unfold bind, modify, emit. cbn. reflexivity. }
  rewrite X. cbn [fields fst snd].
  split; [reflexivity|].
  unfold idleTimeout. rewrite bind_get. cbn [idleToken with_nextObject with_idleToken].
  rewrite Nat.eqb_refl. cbn [modify fields fst snd].
  split; [reflexivity|].
  unfold keepalive. rewrite bind_get. reflexivity.
Qed.

(** ** The versions of ended pokes *)

Lemma version_lt_le a b : version_lt (Some a) (Some b) -> version_le a b.
Proof. unfold version_lt, version_le. congruence. Qed.

Lemma version_le_neq a b : version_le a b -> b <> a -> version_lt (Some a) (Some b).
Proof.
  unfold version_le, version_lt. intros H Ne.
  destruct (cmpVersions (Some a) (Some b)) eqn:E; [|reflexivity|congruence].
  apply cmpVersions_eq in E. congruence.
Qed.

Lemma version_le_lt_trans a b c :
  version_le a b -> version_lt (Some b) (Some c) -> version_lt (Some a) (Some c).
Proof.
  unfold version_le, version_lt. intros H1 H2.
  destruct (cmpVersions (Some a) (Some b)) eqn:E; [| |congruence].
  - apply cmpVersions_eq in E. now rewrite E.
  - eapply cmpVersions_lt_trans; eauto.
Qed.

Lemma version_lt_le_trans a b c :
  version_lt (Some a) (Some b) -> version_le b c -> version_lt (Some a) (Some c).
Proof.
  unfold version_le, version_lt. intros H1 H2.
  destruct (cmpVersions (Some b) (Some c)) eqn:E; [| |congruence].
  - apply cmpVersions_eq in E. now rewrite <- E.
  - eapply cmpVersions_lt_trans; eauto.
Qed.

Lemma endedFrom_app h e1 : forall o e2,
  endedFrom h o (e1 ++ e2) = endedFrom h o e1 ++ endedFrom h (openAfter h o e1) e2.
Proof.
  induction e1 as [|ev e1 IH]; intros o e2; cbn [app endedFrom openAfter]; auto.
  destruct ev; auto.
  destruct (Nat.eqb h h0); auto.
  destruct o; cbn [app]; now rewrite IH.
Qed.

Lemma openAfter_app h e1 : forall o e2,
  openAfter h o (e1 ++ e2) = openAfter h (openAfter h o e1) e2.
Proof.
  induction e1 as [|ev e1 IH]; intros o e2; cbn [app openAfter]; auto.
  destruct ev; auto.
Qed.

Lemma endedFrom_pokeCalls h e : forall o,
  endedFrom h o (pokeCalls e) = endedFrom h o e.
Proof.
  unfold pokeCalls.
  induction e as [|ev e IH]; intros o; cbn [filter endedFrom]; auto.
  destruct ev; cbn [isPoke endedFrom]; auto.
  - destruct (Nat.eqb h h0); auto. destruct o; now rewrite IH.
Qed.

Lemma endedFrom_starts h v hs : forall o rest,
  endedFrom h o (map (fun h' => StartPoke h' v) hs ++ rest)
  = endedFrom h (if existsb (Nat.eqb h) hs then Some v else o) rest.
Proof.
  induction hs as [|h' hs IH]; intros o rest; cbn [map app endedFrom existsb]; auto.
  rewrite IH. destruct (Nat.eqb h h'); cbn [orb]; auto.
  now destruct (existsb (Nat.eqb h) hs).
Qed.

Lemma endedFrom_patch h p hs o rest :
  endedFrom h o (map (fun h' => AddPatch h' p) hs ++ rest) = endedFrom h o rest.
Proof. induction hs as [|h' hs IH]; cbn [map app endedFrom]; auto. Qed.

Lemma endedFrom_patches h hs ps : forall o rest,
  endedFrom h o (flat_map (fun p => map (fun h' => AddPatch h' p) hs) ps ++ rest)
  = endedFrom h o rest.
Proof.
  intros o rest. induction ps as [|p ps IH]; cbn [flat_map app]; auto.
  now rewrite <- app_assoc, endedFrom_patch.
Qed.

Lemma endedFrom_ends_none h hs :
  endedFrom h None (map PokeEnd hs) = [].
Proof.
  induction hs as [|h' hs IH]; cbn [map endedFrom]; auto.
  now destruct (Nat.eqb h h').
Qed.

Lemma endedFrom_ends h hs : forall o,
  endedFrom h o (map PokeEnd hs)
  = if existsb (Nat.eqb h) hs
    then match o with Some v => [v] | None => [] end
    else [].
Proof.
  induction hs as [|h' hs IH]; intros o; cbn [map endedFrom existsb]; auto.
  destruct (Nat.eqb h h'); cbn [orb].
  - destruct o; now rewrite endedFrom_ends_none.
  - apply IH.
Qed.

(** One poke ends the handler [h] once, with the poke's version, whatever
    was left open before. *)
Lemma endedFrom_round h hs v ps ended o :
  endedFrom h o (pokeRound hs v ps ended)
  = if ended && existsb (Nat.eqb h) hs then [v] else [].
Proof.
  unfold pokeRound. rewrite endedFrom_starts, endedFrom_patches.
  destruct ended; cbn [andb].
  - rewrite endedFrom_ends. now destruct (existsb (Nat.eqb h) hs).
  - reflexivity.
Qed.

Lemma In_pokeCalls ev e : isPoke ev = true -> In ev e -> In ev (pokeCalls e).
Proof. intros P H. apply filter_In. auto. Qed.

Lemma In_pokeRound_start hs v ps ended h x :
  In (StartPoke h x) (pokeRound hs v ps ended) -> In h hs /\ x = v.
Proof.
  unfold pokeRound. intros H. apply in_app_or in H. destruct H as [H|H].
  - apply in_map_iff in H. destruct H as (h' & [= <- <-] & Hh). auto.
  - apply in_app_or in H. destruct H as [H|H].
    + apply in_flat_map in H. destruct H as (p & _ & H).
      apply in_map_iff in H. destruct H as (? & Hx & _). discriminate Hx.
    + destruct ended; [|destruct H].
      apply in_map_iff in H. destruct H as (? & Hx & _). discriminate Hx.
Qed.

Lemma pointerAdvanced_refl c : pointerAdvanced c c.
Proof. intros c0 ->. exists c0. split; auto. apply version_le_refl. Qed.

Lemma pointerAdvanced_trans a b c :
  pointerAdvanced a b -> pointerAdvanced b c -> pointerAdvanced a c.
Proof.
  intros H1 H2 x Hx. destruct (H1 x Hx) as (y & Hy & L1).
  destruct (H2 y Hy) as (z & Hz & L2). exists z. split; auto.
  eapply version_le_trans; eauto.
Qed.

Lemma calm_In e ev : forallb calm e = true -> In ev e -> calm ev = true.
Proof. intros H. rewrite forallb_forall in H. auto. Qed.

Lemma calm_noTrack e : forallb calm e = true -> noTrack e.
Proof. intros H a r Hin. pose proof (calm_In _ _ H Hin) as C. discriminate C. Qed.

Lemma tracked_app_calm_l e1 e2 :
  forallb calm e1 = true -> tracked (e1 ++ e2) -> tracked e2.
Proof.
  intros H (a & r & Hin). apply in_app_or in Hin. destruct Hin as [Hin|Hin].
  - pose proof (calm_In _ _ H Hin) as C. discriminate C.
  - now exists a, r.
Qed.

Lemma tracked_app_calm_r e1 e2 :
  forallb calm e2 = true -> tracked (e1 ++ e2) -> tracked e1.
Proof.
  intros H (a & r & Hin). apply in_app_or in Hin. destruct Hin as [Hin|Hin].
  - now exists a, r.
  - pose proof (calm_In _ _ H Hin) as C. discriminate C.
Qed.

Lemma paced_calm c s' e :
  cvr s' = c -> forallb calm e = true -> paced c s' e.
Proof.
  intros <- H. split; [apply pointerAdvanced_refl|].
  intros h v Hin. pose proof (calm_In _ _ H Hin) as C. discriminate C.
Qed.

Lemma paced_app_calm_r c0 s1 s2 e1 e2 :
  paced c0 s1 e1 -> cvr s2 = cvr s1 -> forallb calm e2 = true ->
  paced c0 s2 (e1 ++ e2).
Proof.
  intros [P0 P1] V C. split; [now rewrite V|].
  intros h v Hin. apply in_app_or in Hin. destruct Hin as [Hin|Hin].
  2: { pose proof (calm_In _ _ C Hin) as X. discriminate X. }
  destruct (P1 h v Hin) as [F1 F2]. split.
  - intros c Hc. destruct (F1 c Hc) as [L S]. split; auto.
    intros Tr. apply S. eapply tracked_app_calm_r; eauto.
  - intros (h' & He). rewrite V. apply F2.
    apply in_app_or in He. destruct He as [He|He]; [eauto|].
    pose proof (calm_In _ _ C He) as X. discriminate X.
Qed.

Lemma paced_app_calm_l c0 c1 s2 e1 e2 :
  pointerAdvanced c0 c1 -> forallb calm e1 = true -> paced c1 s2 e2 ->
  paced c0 s2 (e1 ++ e2).
Proof.
  intros A C [P0 P1]. split; [eapply pointerAdvanced_trans; eauto|].
  intros h v Hin. apply in_app_or in Hin. destruct Hin as [Hin|Hin].
  { pose proof (calm_In _ _ C Hin) as X. discriminate X. }
  destruct (P1 h v Hin) as [F1 F2]. split.
  - intros c Hc. destruct (A c Hc) as (c' & Hc' & L).
    destruct (F1 c' Hc') as [L' S]. split.
    + eapply version_le_trans; eauto.
    + intros Tr. eapply version_le_lt_trans; [exact L|].
      apply S. eapply tracked_app_calm_l; eauto.
  - intros (h' & He). apply F2.
    apply in_app_or in He. destruct He as [He|He]; [|eauto].
    pose proof (calm_In _ _ C He) as X. discriminate X.
Qed.

Lemma paced_keeps {A} (m : M A) s :
  keeps calm m -> wp m s (fun _ s' e => paced (cvr s) s' e).
Proof.
  intros K. eapply wp_conseq; [apply K|]. cbn beta.
  intros _ s' e [V C]. now apply paced_calm.
Qed.

Lemma paced_bind_pre {A B} (m : M A) (k : A -> M B) s :
  wp m s (fun _ s1 e1 => pointerAdvanced (cvr s) (cvr s1) /\
                         forallb calm e1 = true) ->
  (forall a s1, wp (k a) s1 (fun _ s' e => paced (cvr s1) s' e)) ->
  wp (bind m k) s (fun _ s' e => paced (cvr s) s' e).
Proof.
  intros Hm Hk. apply wp_bind. eapply wp_conseq; [apply Hm|]. cbn beta.
  intros [a|x] s1 e1 [A1 C1].
  - eapply wp_conseq; [apply Hk|]. cbn beta. intros _ s2 e2 P2.
    eapply paced_app_calm_l; eauto.
  - rewrite <- (app_nil_r e1).
    eapply paced_app_calm_l; eauto. now apply paced_calm.
Qed.

Lemma paced_bind_l {A B} (m : M A) (k : A -> M B) s :
  keeps calm m ->
  (forall a s1, wp (k a) s1 (fun _ s' e => paced (cvr s1) s' e)) ->
  wp (bind m k) s (fun _ s' e => paced (cvr s) s' e).
Proof.
  intros K. apply paced_bind_pre.
  eapply wp_conseq; [apply K|]. cbn beta. intros _ s1 e1 [V C].
  split; auto. rewrite V. apply pointerAdvanced_refl.
Qed.

Lemma paced_bind_r {A B} (m : M A) (k : A -> M B) s c0 :
  wp m s (fun _ s' e => paced c0 s' e) ->
  (forall a, keeps calm (k a)) ->
  wp (bind m k) s (fun _ s' e => paced c0 s' e).
Proof.
  intros Hm Hk. apply wp_bind. eapply wp_conseq; [apply Hm|]. cbn beta.
  intros [a|x] s1 e1 P1; [|exact P1].
  eapply wp_conseq; [apply Hk|]. cbn beta. intros _ s2 e2 [V C].
  eapply paced_app_calm_r; eauto.
Qed.

Lemma paced_catch {A} (m : M A) (ev : Error -> Event) s c0 :
  (forall x, calm (ev x) = true) ->
  wp m s (fun _ s' e => paced c0 s' e) ->
  wp (catch m (fun e => emit (ev e) ;; raise e)) s (fun _ s' e => paced c0 s' e).
Proof.
  intros Hev. unfold wp, catch. cbv zeta. destruct (results (m s)) eqn:E.
  - try rewrite E. auto.
  - intros H. cbn. eapply paced_app_calm_r; eauto.
    cbn. now rewrite Hev.
Qed.

(** *** One poke, from its first call to its last *)

Lemma leads_nil v : leads v [].
Proof. split; [intros h x [] | intros h []]. Qed.

Lemma leads_app v e1 e2 : leads v e1 -> leads v e2 -> leads v (e1 ++ e2).
Proof.
  intros [A1 A2] [B1 B2]. split.
  - intros h x Hin. apply in_app_or in Hin. destruct Hin; eauto.
  - intros h Hin. apply in_app_or in Hin. destruct Hin as [H|H];
      [eapply A2 | eapply B2]; eauto.
Qed.

Lemma leads_quiet v e : forallb isQuiet e = true -> leads v e.
Proof.
  intros H. rewrite forallb_forall in H. split.
  - intros h x Hin. specialize (H _ Hin). discriminate H.
  - intros h Hin. specialize (H _ Hin). discriminate H.
Qed.

Lemma leads_starts v (pokers : list PokeHandler) :
  leads v (map (fun p => StartPoke (pkHandler p) v) pokers).
Proof.
  split.
  - intros h x Hin. apply in_map_iff in Hin. destruct Hin as (p & [= _ <-] & _).
    reflexivity.
  - intros h Hin. apply in_map_iff in Hin. destruct Hin as (p & Hx & _).
    discriminate Hx.
Qed.

Lemma roundAt_stop c v s1 e1 : cvr s1 = Some c -> leads v e1 -> roundAt c v s1 e1.
Proof. intros Hc [L1 L2]. split; auto. Qed.

Lemma roundAt_lead c v e1 s' e2 :
  leads v e1 -> roundAt c v s' e2 -> roundAt c v s' (e1 ++ e2).
Proof.
  intros [L1 L2] [R1 R2]. split.
  - intros h x Hin. apply in_app_or in Hin. destruct Hin; eauto.
  - destruct R2 as [[Hc No]|R2]; [left|right; exact R2].
    split; auto. intros h Hin. apply in_app_or in Hin.
    destruct Hin as [H|H]; [eapply L2 | eapply No]; eauto.
Qed.

Lemma roundAt_paced c v s' e :
  version_le (version c) v ->
  (tracked e -> version_lt (Some (version c)) (Some v)) ->
  roundAt c v s' e -> paced (Some c) s' e.
Proof.
  intros L S [R1 R2]. split.
  - intros c0 [= <-]. destruct R2 as [[Hc _]|(c' & Hc & L')].
    + exists c. split; auto. apply version_le_refl.
    + exists c'. split; auto. eapply version_le_trans; eauto.
  - intros h x Hin. rewrite (R1 h x Hin). split.
    + intros c0 [= <-]. auto.
    + intros (h' & He). destruct R2 as [[_ No]|R2]; [|exact R2].
      exfalso. eapply No; eauto.
Qed.

Lemma round_step {A B} c v (F : A -> Prop) (m : M A) (k : A -> M B) s :
  cvr s = Some c ->
  wp m s (fun r s1 e1 => cvr s1 = cvr s /\ leads v e1 /\
                         forall a, r = Ok a -> F a) ->
  (forall a s1, cvr s1 = Some c -> F a ->
                wp (k a) s1 (fun _ s' e => roundAt c v s' e)) ->
  wp (bind m k) s (fun _ s' e => roundAt c v s' e).
Proof.
  intros Hc Hm Hk. apply wp_bind. eapply wp_conseq; [apply Hm|]. cbn beta.
  intros [a|x] s1 e1 (V & L & HF).
  - eapply wp_conseq; [apply Hk; [congruence | now apply HF]|]. cbn beta.
    intros _ s2 e2 R2. now apply roundAt_lead.
  - apply roundAt_stop; [congruence | exact L].
Qed.

Lemma round_quiet {A B} c v (m : M A) (k : A -> M B) s :
  cvr s = Some c ->
  keeps isQuiet m ->
  (forall a s1, cvr s1 = Some c ->
                wp (k a) s1 (fun _ s' e => roundAt c v s' e)) ->
  wp (bind m k) s (fun _ s' e => roundAt c v s' e).
Proof.
  intros Hc K Hk. apply (round_step c v (fun _ => True)); auto.
  eapply wp_conseq; [apply K|]. cbn beta. intros r s1 e1 [V Q].
  split; auto. split; auto. now apply leads_quiet.
Qed.

Lemma round_starts {B} c v (k : list PokeHandler -> M B) s :
  cvr s = Some c ->
  (forall pokers, wp (k pokers) s (fun _ s' e => roundAt c v s' e)) ->
  wp (pokers <- startPokes v ;; k pokers) s (fun _ s' e => roundAt c v s' e).
Proof.
  intros Hc Hk. apply wp_bind. unfold wp at 1. rewrite startPokes_run.
  cbn [results fields calls fst snd].
  eapply wp_conseq; [apply Hk|]. cbn beta. intros _ s' e R.
  apply roundAt_lead; auto. apply leads_starts.
Qed.

Section Pace.
Context {VU : VersionedUpdaters}.

Lemma flush_roundAt {A} c v u (rest : M A) s :
  cvr s = Some c ->
  version_le v (updatedVersion u) ->
  keeps noStart rest ->
  wp (c' <- flushQueryUpdater u ;; modify (with_cvr (Some c')) ;; rest) s
     (fun _ s' e => roundAt c v s' e).
Proof.
  intros Hc L K. apply wp_bind. unfold flushQueryUpdater. wp_step.
  pose proof (flushQuery_version u (cvrStore s)) as F.
  destruct (flushQuery u (cvrStore s)) as [r st]. cbn [fst] in F.
  do 2 wp_step. destruct r as [x|c']; cbn [liftExt].
  - apply wp_raise. apply roundAt_stop; [exact Hc|].
    split; [intros h y [H|[]]; discriminate H | intros h [H|[]]; discriminate H].
  - apply wp_ret. wp_step.
    eapply wp_conseq; [apply K|]. cbn beta.
    intros _ s' e [V Q]. split.
    + intros h y [H|H]; [discriminate H|]. cbn in H.
      rewrite forallb_forall in Q. specialize (Q _ H). discriminate Q.
    + right. exists c'. split; [rewrite V; reflexivity|].
      eapply version_le_trans; [apply L | apply F; reflexivity].
Qed.

End Pace.

#[local] Instance noTrack_lawful : Lawful anyFields noTrack.
Proof.
  split.
  - intros; exact I.
  - intros; exact I.
  - intros a r [].
  - intros a b Ha Hb x y Hin. apply in_app_or in Hin.
    destruct Hin; [eapply Ha | eapply Hb]; eauto.
Qed.

Ltac track_side :=
  first [ exact I
        | intros; exact I
        | let H := fresh in intros ? ? [H|[]]; discriminate H ].

Lemma noTrack_processChanges changes u pokers :
  behaves anyFields noTrack anyError (processChanges changes u pokers).
Proof.
  assert (B : forall rows u, behaves anyFields noTrack anyError
                               (processBatch rows u pokers)).
  { intros. unfold processBatch, addPatchAll. repeat behaves_step track_side. }
  assert (Lp : forall l rows u, behaves anyFields noTrack anyError
                                 (processLoop l rows u pokers)).
  { induction l as [|ch l IH]; intros; cbn [processLoop];
      repeat behaves_step track_side; auto. }
  unfold processChanges. repeat behaves_step track_side; auto.
Qed.

Lemma noTrack_catchupClients c exclude s :
  wp (catchupClients c exclude None) s (fun _ _ e => noTrack e).
Proof.
  assert (H : behaves anyFields noTrack anyError (catchupClients c exclude None)).
  { unfold catchupClients, startPokes, sendRowPatch, materialize, addPatchAll,
      endPoke.
    repeat behaves_step track_side. }
  eapply wp_conseq; [apply H|]. cbn beta. tauto.
Qed.

Lemma noTrack_advancePipelines s :
  wp advancePipelines s (fun _ _ e => noTrack e).
Proof.
  assert (H : behaves anyFields noTrack anyError advancePipelines).
  { unfold advancePipelines, loadedCVR, startPokes, flushQueryUpdater, endPoke.
    repeat first [apply noTrack_processChanges | behaves_step track_side]. }
  eapply wp_conseq; [apply H|]. cbn beta. tauto.
Qed.

Lemma noStart_roundAt {A} c (m : M A) s :
  cvr s = Some c -> keeps noStart m ->
  wp m s (fun _ s' e => roundAt c (version c) s' e).
Proof.
  intros Hc K. eapply wp_conseq; [apply K|]. cbn beta.
  intros _ s' e [V Q]. split.
  - intros h x Hin. rewrite forallb_forall in Q. specialize (Q _ Hin).
    discriminate Q.
  - right. exists c. split; [congruence | apply version_le_refl].
Qed.

Section Paced.
Context {VU : VersionedUpdaters} {BU : BumpingUpdaters}.

Lemma advancePipelines_at s c :
  cvr s = Some c ->
  wp advancePipelines s (fun _ s' e => roundAt c (advanceVersion c s) s' e).
Proof.
  intros Hc. unfold advancePipelines, loadedCVR, advanceVersion.
  apply wp_bind. wp_step. rewrite Hc. apply wp_ret.
  wp_step. wp_step; [|apply roundAt_stop; [exact Hc | apply leads_nil]].
  destruct (advance (pipelines s)) as [r p]. cbn [fst].
  wp_step. wp_step; [|apply roundAt_stop; [exact Hc | apply leads_nil]].
  match goal with H : r = inr ?a |- _ =>
    subst r; destruct a as [[v n] changes] end.
  cbv beta iota.
  apply round_starts; [exact Hc|]. intros pokers.
  eapply (round_step c _
            (fun u1 => version_le (updatedVersion (newQueryUpdater c v))
                                  (updatedVersion u1))); [exact Hc | |].
  - eapply wp_conseq;
      [apply wp_and; [apply quiet_processChanges | apply processChanges_advances]|].
    cbn beta. intros r s1 e1 [[V Q] Adv]. split; [exact V|].
    split; [now apply leads_quiet | exact Adv].
  - intros u1 s1 Hc1 A1.
    apply flush_roundAt; [exact Hc1 | exact A1 | apply endPokes_noStart].
Qed.

Lemma addAndRemoveQueries_at c add rem s :
  cvr s = Some c ->
  wp (addAndRemoveQueries c add rem) s
     (fun _ s' e =>
        roundAt c
          (fst (fst (trackQueries (map (fun hash => (hash, hash)) add) rem
                       (newQueryUpdater c (currentVersion (pipelines s))))))
          s' e).
Proof.
  intros Hc. unfold addAndRemoveQueries.
  wp_step; [|apply roundAt_stop; [exact Hc | apply leads_nil]]. wp_step.
  pose proof (trackQueries_version (map (fun hash => (hash, hash)) add) rem
                (newQueryUpdater c (currentVersion (pipelines s)))) as [_ L2].
  destruct (trackQueries _ _ _) as [[nv qp] u0]. cbn [fst snd] in *.
  wp_step.
  eapply wp_conseq with (Q := fun _ s' e => roundAt c nv s' e).
  2: { cbn beta. intros _ s' e R.
       apply (roundAt_lead c nv [TrackQueries add rem]); auto.
       apply leads_quiet. reflexivity. }
  apply round_starts; [exact Hc|]. intros pokers.
  apply round_quiet;
    [exact Hc | apply (keeps_forEach isQuiet), quiet_addPatchAll |].
  intros [] s2 Hc2.
  apply round_quiet;
    [exact Hc2 | apply (keeps_forEach isQuiet), quiet_callRemoveQuery |].
  intros [] s3 Hc3.
  eapply (round_step c nv
            (fun u1 => version_le (updatedVersion u0) (updatedVersion u1)));
    [exact Hc3 | |].
  - eapply wp_conseq;
      [apply wp_and;
         [apply (keeps_foldM isQuiet); intros; apply quiet_hydrate
         | apply hydrateAll_advances]|].
    cbn beta. intros r s4 e4 [[V Q] Adv]. split; [exact V|].
    split; [now apply leads_quiet | exact Adv].
  - intros u1 s4 Hc4 A4. wp_step.
    pose proof (deleteUnreferencedRows_version u1 (cvrStore s4)) as L5.
    destruct (deleteUnreferencedRows u1 (cvrStore s4)) as [r u2].
    cbn [fst snd] in L5.
    wp_step; [|apply roundAt_stop; [exact Hc4 | apply leads_nil]].
    match goal with H : r = inr _ |- _ => specialize (L5 _ H) end.
    apply round_quiet;
      [exact Hc4 | apply (keeps_forEach isQuiet), quiet_addPatchAll |].
    intros [] s6 Hc6.
    apply flush_roundAt; [exact Hc6 | |].
    + eapply version_le_trans; [apply L2|].
      eapply version_le_trans; [apply A4 | apply L5].
    + apply keeps_bind; [apply catchup_noStart | intros _; apply endPokes_noStart].
Qed.

Lemma catchupClients_at c exclude s :
  cvr s = Some c ->
  wp (catchupClients c exclude None) s
     (fun _ s' e => roundAt c (version c) s' e).
Proof.
  intros Hc. unfold catchupClients.
  apply round_starts; [exact Hc|]. intros pokers.
  apply noStart_roundAt; [exact Hc|].
  unfold endPoke. repeat first [keeps_step | keeps_known].
Qed.

Lemma syncQueryPipelineSet_paced s :
  wp syncQueryPipelineSet s (fun _ s' e => paced (cvr s) s' e).
Proof.
  unfold syncQueryPipelineSet, loadedCVR.
  apply wp_bind. wp_step. destruct (cvr s) as [c|] eqn:Hc;
    [apply wp_ret | apply wp_raise; apply paced_calm; [exact Hc | reflexivity]].
  wp_step. wp_step; [|apply paced_calm; [exact Hc | reflexivity]].
  apply paced_bind_r.
  2: { intros _. unfold assertSynced. repeat keeps_step. }
  match goal with |- context [if ?b then _ else _] => destruct b end.
  - eapply wp_conseq; [apply addAndRemoveQueries_at; exact Hc|].
    cbn beta. intros _ s' e R. eapply roundAt_paced; [| |exact R].
    + apply version_lt_le, trackQueries_bumps.
    + intros _. apply trackQueries_bumps.
  - eapply wp_conseq;
      [apply wp_and; [apply catchupClients_at; exact Hc
                     | apply noTrack_catchupClients]|].
    cbn beta. intros _ s' e [R NT]. eapply roundAt_paced; [| |exact R].
    + apply version_le_refl.
    + intros (a & r & Hin). exfalso. eapply NT; eauto.
Qed.

Lemma patchQueries_paced cid patch s :
  wp (patchQueries cid patch) s (fun _ s' e => paced (cvr s) s' e).
Proof.
  unfold patchQueries, loadedCVR.
  apply wp_bind. wp_step. destruct (cvr s) as [c|] eqn:Hc;
    [apply wp_ret | apply wp_raise; apply paced_calm; [exact Hc | reflexivity]].
  rewrite <- Hc. apply paced_bind_pre.
  - rewrite Hc. destruct (Nat.ltb 0 (length patch)).
    + pose proof (configuredFrom_fold c cid patch _ [] (from_new c)) as CF.
      destruct (fold_left _ _ _) as [u added]. cbn [fst] in CF.
      apply wp_bind. unfold flushConfigUpdater. wp_step.
      pose proof (flushConfig_version c u (cvrStore s)) as F.
      destruct (flushConfig u (cvrStore s)) as [r st']. cbn [fst] in F.
      do 2 wp_step. destruct r as [err|c']; cbn [liftExt].
      * apply wp_raise. split; [|reflexivity].
        cbn. rewrite Hc. apply pointerAdvanced_refl.
      * apply wp_ret. unfold wp. cbn. split; [|reflexivity].
        intros c0 [= <-]. exists c'. split; auto.
    + apply wp_ret. split; [|reflexivity].
      cbn. rewrite Hc. apply pointerAdvanced_refl.
  - intros _ s1. wp_step. destruct (initialized (pipelines s1)).
    + apply syncQueryPipelineSet_paced.
    + apply wp_ret. apply paced_calm; reflexivity.
Qed.

Lemma runInLockForClient_paced {B} ctx cmd (body : B) fn newClient s :
  (forall cid b s1, wp (fn cid b) s1 (fun _ s' e => paced (cvr s1) s' e)) ->
  wp (runInLockForClient ctx cmd body fn newClient) s
     (fun _ s' e => paced (cvr s) s' e).
Proof.
  intros Hfn. unfold runInLockForClient. wp_step.
  apply paced_bind_r.
  2: { intros _. repeat keeps_step. }
  destruct newClient as [nc|].
  - apply paced_bind_l; [repeat keeps_step | intros _ s1].
    apply paced_bind_l; [repeat keeps_step | intros _ s2].
    apply paced_bind_l; [repeat keeps_step | intros _ s3].
    apply paced_catch; [reflexivity | apply Hfn].
  - destruct (alookup (clientID ctx) (clients s)) as [client|].
    + destruct (negb _).
      * apply paced_keeps. repeat keeps_step.
      * apply paced_catch; [reflexivity | apply Hfn].
    + apply paced_keeps. repeat keeps_step.
Qed.

Lemma advanceVersion_le c s : version_le (version c) (advanceVersion c s).
Proof.
  unfold advanceVersion. destruct (fst (advance (pipelines s))) as [x|[[v n] ch]].
  - apply version_le_refl.
  - apply newQueryUpdater_version.
Qed.

Lemma advancePipelines_paced s :
  wp advancePipelines s (fun _ s' e => paced (cvr s) s' e).
Proof.
  destruct (cvr s) as [c|] eqn:Hc.
  - eapply wp_conseq;
      [apply wp_and; [apply (advancePipelines_at s c Hc)
                     | apply noTrack_advancePipelines]|].
    cbn beta. intros _ s' e [R NT]. eapply roundAt_paced; [| |exact R].
    + apply advanceVersion_le.
    + intros (a & r & Hin). exfalso. eapply NT; eauto.
  - unfold advancePipelines, loadedCVR. apply wp_bind. wp_step. rewrite Hc.
    apply wp_raise. apply paced_calm; [exact Hc | reflexivity].
Qed.

Lemma step_paced op s : wp (step op) s (fun _ s' e => paced (cvr s) s' e).
Proof.
  destruct op as [ctx patch|ctx patch| |cid client| |token]; cbn [step].
  - apply paced_bind_r; [|intros; repeat keeps_step].
    unfold initConnection. wp_step.
    apply paced_bind_l; [repeat keeps_step | intros _ s1].
    apply paced_bind_r; [|intros; repeat keeps_step].
    apply runInLockForClient_paced. intros. apply patchQueries_paced.
  - apply runInLockForClient_paced. intros. apply patchQueries_paced.
  - unfold onVersionReady. wp_step. destruct (negb _).
    + apply paced_bind_l; [repeat keeps_step | intros _ s1].
      apply paced_bind_l;
        [unfold hydrateUnchangedQueries, loadedCVR, rehydrate, callAddQuery;
         repeat keeps_step
        | intros _ s2].
      apply syncQueryPipelineSet_paced.
    + apply advancePipelines_paced.
  - apply paced_keeps. unfold deleteClient, startIdleTimer. repeat keeps_step.
  - apply paced_keeps. unfold keepalive, startIdleTimer. repeat keeps_step.
  - apply paced_keeps. unfold idleTimeout. repeat keeps_step.
Qed.

End Paced.

(** *** Along the run loop *)

Lemma step_poke op s :
  atMostOnePoke (pokedBy op s) (results (step op s)) (calls (step op s)).
Proof.
  assert (Q : forall (m : M unit),
             behaves anyFields noPokes anyError m ->
             atMostOnePoke (handlers s) (results (m s)) (calls (m s))).
  { intros m H. destruct (H s) as (_ & N & _). now left. }
  destruct op as [ctx patch|ctx patch| |cid client| |token]; cbn [step pokedBy].
  - pose proof (initConnection_poke ctx patch s) as P. cbv zeta in P.
    cbn [pokedBy] in P. unfold bind. cbv zeta.
    destruct (results (initConnection ctx patch s)) as [h|x]; cbn.
    + rewrite app_nil_r. exact (poke_returned _ h tt _ P).
    + exact (poke_err _ x _ P).
  - apply changeDesiredQueries_poke.
  - exact (onVersionReady_poke s).
  - apply Q. unfold deleteClient, startIdleTimer. repeat behaves_step patch_side.
  - apply Q. unfold keepalive, startIdleTimer. repeat behaves_step patch_side.
  - apply Q. unfold idleTimeout. repeat behaves_step patch_side.
Qed.

Lemma In_existsb_eqb h hs : existsb (Nat.eqb h) hs = true -> In h hs.
Proof.
  intros H. apply existsb_exists in H. destruct H as (x & Hx & E).
  apply Nat.eqb_eq in E. now subst.
Qed.

Lemma turn_run i s :
  match i with
  | Do op => calls (turn i s) = calls (step op s) /\
             fields (turn i s) = fields (step op s)
  | Stop => calls (turn i s) = [] /\ cvr (fields (turn i s)) = cvr s
  end.
Proof.
  destruct i as [op|]; [|split; reflexivity].
  assert (C : calls (catch (step op) (fun _ => ret tt) s) = calls (step op s) /\
              fields (catch (step op) (fun _ => ret tt) s) = fields (step op s)).
  { unfold catch. cbv zeta. destruct (results (step op s)); [auto|].
    cbn. now rewrite app_nil_r. }
  destruct op; try exact C. split; reflexivity.
Qed.

Lemma step_VersionReady s :
  initialized (pipelines s) = true -> step VersionReady s = advancePipelines s.
Proof.
  intros H. cbn [step]. unfold onVersionReady. rewrite bind_get, H. reflexivity.
Qed.

Section Ended.
Context {VU : VersionedUpdaters} {BU : BumpingUpdaters}.

Lemma step_ended op s h o : endsWithin h o s (step op s).
Proof.
  pose proof (step_paced op s) as W. unfold wp in W. destruct W as [P0 P1].
  split; [exact P0|].
  rewrite <- endedFrom_pokeCalls.
  destruct (step_poke op s) as [N|(v & ps & ended & E & _)].
  - rewrite N. now left.
  - rewrite E, endedFrom_round.
    destruct ended; [|now left].
    destruct (existsb (Nat.eqb h) (pokedBy op s)) eqn:Hh; [|now left].
    right. exists v. split; [reflexivity|].
    apply In_existsb_eqb in Hh.
    assert (S1 : In (StartPoke h v) (calls (step op s))).
    { apply (proj1 (filter_In isPoke _ _)). fold (pokeCalls (calls (step op s))).
      rewrite E. unfold pokeRound. apply in_or_app. left.
      apply in_map_iff. eauto. }
    assert (S2 : In (PokeEnd h) (calls (step op s))).
    { apply (proj1 (filter_In isPoke _ _)). fold (pokeCalls (calls (step op s))).
      rewrite E. unfold pokeRound. apply in_or_app. right.
      apply in_or_app. right. apply in_map_iff. eauto. }
    destruct (P1 h v S1) as [F1 F2]. split.
    + intros c Hc. now destruct (F1 c Hc).
    + apply F2. eauto.
Qed.

Lemma turn_ended i s h o : endsWithin h o s (turn i s).
Proof.
  pose proof (turn_run i s) as R. destruct i as [op|].
  - destruct R as [R1 R2]. pose proof (step_ended op s h o) as [E0 E1].
    unfold endsWithin. rewrite R1, R2. split; assumption.
  - destruct R as [R1 R2]. unfold endsWithin. rewrite R1, R2.
    split; [apply pointerAdvanced_refl | now left].
Qed.

Lemma serve_ended inputs : forall s h o,
  let x := serve inputs s in
  pointerAdvanced (cvr s) (cvr (fields x)) /\
  StronglySorted version_le (endedFrom h o (calls x)) /\
  forall v, In v (endedFrom h o (calls x)) ->
    (forall c, cvr s = Some c -> version_le (version c) v) /\
    exists c', cvr (fields x) = Some c' /\ version_le v (version c').
Proof.
  induction inputs as [|i rest IH]; intros s h o; cbv zeta; cbn [serve].
  - cbn. split; [apply pointerAdvanced_refl|]. split; [constructor|].
    intros v [].
  - rewrite bind_get. destruct (versionChangesActive s).
    2: { cbn. split; [apply pointerAdvanced_refl|]. split; [constructor|].
         intros v []. }
    pose proof (turn_ended i s h o) as [T0 T1].
    destruct (turn i s) as [[r s1] e1] eqn:ET.
    cbn [results fields calls fst snd] in T0, T1.
    destruct r as [[]|x].
    + rewrite (bind_run _ _ _ _ _ _ ET). cbn [results fields calls fst snd].
      specialize (IH s1 h (openAfter h o e1)). cbv zeta in IH.
      destruct IH as (I0 & I1 & I2).
      rewrite endedFrom_app.
      split; [eapply pointerAdvanced_trans; eauto|].
      destruct T1 as [T1|(v1 & T1 & L1 & c1 & Hc1 & U1)]; rewrite T1; cbn [app].
      * split; [exact I1|]. intros v Hv. destruct (I2 v Hv) as [A B].
        split; [|exact B]. intros c Hc.
        destruct (T0 c Hc) as (c' & Hc' & L). 
        eapply version_le_trans; [exact L | now apply A].
      * split.
        -- constructor; [exact I1|]. apply Forall_forall. intros v Hv.
           destruct (I2 v Hv) as [A _].
           eapply version_le_trans; [exact U1 | now apply A].
        -- intros v [<-|Hv].
           ++ split; [exact L1|]. destruct (I0 c1 Hc1) as (c2 & Hc2 & L2).
              exists c2. split; auto. eapply version_le_trans; eauto.
           ++ destruct (I2 v Hv) as [A B]. split; [|exact B].
              intros c Hc. destruct (T0 c Hc) as (c' & Hc' & L).
              eapply version_le_trans; [exact L | now apply A].
    + rewrite (bind_run_err _ _ _ _ _ _ ET). cbn [results fields calls fst snd].
      split; [exact T0|].
      destruct T1 as [T1|(v1 & T1 & L1 & c1 & Hc1 & U1)]; rewrite T1.
      * split; [constructor | intros v []].
      * split; [repeat constructor|]. intros v [<-|[]]. split; eauto.
Qed.

End Ended.


End Properties.

(** * The fixture, run *)

Import Scenario.

Lemma bumpMinor_le v : version_le v (bumpMinor v).
Proof.
  unfold version_le, bumpMinor, cmpVersions. cbn.
  rewrite string_compare_refl. rewrite N.compare_gt_iff. lia.
Qed.

Lemma ensureNewVersion_le o w :
  version_le (version w) (version (ensureNewVersion o w)).
Proof.
  unfold ensureNewVersion. destruct (version_eqb _ _); cbn.
  - apply bumpMinor_le.
  - apply version_le_refl.
Qed.

Lemma stagedAt_le c v : version_le (version c) (version (work (stagedAt c v))).
Proof.
  unfold stagedAt.
  destruct (String.compare (stateVersion (version c)) v) eqn:E; cbn;
    try apply version_le_refl.
  unfold version_le, cmpVersions. cbn. rewrite E. discriminate.
Qed.

Lemma configuredFrom_le c u : configuredFrom c u -> version_le (version c) (version (work u)).
Proof.
  induction 1 as [|cid qs u H IH|cid hs u H IH|cid u H IH]; cbn.
  - apply version_le_refl.
  - eapply version_le_trans; [apply IH | apply ensureNewVersion_le].
  - eapply version_le_trans; [apply IH | apply ensureNewVersion_le].
  - eapply version_le_trans; [apply IH | apply ensureNewVersion_le].
Qed.

(** The store of the scenario obeys the version laws. *)
Lemma durable_versioned : VersionedUpdaters.
Proof.
  constructor.
  - intros c v. apply stagedAt_le.
  - intros add remove u. cbn. split.
    + apply ensureNewVersion_le.
    + apply version_le_refl.
  - intros rows u st patches. cbn. unfold stagedReceived.
    destruct (dUnavailable st); cbn; [discriminate|].
    intros _. apply ensureNewVersion_le.
  - intros u st patches _. apply version_le_refl.
  - intros u st c'. cbn. unfold stagedFlush.
    destruct (dUnavailable st); cbn; [discriminate|].
    intros [= <-]. apply version_le_refl.
  - intros c u st c' H. cbn. unfold stagedFlush.
    destruct (dUnavailable st); cbn; [discriminate|].
    intros [= <-]. now apply configuredFrom_le.
Qed.


(** A message of [foo]'s replaced connection is dropped. *)
Lemma stale_changeDesiredQueries_is_dropped_witness :
  (exists c, alookup "foo" (clients synced) = Some c /\ hWsID c = "ws1") /\
  changeDesiredQueries STALE_CONTEXT BAD_PATCH synced
  = (Ok tt, with_idleToken None synced, [Dropped "changeDesiredQueries"]).
Proof.
  split.
  - eexists. split; vm_compute; reflexivity.
  - apply (stale_changeDesiredQueries_is_dropped STALE_CONTEXT BAD_PATCH synced).
    intros c H. vm_compute in H. injection H as <-. vm_compute. discriminate.
Defined.

(** Once the replica is ready, [query-hash1] is added and the CVR is
    brought to the replica's version. *)
Lemma syncQueryPipelineSet_reconciles_witness :
  let x := syncQueryPipelineSet ready in
  results x = Ok tt /\
  In (TrackQueries ["query-hash1"] []) (calls x) /\
  exists c', cvr (fields x) = Some c' /\
             stateVersion (version c') = currentVersion (pipelines (fields x)).
Proof.
  cbv zeta.
  assert (C : exists c, cvr ready = Some c) by (vm_compute; eauto).
  destruct C as [c C].
  destruct (syncQueryPipelineSet_reconciles ready c C eq_refl)
    as (_ & _ & H3 & _ & H5).
  split; [vm_compute; reflexivity|]. split.
  - vm_compute. auto.
  - apply H5. vm_compute. reflexivity.
Defined.

(** A got query that nobody desires any more is not handed to [addQuery],
    although its transformation hash is its own hash and the state
    versions agree. *)
Lemma undesired_query_is_not_rehydrated :
  (exists c q,
      cvr undesired = Some c /\
      stateVersion (version c) = currentVersion (pipelines undesired) /\
      alookup "query-hash1" (queries c) = Some q /\
      transformationHash q = Some "query-hash1") /\
  hydrateUnchangedQueries undesired = (Ok tt, undesired, []).
Proof.
  split.
  - do 2 eexists. split; [|split; [|split]]; vm_compute; reflexivity.
  - vm_compute. reflexivity.
Qed.

(** The poker of [foo], who is at the CVR's version, is given the config
    patch that only [bar] lacks. *)
Lemma caught_up_client_is_patched :
  let x := catchupClients gotCVR [] None twoClients in
  (exists h, alookup "foo" (clients twoClients) = Some h /\ hid h = 0 /\
             hVersion h = Some (version gotCVR)) /\
  results x = Ok tt /\
  In (AddPatch 0 configPatch) (calls x).
Proof.
  cbv zeta. split; [|split].
  - eexists. split; [|split]; vm_compute; reflexivity.
  - vm_compute. reflexivity.
  - vm_compute. auto.
Qed.

(** [foo] asks for a query on a column that does not exist: the message
    fails with the pipeline's error, and the CVR, in memory and in the
    store, holds the query as desired by [foo]. *)
Lemma patchQueries_flushes_before_validating_witness :
  let x := patchQueries "foo" BAD_PATCH synced in
  results x = Err (External "BadQuery") /\
  (exists c q,
      cvr (fields x) = Some c /\ dCVR (cvrStore (fields x)) = c /\
      alookup "query-hash3" (queries c) = Some q /\
      alookup "foo" (desiredBy q) = Some (mkVersion "1xz" 1)) /\
  exists c', hd_error (calls x) = Some (Flush (inr c')).
Proof.
  cbv zeta. split; [vm_compute; reflexivity|]. split.
  - do 2 eexists. split; [|split; [|split]]; vm_compute; reflexivity.
  - assert (C : exists c, cvr synced = Some c) by (vm_compute; eauto).
    destruct C as [c C].
    assert (F : exists c' st',
      flushConfig
        (fst (fold_left (applyPatch "foo") BAD_PATCH (newConfigUpdater c, [])))
        (cvrStore synced) = (inr c', st')).
    { vm_compute in C. injection C as <-. vm_compute. eauto. }
    destruct F as (c' & st' & F).
    exists c'.
    pose proof (patchQueries_flushes_before_validating
                "foo" BAD_PATCH synced c c' st' C ltac:(discriminate) F) as E.
    exact (f_equal (fun x => hd_error (calls x)) E).
Defined.

(** The registry is well formed when the service starts, and so after the
    fixture's run. *)
Lemma connections_stay_well_registered_witness :
  wellRegistered loaded /\ wellRegistered (fields (runOps quietRun loaded)).
Proof.
  assert (W : wellRegistered loaded).
  { split; [|split; [|split]]; cbn.
    - constructor.
    - constructor.
    - intros k h [].
    - discriminate. }
  split; [exact W|].
  exact (connections_stay_well_registered quietRun loaded W).
Defined.

(** The current connection of [foo] asks for the bad query: the patch is
    run, [foo]'s handler is failed with the pipeline's error. *)
Lemma changeDesiredQueries_of_the_current_connection_witness :
  let y := patchQueries "foo" BAD_PATCH synced in
  let x := changeDesiredQueries SYNC_CONTEXT BAD_PATCH synced in
  results x = Err (External "BadQuery") /\
  x = match results y with
      | Ok _ => (Ok tt, with_idleToken None (fields y), calls y)
      | Err e => (Err e, fields y, calls y ++ [Failed (hid FOO) e])
      end.
Proof.
  cbv zeta. split; [vm_compute; reflexivity|].
  assert (E : alookup (clientID SYNC_CONTEXT) (clients synced) = Some FOO)
    by (vm_compute; reflexivity).
  assert (W : hWsID FOO = wsID SYNC_CONTEXT) by reflexivity.
  apply (changeDesiredQueries_of_the_current_connection
           SYNC_CONTEXT BAD_PATCH synced FOO E W).
Defined.

(** A stream that fails after one row: nothing is handed to the updater. *)
Lemma processChanges_drops_the_batch_of_a_failed_stream_witness :
  let x := processChanges FAILING_STREAM (newQueryUpdater emptyCVR "1xz") [] loaded in
  results x = Err (External "stream closed") /\
  calls x = [] /\
  (forall rows r, In (Received rows r) (calls x) -> size rows = CURSOR_PAGE_SIZE).
Proof.
  cbv zeta. split; [vm_compute; reflexivity|]. split; [vm_compute; reflexivity|].
  apply (processChanges_drops_the_batch_of_a_failed_stream
           FAILING_STREAM "stream closed" (newQueryUpdater emptyCVR "1xz") [] loaded
           eq_refl).
Defined.

(** [foo] connects before the replica is ready: its patch is flushed to the
    CVR and nothing else is called. *)
Lemma patchQueries_before_the_pipelines_are_initialized_witness :
  exists c',
    patchQueries "foo" [OpPut "query-hash1" ISSUES_TITLE_QUERY] loaded
    = (Ok tt,
       with_cvr (Some c') (with_store (mkDurable c' [] [] false) loaded),
       [Flush (inr c')]).
Proof.
  destruct (patchQueries_before_the_pipelines_are_initialized
              "foo" [OpPut "query-hash1" ISSUES_TITLE_QUERY] loaded emptyCVR
              eq_refl) as [_ H].
  specialize (H ltac:(discriminate) eq_refl). cbv zeta in H.
  eexists. rewrite H. vm_compute. reflexivity.
Defined.

Lemma loaded_wellRegistered : wellRegistered loaded.
Proof.
  split; [|split; [|split]]; cbn.
  - constructor.
  - constructor.
  - intros k h [].
  - discriminate.
Qed.

(** A session of the fixture: [run()] returns, and [foo], the one client
    connected when it was stopped, is closed. *)
Lemma run_releases_every_client_witness :
  let x := run SESSION loaded in
  results x = Ok tt /\
  (exists work, calls x = work ++ [Closed 0]) /\
  NoDup (handlers (fields (bind start (fun _ => serve SESSION) loaded))).
Proof.
  cbv zeta.
  destruct (run_releases_every_client SESSION loaded loaded_wellRegistered)
    as (E & N & _).
  split; [rewrite E; reflexivity|]. split; [|exact N].
  rewrite E. cbn [calls snd]. eexists. apply f_equal. vm_compute. reflexivity.
Defined.

(** The CVR loaded at the start of the fixture is still there after its
    run. *)
Lemma the_cvr_stays_loaded_witness :
  cvr (fields (runOps quietRun loaded)) <> None.
Proof.
  apply (the_cvr_stays_loaded quietRun loaded). discriminate.
Defined.

(** [foo] reconnects; the cleanup of its first connection then finds the
    new handler in its place and leaves it. *)
Lemma a_late_cleanup_spares_the_new_connection_witness :
  let x := initConnection SYNC_CONTEXT [] synced in
  hid FOO < nextObject synced /\
  deleteClient "foo" FOO (fields x) = (Ok tt, fields x, []).
Proof.
  cbv zeta.
  assert (O : hid FOO < nextObject synced) by (vm_compute; lia).
  split; [exact O|].
  apply (a_late_cleanup_spares_the_new_connection SYNC_CONTEXT [] synced FOO O).
Defined.

(** [foo], the only client of the fixture, disconnects. *)
Lemma the_last_client_leaves_witness :
  let x := deleteClient "foo" FOO synced in
  calls x = [IdleTimerArmed (nextObject synced)] /\
  versionChangesActive
    (fields (idleTimeout (nextObject synced) (fields x))) = false.
Proof.
  cbv zeta.
  assert (C : clients synced = [("foo", FOO)]) by (vm_compute; reflexivity).
  destruct (the_last_client_leaves "foo" FOO synced C) as (X & Z & _).
  split; [now rewrite X | now rewrite Z].
Defined.

Lemma bumpMinor_lt v : version_lt (Some v) (Some (bumpMinor v)).
Proof.
  unfold version_lt, bumpMinor, cmpVersions. cbn.
  rewrite string_compare_refl. rewrite N.compare_lt_iff. lia.
Qed.

Lemma version_eqb_refl v : version_eqb v v = true.
Proof. unfold version_eqb. now rewrite String.eqb_refl, N.eqb_refl. Qed.

Lemma newer_state_version c v m :
  String.compare (stateVersion (version c)) v = Lt ->
  version_lt (Some (version c)) (Some (mkVersion v m)).
Proof. intros E. unfold version_lt, cmpVersions. cbn. now rewrite E. Qed.

(** The updaters of the scenario move to newer versions as the spec has
    it. *)
Lemma durable_bumping : BumpingUpdaters.
Proof.
  constructor.
  - intros c v add remove. cbn. unfold stagedAt, ensureNewVersion.
    destruct (String.compare (stateVersion (version c)) v) eqn:E; cbn.
    + rewrite version_eqb_refl. apply bumpMinor_lt.
    + destruct (version_eqb _ _); cbn; now apply newer_state_version.
    + rewrite version_eqb_refl. apply bumpMinor_lt.
  - intros c v E. cbn. unfold stagedAt. rewrite E. cbn.
    now apply newer_state_version.
Qed.



